(** * Gesture Rider: the road, traffic and projection core of [game.js]

    A shallow embedding of the simulation step ([Game.update],
    [Game.updateTraffic], [Game.checkSpriteCollisions], [Game.crash],
    [Game.overlap]), of the track builder ([Game.resetRoad], [Game.addCar],
    [Game.addSprite]) and of the projection and road pass of the renderer
    ([Utils.project], [Game.render]); further on, of the keyboard and wave
    parts of the input system ([InputSystem.getCommand],
    [InputSystem.detectWaveGesture]), of the frame loop ([Game.start],
    [Game.step], [Game.restart]), of the sprite pass of the renderer and of
    the targets [AudioController.update] sets.

    Numbers.  A JavaScript number is modelled as an exact rational or [NaN];
    the arithmetic operations return their result in lowest terms, so that
    a number has one representation however it was computed.
    Rounding and the infinities of IEEE doubles are outside the model; the
    only divisions of the modelled code are by non-zero constants or behind a
    sign test.  The claims that compare a computed number with a threshold
    of the source, or bound it by an interval, are therefore stated a
    thousandth inside the threshold, on closed intervals, and for inputs of
    moderate size, so that they do not turn on the last bit of a double.
    A property that is never assigned ([undefined]) and is only read in
    arithmetic or comparisons is modelled as [NaN], which behaves the same
    there.

    Objects.  Car objects live in a store ([carObjs]) and the [cars] array
    of a segment holds references (indices into the store), so that
    [indexOf], [splice] and [push] act on object identity as they do in the
    source.

    Exceptions.  A function that can throw a [TypeError] (reading a property
    of [undefined]) returns [option]; [None] is the uncaught exception. *)

From Stdlib Require Import QArith Qround Qabs Qminmax Lqa Lia ZArith.
From stdpp Require Import base option list strings gmap.

Local Open Scope Q_scope.

(** ** Numbers *)

Inductive num : Type :=
  | Num (q : Q)
  | NaN.

Definition nadd (a b : num) : num :=
  match a, b with Num x, Num y => Num (Qred (x + y)) | _, _ => NaN end.
Definition nsub (a b : num) : num :=
  match a, b with Num x, Num y => Num (Qred (x - y)) | _, _ => NaN end.
Definition nmul (a b : num) : num :=
  match a, b with Num x, Num y => Num (Qred (x * y)) | _, _ => NaN end.
(** No infinities in the model: a division by zero is [NaN]. *)
Definition ndiv (a b : num) : num :=
  match a, b with
  | Num x, Num y => if Qeq_bool y 0 then NaN else Num (Qred (x / y))
  | _, _ => NaN
  end.
Definition nneg (a : num) : num :=
  match a with Num x => Num (- x) | NaN => NaN end.

Definition Qlt_bool (x y : Q) : bool := negb (Qle_bool y x).

(** Comparisons with [NaN] are false. *)
Definition nlt (a b : num) : bool :=
  match a, b with Num x, Num y => Qlt_bool x y | _, _ => false end.
Definition nle (a b : num) : bool :=
  match a, b with Num x, Num y => Qle_bool x y | _, _ => false end.
Definition ngt (a b : num) : bool := nlt b a.
Definition nge (a b : num) : bool := nle b a.

(** [Math.max], [Math.min], [Math.abs]: [NaN] if an argument is [NaN]. *)
Definition nmax (a b : num) : num :=
  match a, b with Num x, Num y => Num (if Qle_bool x y then y else x) | _, _ => NaN end.
Definition nmin (a b : num) : num :=
  match a, b with Num x, Num y => Num (if Qle_bool x y then x else y) | _, _ => NaN end.
Definition nabs (a : num) : num :=
  match a with Num x => Num (if Qle_bool 0 x then x else - x) | NaN => NaN end.

(** [Math.floor] and [Math.round] (round half up). *)
Definition nfloor (a : num) : num :=
  match a with Num x => Num (inject_Z (Qfloor x)) | NaN => NaN end.
Definition nround (a : num) : num :=
  match a with Num x => Num (inject_Z (Qfloor (x + (1 # 2)))) | NaN => NaN end.

(** The integer a [Math.floor] produces, when there is one. *)
Definition floorZ (a : num) : option Z :=
  match a with Num x => Some (Qfloor x) | NaN => None end.

(** The remainder [%] of JavaScript: the sign follows the dividend. *)
Definition Qtrunc (x : Q) : Z := Z.quot (Qnum x) (Zpos (Qden x)).
Definition nrem (a b : num) : num :=
  match a, b with
  | Num x, Num y =>
      if Qeq_bool y 0 then NaN
      else Num (Qred (x - y * inject_Z (Qtrunc (x / y))))
  | _, _ => NaN
  end.
(** [%] on an integer and an array length: [None] is [NaN]. *)
Definition zrem (k : option Z) (n : nat) : option Z :=
  match k, n with
  | Some k, S _ => Some (Z.rem k (Z.of_nat n))
  | _, _ => None
  end.

(** [x || 0] on a number or [undefined]. *)
Definition orZero (a : num) : num :=
  match a with
  | Num x => if Qeq_bool x 0 then Num 0 else a
  | NaN => Num 0
  end.

Definition ofNat (n : nat) : num := Num (inject_Z (Z.of_nat n)).
Definition ofZ (k : Z) : num := Num (inject_Z k).

(** Array access [a[k]] with a computed index; [None] is [undefined]. *)
Definition at_index {A} (l : list A) (k : option Z) : option A :=
  match k with
  | Some k => if (k <? 0)%Z then None else l !! Z.to_nat k
  | None => None
  end.

(** ** Configuration *)

Module CONFIG.
Definition CAMERA_HEIGHT : num := Num 1000.
Definition CAMERA_DEPTH : num := Num 0.84.
Definition SEGMENT_LENGTH : num := Num 200.
Definition DRAW_DISTANCE : nat := 300.
Definition ROAD_WIDTH : num := Num 2000.
Definition MAX_SPEED : num := Num 12000.
Definition ACCEL : num := Num 100.
Definition BRAKING : num := Num (-300).
Definition DECEL : num := Num (-50).
Definition OFF_ROAD_DECEL : num := Num (-200).
Inductive COLORS := ROAD_LIGHT | ROAD_DARK.
End CONFIG.
Import CONFIG.

Declare Scope num_scope.
Delimit Scope num_scope with num.
Bind Scope num_scope with num.
Notation "a + b" := (nadd a b) : num_scope.
Notation "a - b" := (nsub a b) : num_scope.
Notation "a * b" := (nmul a b) : num_scope.
Notation "a / b" := (ndiv a b) : num_scope.
Notation "a <? b" := (nlt a b) : num_scope.
Notation "a <=? b" := (nle a b) : num_scope.
Notation "a >? b" := (ngt a b) : num_scope.
Notation "a >=? b" := (nge a b) : num_scope.

(** ** Data model *)

(** A reference to a car object: its index in the store. *)
Definition ref := nat.

Inductive CarType := car | truck.
Inductive SpriteType := tree.

Record Car := mkCar {
  car_offset : num;
  car_z : num;
  car_speed : num;
  car_percent : num;
  car_type : CarType;
  justPassed : bool
}.

Record Sprite := mkSprite {
  sprite_offset : num;
  sprite_type : SpriteType
}.

(** [world.x] is never assigned; [camera] and [screen] start as [{}]. *)
Record World := mkWorld { world_x : num; world_y : num; world_z : num }.
Record Camera := mkCamera { camera_x : num; camera_y : num; camera_z : num }.
Record Screen := mkScreen {
  screen_scale : num; screen_x : num; screen_y : num; screen_w : num
}.
Record Point := mkPoint { world : World; camera : Camera; screen : Screen }.

Record Segment := mkSegment {
  index : nat;
  p1 : Point;
  p2 : Point;
  color : COLORS;
  curve : num;
  cars : list ref;
  sprites : list Sprite;
  looped : bool;
  clipY : num
}.

Record Game := mkGame {
  width : num;
  height : num;
  position : num;
  playerX : num;
  speed : num;
  score : num;
  distanceRun : num;
  segments : list Segment;
  carObjs : list Car;
  isPlaying : bool;
  isGameOver : bool;
  highScore : num;
  (* localStorage 'gestureRiderHighScore' *)
  storedHighScore : num
}.

Record Command := mkCommand { steer : num; accel : num; brake : num }.

(** Field updates. *)
Definition set_position (v : num) (g : Game) : Game :=
  mkGame (width g) (height g) v (playerX g) (speed g) (score g) (distanceRun g)
         (segments g) (carObjs g) (isPlaying g) (isGameOver g) (highScore g)
         (storedHighScore g).
Definition set_playerX (v : num) (g : Game) : Game :=
  mkGame (width g) (height g) (position g) v (speed g) (score g) (distanceRun g)
         (segments g) (carObjs g) (isPlaying g) (isGameOver g) (highScore g)
         (storedHighScore g).
Definition set_speed (v : num) (g : Game) : Game :=
  mkGame (width g) (height g) (position g) (playerX g) v (score g) (distanceRun g)
         (segments g) (carObjs g) (isPlaying g) (isGameOver g) (highScore g)
         (storedHighScore g).
Definition set_score (v : num) (g : Game) : Game :=
  mkGame (width g) (height g) (position g) (playerX g) (speed g) v (distanceRun g)
         (segments g) (carObjs g) (isPlaying g) (isGameOver g) (highScore g)
         (storedHighScore g).
Definition set_distanceRun (v : num) (g : Game) : Game :=
  mkGame (width g) (height g) (position g) (playerX g) (speed g) (score g) v
         (segments g) (carObjs g) (isPlaying g) (isGameOver g) (highScore g)
         (storedHighScore g).
Definition set_segments (v : list Segment) (g : Game) : Game :=
  mkGame (width g) (height g) (position g) (playerX g) (speed g) (score g)
         (distanceRun g) v (carObjs g) (isPlaying g) (isGameOver g) (highScore g)
         (storedHighScore g).
Definition set_carObjs (v : list Car) (g : Game) : Game :=
  mkGame (width g) (height g) (position g) (playerX g) (speed g) (score g)
         (distanceRun g) (segments g) v (isPlaying g) (isGameOver g) (highScore g)
         (storedHighScore g).
Definition set_isGameOver (v : bool) (g : Game) : Game :=
  mkGame (width g) (height g) (position g) (playerX g) (speed g) (score g)
         (distanceRun g) (segments g) (carObjs g) (isPlaying g) v (highScore g)
         (storedHighScore g).
Definition set_highScore (v : num) (g : Game) : Game :=
  mkGame (width g) (height g) (position g) (playerX g) (speed g) (score g)
         (distanceRun g) (segments g) (carObjs g) (isPlaying g) (isGameOver g) v
         (storedHighScore g).
Definition set_storedHighScore (v : num) (g : Game) : Game :=
  mkGame (width g) (height g) (position g) (playerX g) (speed g) (score g)
         (distanceRun g) (segments g) (carObjs g) (isPlaying g) (isGameOver g)
         (highScore g) v.

Definition set_cars (v : list ref) (s : Segment) : Segment :=
  mkSegment (index s) (p1 s) (p2 s) (color s) (curve s) v (sprites s)
            (looped s) (clipY s).
Definition set_sprites (v : list Sprite) (s : Segment) : Segment :=
  mkSegment (index s) (p1 s) (p2 s) (color s) (curve s) (cars s) v
            (looped s) (clipY s).
Definition set_car_z (v : num) (c : Car) : Car :=
  mkCar (car_offset c) v (car_speed c) (car_percent c) (car_type c) (justPassed c).
Definition set_justPassed (v : bool) (c : Car) : Car :=
  mkCar (car_offset c) (car_z c) (car_speed c) (car_percent c) (car_type c) v.

(** A loop whose body can throw. *)
Fixpoint foldM {A B} (f : B -> A -> option B) (b : B) (l : list A) : option B :=
  match l with
  | [] => Some b
  | x :: l => b' ← f b x; foldM f b' l
  end.

(** ** Track construction: [resetRoad], [addCar], [addSprite]

    [Math.random] is an oracle [rnd : nat -> Q]; the counter of the draws
    made so far is threaded through the construction. *)

Definition TOTAL_SEGMENTS : nat := 2000.

Definition randomInt (r : Q) (min max : num) : num :=
  (nfloor (Num r * (max - min + Num 1)) + min)%num.

Definition addCar (segmentIndex : nat) (offset speed : num) (r : Q) (g : Game)
  : option Game :=
  segment ← segments g !! segmentIndex;
  let obj := mkCar offset (ofNat segmentIndex * SEGMENT_LENGTH)%num speed (Num 0)
                   (if (Num r >? Num 0.5)%num then car else truck) false in
  let new := length (carObjs g) in
  let g := set_carObjs (carObjs g ++ [obj]) g in
  Some (set_segments
          (<[segmentIndex := set_cars (cars segment ++ [new]) segment]> (segments g)) g).

Definition addSprite (segmentIndex : nat) (offset : num) (type : SpriteType)
    (g : Game) : option Game :=
  segment ← segments g !! segmentIndex;
  Some (set_segments
          (<[segmentIndex :=
               set_sprites (sprites segment ++ [mkSprite offset type]) segment]>
             (segments g)) g).

Definition curve_of (i : nat) : num :=
  if (100 <? i)%nat && (i <? 300)%nat then Num 2
  else if (500 <? i)%nat && (i <? 700)%nat then Num (-3)
  else if (1000 <? i)%nat && (i <? 1200)%nat then Num 4
  else if (1500 <? i)%nat && (i <? 1700)%nat then Num (-2)
  else Num 0.

Definition unset_camera : Camera := mkCamera NaN NaN NaN.
Definition unset_screen : Screen := mkScreen NaN NaN NaN NaN.

Definition new_segment (i : nat) : Segment :=
  mkSegment i
    (mkPoint (mkWorld NaN (Num 0) (ofNat i * SEGMENT_LENGTH)%num)
             unset_camera unset_screen)
    (mkPoint (mkWorld NaN (Num 0) (ofNat (i + 1) * SEGMENT_LENGTH)%num)
             unset_camera unset_screen)
    (if ((i / 3) mod 2 =? 0)%nat then ROAD_LIGHT else ROAD_DARK)
    (curve_of i) [] [] false NaN.

Definition lanes : list num := [Num (-0.65); Num 0; Num 0.65].

(** One iteration of the loop of [resetRoad]; [k] counts the draws. *)
Definition resetRoad_iter (rnd : nat -> Q) (st : Game * nat) (i : nat)
  : option (Game * nat) :=
  let '(g, k) := st in
  let g := set_segments (segments g ++ [new_segment i]) g in
  st ←
    (if (20 <? i)%nat && (i mod 40 =? 0)%nat then
       if (Num (rnd k) >? Num 0.3)%num then
         let lane :=
           match at_index lanes (floorZ (Num (rnd (k + 1)%nat) * ofNat (length lanes))%num) with
           | Some l => l
           | None => NaN
           end in
         let speed := randomInt (rnd (k + 2)%nat) (Num 3000) (Num 8000) in
         g ← addCar i lane speed (rnd (k + 3)%nat) g;
         Some (g, (k + 4)%nat)
       else Some (g, (k + 1)%nat)
     else Some (g, k));
  let '(g, k) := st in
  if (i mod 20 =? 0)%nat then
    if (Num (rnd k) >? Num 0.2)%num then
      let side := if (Num (rnd (k + 1)%nat) >? Num 0.5)%num then Num 1 else Num (-1) in
      g ← addSprite i (side * (Num 1.5 + Num (rnd (k + 2)%nat)))%num tree g;
      Some (g, (k + 3)%nat)
    else Some (g, (k + 1)%nat)
  else Some (g, k).

(** [this.segments = []] drops every reference to the cars of the old
    track: the store starts empty as well. *)
Definition resetRoad (rnd : nat -> Q) (g : Game) : option Game :=
  let g := set_carObjs [] (set_segments [] g) in
  st ← foldM (resetRoad_iter rnd) (g, 0%nat) (seq 0 TOTAL_SEGMENTS);
  Some (fst st).

(** The constructor: [stored] is what [localStorage] holds, parsed. *)
Definition newGame (w h stored : num) (rnd : nat -> Q) : option Game :=
  resetRoad rnd
    (mkGame w h (Num 0) (Num 0) (Num 0) (Num 0) (Num 0) [] [] false false
            (orZero stored) stored).

Definition restart (rnd : nat -> Q) (g : Game) : option Game :=
  g ← resetRoad rnd g;
  let g := set_speed (Num 0) g in
  let g := set_score (Num 0) g in
  let g := set_distanceRun (Num 0) g in
  let g := set_position (Num 0) g in
  let g := set_playerX (Num 0) g in
  let g := set_isGameOver false g in
  Some (mkGame (width g) (height g) (position g) (playerX g) (speed g) (score g)
               (distanceRun g) (segments g) (carObjs g) true (isGameOver g)
               (highScore g) (storedHighScore g)).

(** ** The simulation step *)

Definition findSegment (g : Game) (z : num) : option Segment :=
  at_index (segments g)
           (zrem (floorZ (z / SEGMENT_LENGTH)%num) (length (segments g))).

Definition overlap (x1 w1 x2 w2 : num) : bool :=
  let half1 := (w1 / Num 2)%num in
  let half2 := (w2 / Num 2)%num in
  let min1 := (x1 - half1)%num in
  let max1 := (x1 + half1)%num in
  let min2 := (x2 - half2)%num in
  let max2 := (x2 + half2)%num in
  negb ((max1 <? min2)%num || (min1 >? max2)%num).

Definition crash (g : Game) : Game :=
  let g := set_speed (Num 0) g in
  let g := set_isGameOver true g in
  if (score g >? highScore g)%num then
    let g := set_highScore (nfloor (score g)) g in
    set_storedHighScore (highScore g) g
  else g.

Definition triggerCloseCall (g : Game) : Game :=
  set_score (score g + Num 500)%num g.

(** The signed depth from the player to an obstacle, the short way round
    the track: the two [if]s that follow [let dist = ... - playerZ] in
    [updateTraffic] and in [checkSpriteCollisions]. *)
Definition shortest (dist trackLen : num) : num :=
  let dist :=
    if (dist <? nneg trackLen / Num 2)%num then (dist + trackLen)%num else dist in
  if (dist >? trackLen / Num 2)%num then (dist - trackLen)%num else dist.

Record Move := mkMove { move_car : ref; move_from : nat; move_to : option Z }.

(** [i !== k] between a loop index and a computed index ([None] is [NaN]). *)
Definition index_differs (i : nat) (k : option Z) : bool :=
  match k with
  | Some k => negb (Z.of_nat i =? k)%Z
  | None => true
  end.

(** Where a car is after the tick: [car.z += car.speed * dt] and the two
    [if]s that wrap it, at the top of the inner loop of [updateTraffic]. *)
Definition advance_z (dt trackLen : num) (c : Car) : num :=
  let z := (car_z c + car_speed c * dt)%num in
  let z := if (z >? trackLen)%num then (z - trackLen)%num else z in
  if (z <? Num 0)%num then (z + trackLen)%num else z.

(** The body of the inner loop of [updateTraffic], for the car object [r]
    found in [segments[i].cars]. *)
Definition updateTraffic_car (dt playerZ trackLen : num) (i : nat)
    (st : Game * list Move) (r : ref) : option (Game * list Move) :=
  let '(g, carsToMove) := st in
  c ← carObjs g !! r;
  let c := set_car_z (advance_z dt trackLen c) c in
  let currentSegmentIndex := i in
  let actualSegmentIndex :=
    zrem (floorZ (car_z c / SEGMENT_LENGTH)%num) (length (segments g)) in
  let carsToMove :=
    if index_differs currentSegmentIndex actualSegmentIndex
    then carsToMove ++ [mkMove r currentSegmentIndex actualSegmentIndex]
    else carsToMove in
  (* Interaction Logic *)
  let dist := shortest (car_z c - playerZ)%num trackLen in
  (* Close Call / Overtake Logic *)
  let '(g, c) :=
    if (dist <? Num (-100))%num && (dist >? Num (-300))%num && negb (justPassed c)
    then
      let lateralDist := nabs (playerX g - car_offset c)%num in
      if (lateralDist <? Num 0.8)%num && (lateralDist >? Num 0.35)%num
      then (triggerCloseCall g, set_justPassed true c)
      else (g, c)
    else (g, c) in
  (* Reset passed flag when far away *)
  let c := if (nabs dist >? Num 1000)%num then set_justPassed false c else c in
  (* Collision Logic *)
  let g :=
    if (nabs dist <? Num 200)%num then
      let carW := Num 0.45 in
      let playerW := Num 0.15 in
      if overlap (playerX g) playerW (car_offset c) carW then crash g else g
    else g in
  Some (set_carObjs (<[r := c]> (carObjs g)) g, carsToMove).

(** The outer loop body: all the cars of [segments[i]]. *)
Definition updateTraffic_segment (dt playerZ trackLen : num)
    (st : Game * list Move) (i : nat) : option (Game * list Move) :=
  segment ← segments (fst st) !! i;
  foldM (updateTraffic_car dt playerZ trackLen i) st (cars segment).

Fixpoint indexOf (l : list ref) (r : ref) : option nat :=
  match l with
  | [] => None
  | x :: l => if (x =? r)%nat then Some 0%nat else S <$> indexOf l r
  end.

(** The body of the loop over [carsToMove]. *)
Definition moveCar (g : Game) (move : Move) : option Game :=
  fromSeg ← segments g !! move_from move;
  match indexOf (cars fromSeg) (move_car move) with
  | Some index =>
      (* fromSeg.cars.splice(index, 1) *)
      let g :=
        set_segments
          (<[move_from move := set_cars (delete index (cars fromSeg)) fromSeg]>
             (segments g)) g in
      (* toSeg.cars.push(move.car) *)
      toSeg ← at_index (segments g) (move_to move);
      let to := Z.to_nat (default 0%Z (move_to move)) in
      Some (set_segments
              (<[to := set_cars (cars toSeg ++ [move_car move]) toSeg]>
                 (segments g)) g)
  | None => Some g
  end.

(** [updateTraffic(dt, playerSegment)]; the source never reads its second
    parameter. *)
Definition updateTraffic (dt : num) (g : Game) : option Game :=
  let carsToMove := [] in
  let playerZ := (position g + CAMERA_HEIGHT)%num in
  let trackLen := (ofNat (length (segments g)) * SEGMENT_LENGTH)%num in
  st ← foldM (updateTraffic_segment dt playerZ trackLen) (g, carsToMove)
             (seq 0 (length (segments g)));
  let '(g, carsToMove) := st in
  g ← foldM moveCar g carsToMove;
  Some (if (speed g >? Num 0)%num
        then set_score (score g + speed g / Num 1000 * dt * Num 10)%num g
        else g).

(** Whether [sprite] of [segment] is hit: the body of the inner loop of
    [checkSpriteCollisions] up to its call of [crash]. *)
Definition spriteHit (g : Game) (playerZ trackLen : num) (segment : Segment)
    (sprite : Sprite) : bool :=
  let spriteZ := world_z (world (p1 segment)) in
  let dist := shortest (spriteZ - playerZ)%num trackLen in
  if (nabs dist <? Num 100)%num then
    let spriteW := Num 0.3 in
    let playerW := Num 0.15 in
    overlap (playerX g) playerW (sprite_offset sprite) spriteW
  else false.

(** The loop [for (i = -1; i <= 2; i++)], which returns at the first hit. *)
Fixpoint checkSpriteCollisions_loop (g : Game) (playerZ trackLen : num)
    (startSegIndex : option Z) (l : list Z) : option Game :=
  match l with
  | [] => Some g
  | i :: l =>
      let n := length (segments g) in
      let idx := zrem ((fun s => s + i + Z.of_nat n)%Z <$> startSegIndex) n in
      segment ← at_index (segments g) idx;
      if existsb (spriteHit g playerZ trackLen segment) (sprites segment)
      then Some (crash g)
      else checkSpriteCollisions_loop g playerZ trackLen startSegIndex l
  end.

Definition checkSpriteCollisions (g : Game) : option Game :=
  let playerZ := (position g + CAMERA_HEIGHT)%num in
  let trackLen := (ofNat (length (segments g)) * SEGMENT_LENGTH)%num in
  let startSegIndex :=
    zrem (floorZ (playerZ / SEGMENT_LENGTH)%num) (length (segments g)) in
  checkSpriteCollisions_loop g playerZ trackLen startSegIndex [-1; 0; 1; 2]%Z.

(** [update(dt)], with the command that [input.getCommand()] returns.
    The fields [this.speed], [this.playerX], [this.position] and
    [this.distanceRun] are carried as local values and written back before
    [updateTraffic] is called; [findSegment] reads [this.segments], which the
    statements before it leave alone. *)
Definition update (dt : num) (cmd : Command) (g : Game) : option Game :=
  if isGameOver g then Some g else
  let ratio := (speed g / MAX_SPEED)%num in
  let speed :=
    if (accel cmd >? Num 0)%num
    then (speed g + ACCEL * accel cmd * dt * Num 60)%num
    else if (brake cmd >? Num 0)%num
    then (speed g + BRAKING * dt * Num 60)%num
    else (speed g + DECEL * dt * Num 60)%num in
  let speed := nmax (Num 0) (nmin speed MAX_SPEED) in
  let dx := (dt * Num 2 * steer cmd * (speed / MAX_SPEED))%num in
  let playerX := (playerX g - dx)%num in
  playerSegment ← findSegment g (position g + CAMERA_DEPTH * SEGMENT_LENGTH)%num;
  let playerX := (playerX - dx * curve playerSegment * ratio * Num 0.1)%num in
  let speed :=
    if ((playerX <? Num (-1))%num || (playerX >? Num 1)%num)
       && (speed >? Num 2000)%num
    then (speed + OFF_ROAD_DECEL * dt * Num 60)%num
    else speed in
  let playerX := nmax (Num (-2)) (nmin (Num 2) playerX) in
  let position := (position g + speed * dt)%num in
  let distanceRun := (distanceRun g + speed * dt)%num in
  let trackLength := (ofNat (length (segments g)) * SEGMENT_LENGTH)%num in
  let position :=
    if (position >=? trackLength)%num then (position - trackLength)%num
    else position in
  let position :=
    if (position <? Num 0)%num then (position + trackLength)%num
    else position in
  let g :=
    set_distanceRun distanceRun
      (set_position position (set_playerX playerX (set_speed speed g))) in
  g ← updateTraffic dt g;
  checkSpriteCollisions g.

(** ** Projection and the road pass of the renderer *)

Definition project (p : Point)
    (cameraX cameraY cameraZ cameraDepth width height roadWidth : num) : Point :=
  let cam :=
    mkCamera (orZero (world_x (world p)) - cameraX)%num
             (orZero (world_y (world p)) - cameraY)%num
             (orZero (world_z (world p)) - cameraZ)%num in
  if (camera_z cam <=? Num 0)%num then
    mkPoint (world p) cam
            (mkScreen (Num 0) (screen_x (screen p)) (screen_y (screen p))
                      (screen_w (screen p)))
  else
    let scale := (cameraDepth / camera_z cam)%num in
    mkPoint (world p) cam
      (mkScreen scale
         (nround (width / Num 2 + scale * camera_x cam * width / Num 2)%num)
         (nround (height / Num 2 - scale * camera_y cam * height / Num 2)%num)
         (nround (scale * roadWidth * width / Num 2)%num)).

Definition percentRemaining (n total : num) : num := (nrem n total / total)%num.
Definition interpolate (a b percent : num) : num := (a + (b - a) * percent)%num.

(** The state of the first loop of [render]: the game (whose segments get
    their scratch fields written), the running [x], [dx] and [maxY], and the
    segments handed to [renderSegment] so far, as they were when drawn. *)
Record RoadPass := mkRoadPass {
  rp_game : Game;
  rp_x : num;
  rp_dx : num;
  rp_maxY : num;
  rp_drawn : list Segment
}.

Definition render_iter (baseSegment : Segment) (playerY : num)
    (st : RoadPass) (n : nat) : option RoadPass :=
  let g := rp_game st in
  let count := length (segments g) in
  let i := zrem (Some (Z.of_nat (index baseSegment) + Z.of_nat n)%Z) count in
  segment ← at_index (segments g) i;
  let i := Z.to_nat (default 0%Z i) in
  let looped := (index segment <? index baseSegment)%nat in
  let x := (rp_x st + rp_dx st)%num in
  let dx := (rp_dx st + curve segment)%num in
  let segmentLoopOffset :=
    if looped then (ofNat count * SEGMENT_LENGTH)%num else Num 0 in
  let q1 :=
    project (p1 segment) (playerX g * ROAD_WIDTH - x)%num
            (playerY + CAMERA_HEIGHT)%num (position g - segmentLoopOffset)%num
            CAMERA_DEPTH (width g) (height g) ROAD_WIDTH in
  let q2 :=
    project (p2 segment) (playerX g * ROAD_WIDTH - x - dx)%num
            (playerY + CAMERA_HEIGHT)%num (position g - segmentLoopOffset)%num
            CAMERA_DEPTH (width g) (height g) ROAD_WIDTH in
  let segment :=
    mkSegment (index segment) q1 q2 (color segment) (curve segment)
              (cars segment) (sprites segment) looped (clipY segment) in
  if (camera_z (camera (p1 segment)) <=? CAMERA_DEPTH)%num
     || (screen_y (screen (p2 segment)) >=? rp_maxY st)%num
     || (screen_y (screen (p2 segment)) >=? screen_y (screen (p1 segment)))%num
  then
    Some (mkRoadPass (set_segments (<[i := segment]> (segments g)) g)
                     x dx (rp_maxY st) (rp_drawn st))
  else
    (* this.renderSegment(segment) *)
    let drawn := rp_drawn st ++ [segment] in
    let maxY := screen_y (screen (p1 segment)) in
    let segment :=
      mkSegment (index segment) (p1 segment) (p2 segment) (color segment)
                (curve segment) (cars segment) (sprites segment)
                (looped) maxY in
    Some (mkRoadPass (set_segments (<[i := segment]> (segments g)) g)
                     x dx maxY drawn).

(** [render] up to the end of its first loop. *)
Definition render (g : Game) : option RoadPass :=
  baseSegment ← findSegment g (position g);
  let basePercent := percentRemaining (position g) SEGMENT_LENGTH in
  playerSegment ←
    findSegment g (position g + CAMERA_DEPTH * SEGMENT_LENGTH)%num;
  let playerPercent :=
    percentRemaining (position g + CAMERA_DEPTH * SEGMENT_LENGTH)%num
                     SEGMENT_LENGTH in
  let playerY :=
    interpolate (world_y (world (p1 playerSegment)))
                (world_y (world (p2 playerSegment))) playerPercent in
  let dx := nneg (curve baseSegment * basePercent)%num in
  let x := Num 0 in
  let maxY := height g in
  foldM (render_iter baseSegment playerY) (mkRoadPass g x dx maxY [])
        (seq 0 DRAW_DISTANCE).

(** ** Runs, well-formedness and ownership *)

(** A run of the frame loop: one [update] per tick, each with its elapsed
    time and the command sampled at that tick. *)
Definition run (inputs : list (num * Command)) (g : Game) : option Game :=
  foldM (fun g (x : num * Command) => update (fst x) (snd x) g) g inputs.

(** An elapsed time in (0, 1]. *)
Definition tick_ok (dt : num) : bool := (Num 0 <? dt)%num && (dt <=? Num 1)%num.

(** [a === b] on numbers. *)
Definition same (a b : num) : bool :=
  match a, b with Num x, Num y => Qeq_bool x y | _, _ => false end.

Definition is_num (a : num) : bool :=
  match a with Num _ => true | NaN => false end.

Definition trackLength (g : Game) : num :=
  (ofNat (length (segments g)) * SEGMENT_LENGTH)%num.

Definition car_wf (c : Car) : bool :=
  (Num 0 <=? car_z c)%num && (Num 0 <=? car_speed c)%num.

(** The track has its 2000 segments, every reference held by a segment
    points into the store, and every car has a depth and a speed that are
    non-negative numbers. *)
Definition track_wf (g : Game) : bool :=
  (length (segments g) =? TOTAL_SEGMENTS)%nat
  && forallb (fun sg => forallb (fun r => r <? length (carObjs g))%nat (cars sg))
             (segments g)
  && forallb car_wf (carObjs g).

Definition player_wf (g : Game) : bool :=
  (Num 0 <=? position g)%num && (position g <? trackLength g)%num
  && is_num (speed g).

(** [floor(car.z / SEGMENT_LENGTH) % segments.length], as [updateTraffic]
    computes it. *)
Definition owner_index (g : Game) (c : Car) : option Z :=
  zrem (floorZ (car_z c / SEGMENT_LENGTH)%num) (length (segments g)).

(** [loc] says which segment holds each car object: the [cars] array of
    segment [j] lists, without repetition, the objects that [loc] sends
    to [j]. *)
Definition Located (g : Game) (loc : ref -> nat) : Prop :=
  forall j sg, segments g !! j = Some sg ->
    NoDup (cars sg) /\
    forall r, r ∈ cars sg <-> (r < length (carObjs g))%nat /\ loc r = j.

Definition Owned (g : Game) : Prop :=
  exists loc, Located g loc /\
    forall r c, carObjs g !! r = Some c ->
      owner_index g c = Some (Z.of_nat (loc r)).

Definition Inv (g : Game) : Prop :=
  track_wf g = true /\ player_wf g = true /\ Owned g.

(** The ownership invariant as the specification words it. *)
Definition single_owner (g : Game) : Prop :=
  forall r c, carObjs g !! r = Some c ->
    exists i sg z,
      segments g !! i = Some sg /\ r ∈ cars sg /\ NoDup (cars sg) /\
      (forall j sg', segments g !! j = Some sg' -> r ∈ cars sg' -> j = i) /\
      car_z c = Num z /\
      Z.of_nat i = (Qfloor (z / 200) mod Z.of_nat (length (segments g)))%Z.

(** ** The interaction of one car with the player, piece by piece

    What one iteration of the inner loop of [updateTraffic] decides for
    the car object [c] (as stored before the iteration): the signed depth it
    compares, whether the close-call bonus is awarded, whether [crash] is
    called, and the car and game it leaves.  [updateTraffic_car_eq] below
    shows that the loop body is made of exactly these. *)

Definition car_dist (dt playerZ trackLen : num) (c : Car) : num :=
  shortest (advance_z dt trackLen c - playerZ)%num trackLen.

Definition closeCall_fires (dt playerZ trackLen : num) (g : Game) (c : Car)
  : bool :=
  let dist := car_dist dt playerZ trackLen c in
  let lateralDist := nabs (playerX g - car_offset c)%num in
  (dist <? Num (-100))%num && (dist >? Num (-300))%num && negb (justPassed c)
  && ((lateralDist <? Num 0.8)%num && (lateralDist >? Num 0.35)%num).

Definition collides (dt playerZ trackLen : num) (g : Game) (c : Car) : bool :=
  (nabs (car_dist dt playerZ trackLen c) <? Num 200)%num
  && overlap (playerX g) (Num 0.15) (car_offset c) (Num 0.45).

Definition car_after (dt playerZ trackLen : num) (g : Game) (c : Car) : Car :=
  let c1 := set_car_z (advance_z dt trackLen c) c in
  let c2 :=
    if closeCall_fires dt playerZ trackLen g c then set_justPassed true c1
    else c1 in
  if (nabs (car_dist dt playerZ trackLen c) >? Num 1000)%num
  then set_justPassed false c2 else c2.

Definition game_after (dt playerZ trackLen : num) (g : Game) (c : Car) : Game :=
  let g1 := if closeCall_fires dt playerZ trackLen g c
            then triggerCloseCall g else g in
  if collides dt playerZ trackLen g c then crash g1 else g1.

Definition move_of (dt trackLen : num) (g : Game) (i : nat) (r : ref) (c : Car)
  : list Move :=
  let k := owner_index g (set_car_z (advance_z dt trackLen c) c) in
  if index_differs i k then [mkMove r i k] else [].

(** What [updateTraffic] and [checkSpriteCollisions] may change of the
    player: nothing, or what [crash] sets. *)
Definition player_frame (g g' : Game) : Prop :=
  position g' = position g /\ playerX g' = playerX g /\
  width g' = width g /\ height g' = height g /\
  distanceRun g' = distanceRun g /\
  (speed g' = speed g /\ isGameOver g' = isGameOver g
   \/ speed g' = Num 0 /\ isGameOver g' = true).

(** ** The loops of [updateTraffic], flattened

    The two nested loops visit the pairs (segment index, car reference) in
    the order [visits] lists them. *)

Fixpoint visits_from (k : nat) (segs : list Segment) : list (nat * ref) :=
  match segs with
  | [] => []
  | sg :: rest => map (pair k) (cars sg) ++ visits_from (S k) rest
  end.

Definition visits (g : Game) : list (nat * ref) := visits_from 0 (segments g).

Definition visit_step (dt playerZ trackLen : num) (st : Game * list Move)
    (v : nat * ref) : option (Game * list Move) :=
  updateTraffic_car dt playerZ trackLen (fst v) st (snd v).

(** Where the cars are once the moves [ms] are carried out. *)
Definition relocate (ms : list Move) (loc : ref -> nat) : ref -> nat :=
  foldl (fun loc m r =>
           if (r =? move_car m)%nat
           then Z.to_nat (default 0%Z (move_to m)) else loc r)
        loc ms.

(** ** The player's part of [update]

    The statements of [update] from the speed rule to the wrap of
    [position], before it calls [updateTraffic]. *)

(** The speed after the accelerate / brake / drag rule and its clamp. *)
Definition speed_clamped (dt : num) (cmd : Command) (g : Game) : num :=
  let v :=
    if (accel cmd >? Num 0)%num
    then (speed g + ACCEL * accel cmd * dt * Num 60)%num
    else if (brake cmd >? Num 0)%num
    then (speed g + BRAKING * dt * Num 60)%num
    else (speed g + DECEL * dt * Num 60)%num in
  nmax (Num 0) (nmin v MAX_SPEED).

(** [dx], the steering displacement of the tick. *)
Definition steer_dx (dt : num) (cmd : Command) (g : Game) : num :=
  (dt * Num 2 * steer cmd * (speed_clamped dt cmd g / MAX_SPEED))%num.

(** The lateral offset before its clamp to [-2, 2]. *)
Definition lateral_raw (dt : num) (cmd : Command) (g : Game)
    (playerSegment : Segment) : num :=
  let dx := steer_dx dt cmd g in
  (playerX g - dx - dx * curve playerSegment * (speed g / MAX_SPEED) * Num 0.1)%num.

Definition off_road (x : num) : bool := (x <? Num (-1))%num || (x >? Num 1)%num.

(** The speed after the off-road penalty. *)
Definition speed_penalised (dt : num) (cmd : Command) (g : Game)
    (playerSegment : Segment) : num :=
  if off_road (lateral_raw dt cmd g playerSegment)
     && (speed_clamped dt cmd g >? Num 2000)%num
  then (speed_clamped dt cmd g + OFF_ROAD_DECEL * dt * Num 60)%num
  else speed_clamped dt cmd g.

Definition wrap_position (p trackLength : num) : num :=
  let p := if (p >=? trackLength)%num then (p - trackLength)%num else p in
  if (p <? Num 0)%num then (p + trackLength)%num else p.

Definition move_player (dt : num) (cmd : Command) (g : Game) : option Game :=
  playerSegment ← findSegment g (position g + CAMERA_DEPTH * SEGMENT_LENGTH)%num;
  let v := speed_penalised dt cmd g playerSegment in
  Some (set_distanceRun (distanceRun g + v * dt)%num
          (set_position
             (wrap_position (position g + v * dt)%num (trackLength g))
             (set_playerX
                (nmax (Num (-2))
                      (nmin (Num 2) (lateral_raw dt cmd g playerSegment)))
                (set_speed v g)))).

(** A pending move names a source segment and a target index that exist. *)
Definition move_ok (n : nat) (m : Move) : Prop :=
  (move_from m < n)%nat /\
  exists k, move_to m = Some (Z.of_nat k) /\ (k < n)%nat /\ k <> move_from m.

(** Every reference held by a segment points into the store. *)
Definition refs_valid (g : Game) : Prop :=
  forall i sg r, segments g !! i = Some sg -> r ∈ cars sg ->
                 (r < length (carObjs g))%nat.

(** The track while [resetRoad] builds it, [n] segments in: every car made
    so far sits in the segment it was added to, at that segment's depth. *)
Definition Built (n : nat) (g : Game) : Prop :=
  length (segments g) = n /\
  exists loc, Located g loc /\
    forall r c, carObjs g !! r = Some c ->
      (loc r < n)%nat /\
      car_z c = (ofNat (loc r) * SEGMENT_LENGTH)%num /\
      exists v, car_speed c = Num v /\ 0 <= v.

(** ** Concrete tracks and scenarios *)

(** Whether a call returned (rather than threw). *)
Definition returns {A} (o : option A) : bool :=
  match o with Some _ => true | None => false end.

(** [Math.random] always returning 0.9999: every spawn happens, every car
    is in the right lane at speed 8000, every tree is on the right. *)
Definition always_high : nat -> Q := fun _ => 0.9999.

Definition blank : Game :=
  mkGame (Num 800) (Num 600) (Num 0) (Num 0) (Num 0) (Num 0) (Num 0) [] []
         false false (Num 0) (Num 0).

(** The game the constructor builds with that oracle. *)
Definition fresh : Game :=
  default blank (newGame (Num 800) (Num 600) NaN always_high).

Definition neutral : Command := mkCommand (Num 0) (Num 0) (Num 0).

(** A track without scenery and with the given cars in segment 5. *)
Definition with_cars (playerX : num) (objs : list Car) : Game :=
  mkGame (Num 800) (Num 600) (Num 0) playerX (Num 6000) (Num 1234.5) (Num 0)
         (<[5%nat := set_cars (seq 0 (length objs)) (new_segment 5)]>
            (map new_segment (seq 0 TOTAL_SEGMENTS)))
         objs true false (Num 1000) (Num 1000).

(** Player on the centre line, a car in each outer lane, both within 200
    of [playerZ = position + CAMERA_HEIGHT = 1000] after they advance. *)
Definition lane_split : Game :=
  with_cars (Num 0)
            [mkCar (Num (-0.65)) (Num 1000) (Num 3000) (Num 0) car false;
             mkCar (Num 0.65) (Num 1100) (Num 3000) (Num 0) truck false].

(** Player in the right lane, right behind a car of that lane. *)
Definition tailgate : Game :=
  with_cars (Num 0.65)
            [mkCar (Num 0.65) (Num 1100) (Num 3000) (Num 0) car false].

(** The road pass on the fresh game, and the first segment it draws. *)
Definition fresh_pass : RoadPass :=
  default (mkRoadPass blank NaN NaN NaN []) (render fresh).
Definition first_drawn : Segment :=
  default (new_segment 0) (head (rp_drawn fresh_pass)).

(** The player passes, half a lane to the left, a car of the right lane. *)
Definition passed_car : Car :=
  mkCar (Num 0.65) (Num 1050) (Num 3000) (Num 0) car false.
Definition overtaking : Game := with_cars (Num 0.15) [passed_car].

Definition full_throttle : Command := mkCommand (Num 0) (Num 1) (Num 0).

(** Three seconds of full throttle from the start: the player is at
    depth 30000, in the first curve, at top speed, on the centre line. *)
Definition on_curve : Game :=
  default blank
    (run [(Num 1, full_throttle); (Num 1, full_throttle); (Num 1, full_throttle)]
         fresh).

(** Steering hard while accelerating for a second, then coasting for a
    second with the same steering: the player ends off the road. *)
Definition off_road_run : list (num * Command) :=
  [(Num 1, mkCommand (Num 1) (Num 1) (Num 0));
   (Num 1, mkCommand (Num 1) (Num 0) (Num 0))].

(** Every segment's curve is a number. *)
Definition curves_are_numbers (g : Game) : bool :=
  forallb (fun sg => is_num (curve sg)) (segments g).

(** ** More of the program: shared predicates *)

(** A whole number, as [parseInt] and [Math.floor] produce. *)
Definition is_integer (a : num) : Prop := exists k : Z, a = Num (inject_Z k).

(** What a step never changes of a car. *)
Definition same_model (c c' : Car) : Prop :=
  car_offset c' = car_offset c /\ car_speed c' = car_speed c
  /\ car_type c' = car_type c /\ car_percent c' = car_percent c.

(** What [update] leaves of a segment: everything but its [cars] array. *)
Definition same_road (sg sg' : Segment) : Prop := sg' = set_cars (cars sg') sg.

(** A tree as [resetRoad] plants it: beside the road, on either side. *)
Definition tree_ok (s : Sprite) : Prop :=
  sprite_type s = tree
  /\ exists o, sprite_offset s = Num o
               /\ ((1.5 <= o /\ o < 2.5) \/ (-2.5 < o /\ o <= -1.5)).

(** A car as [resetRoad] spawns it in segment [i]. *)
Definition car_spawned (i : nat) (c : Car) : Prop :=
  car_z c = (ofNat i * SEGMENT_LENGTH)%num
  /\ car_offset c ∈ lanes
  /\ (exists k : Z, car_speed c = Num (inject_Z k) /\ (3000 <= k <= 8000)%Z)
  /\ car_percent c = Num 0 /\ justPassed c = false.

(** Segment [i] as [resetRoad] leaves it: the geometry of [new_segment i],
    at most one tree (every 20th segment), at most one car (every 40th
    segment from 40 on). *)
Definition segment_laid (g : Game) (i : nat) (sg : Segment) : Prop :=
  set_cars [] (set_sprites [] sg) = new_segment i
  /\ (sprites sg = []
      \/ (i mod 20 = 0%nat /\ exists s, sprites sg = [s] /\ tree_ok s))
  /\ (cars sg = []
      \/ ((20 < i)%nat /\ i mod 40 = 0%nat
          /\ exists r c, cars sg = [r] /\ carObjs g !! r = Some c
                         /\ car_spawned i c)).

(** The track [resetRoad] has built, [n] segments in. *)
Definition Layout (n : nat) (g : Game) : Prop :=
  length (segments g) = n
  /\ (forall i sg, segments g !! i = Some sg -> segment_laid g i sg)
  /\ (forall r, (r < length (carObjs g))%nat ->
                exists i sg, segments g !! i = Some sg /\ cars sg = [r])
  /\ (length (carObjs g) = 0%nat \/ (40 * length (carObjs g) + 1 <= n)%nat).

(** A car on the track: a depth within the closed interval
    [0, trackLength] and a speed as [resetRoad] draws it. *)
Definition car_ranged (c : Car) : Prop :=
  exists z v, car_z c = Num z /\ car_speed c = Num v
              /\ 0 <= z /\ z <= 400000 /\ 0 <= v /\ v <= 8000.

(** Every sprite of the track is a tree beside the road. *)
Definition scenery_ok (g : Game) : Prop :=
  forall i sg, segments g !! i = Some sg -> Forall tree_ok (sprites sg).

(** [g'] differs from [g] in the track and the car store only. *)
Definition keeps_player (g g' : Game) : Prop :=
  g' = set_carObjs (carObjs g') (set_segments (segments g') g).

(** What [render] leaves of a segment: everything but the scratch fields
    it writes ([camera] and [screen] of both points, [looped], [clipY]). *)
Definition same_track (sg sg' : Segment) : Prop :=
  index sg' = index sg /\ world (p1 sg') = world (p1 sg)
  /\ world (p2 sg') = world (p2 sg) /\ color sg' = color sg
  /\ curve sg' = curve sg /\ cars sg' = cars sg /\ sprites sg' = sprites sg.

(** ** Input: [InputSystem]

    The keyboard map [keys] is the object the [keydown] and [keyup]
    listeners write ([this.keys[e.code] = true / false]); a code that was
    never written reads as [undefined], which is falsy.  The fields
    [steerSpeed], [steerReturn], [waveThreshold], [waveTimeWindow] and
    [waveCooldown] are set by the constructor and never written again. *)

Record Gesture := mkGesture {
  tilt : num;
  throttle : num;
  gesture_brake : num;
  active : bool
}.

Record WavePoint := mkWavePoint { wave_x : num; wave_time : num }.

Record InputSystem := mkInputSystem {
  keys : gmap string bool;
  gesture : Gesture;
  keyboardSteer : num;
  waveHistory : list WavePoint;
  lastWaveTime : num
}.

Definition steerSpeed : num := Num 0.25.
Definition steerReturn : num := Num 0.2.
Definition waveThreshold : nat := 3.
Definition waveTimeWindow : num := Num 1500.
Definition waveCooldown : num := Num 1000.

(** The constructor of [InputSystem]. *)
Definition newInput : InputSystem :=
  mkInputSystem ∅ (mkGesture (Num 0) (Num 0) (Num 0) false) (Num 0) [] (Num 0).

Definition set_keys (v : gmap string bool) (s : InputSystem) : InputSystem :=
  mkInputSystem v (gesture s) (keyboardSteer s) (waveHistory s) (lastWaveTime s).
Definition set_gesture (v : Gesture) (s : InputSystem) : InputSystem :=
  mkInputSystem (keys s) v (keyboardSteer s) (waveHistory s) (lastWaveTime s).
Definition set_keyboardSteer (v : num) (s : InputSystem) : InputSystem :=
  mkInputSystem (keys s) (gesture s) v (waveHistory s) (lastWaveTime s).
Definition set_waveHistory (v : list WavePoint) (s : InputSystem) : InputSystem :=
  mkInputSystem (keys s) (gesture s) (keyboardSteer s) v (lastWaveTime s).
Definition set_lastWaveTime (v : num) (s : InputSystem) : InputSystem :=
  mkInputSystem (keys s) (gesture s) (keyboardSteer s) (waveHistory s) v.

(** [this.keys[code]] as a condition. *)
Definition pressed (s : InputSystem) (code : string) : bool :=
  default false (keys s !! code).

(** The [keydown] and [keyup] listeners. *)
Definition keydown (code : string) (s : InputSystem) : InputSystem :=
  set_keys (<[code := true]> (keys s)) s.
Definition keyup (code : string) (s : InputSystem) : InputSystem :=
  set_keys (<[code := false]> (keys s)) s.

(** [onHandsResults] when the tracker reports no hand. *)
Definition onHandsResults_noHand (s : InputSystem) : InputSystem :=
  set_gesture (mkGesture (tilt (gesture s) * Num 0.9)%num (Num 0) (Num 0) false) s.

(** [getCommand()]: the command, and the input system with the smoothed
    keyboard steering it has written back. *)
Definition getCommand (s : InputSystem) : Command * InputSystem :=
  if active (gesture s) then
    (mkCommand (tilt (gesture s)) (throttle (gesture s)) (gesture_brake (gesture s)),
     s)
  else
    let targetSteer := Num 0 in
    let targetSteer :=
      if pressed s "ArrowLeft" || pressed s "KeyA" then Num 1 else targetSteer in
    let targetSteer :=
      if pressed s "ArrowRight" || pressed s "KeyD" then Num (-1)
      else targetSteer in
    let keyboardSteer :=
      if negb (same targetSteer (Num 0)) then
        (keyboardSteer s + (targetSteer - keyboardSteer s) * steerSpeed)%num
      else
        let k := (keyboardSteer s * (Num 1 - steerReturn))%num in
        if (nabs k <? Num 0.01)%num then Num 0 else k in
    let accel := if pressed s "ArrowUp" || pressed s "KeyW" then Num 1 else Num 0 in
    let brake :=
      if pressed s "ArrowDown" || pressed s "KeyS" then Num 1 else Num 0 in
    (mkCommand keyboardSteer accel brake, set_keyboardSteer keyboardSteer s).

(** What reaches the input system between two polls, short of a tracked
    hand. *)
Inductive InputEvent :=
  | KeyDown (code : string)
  | KeyUp (code : string)
  | NoHand.

Definition apply_event (s : InputSystem) (e : InputEvent) : InputSystem :=
  match e with
  | KeyDown code => keydown code s
  | KeyUp code => keyup code s
  | NoHand => onHandsResults_noHand s
  end.

(** The commands polled over a session: before each poll, the events that
    arrived since the last one. *)
Fixpoint poll_run (batches : list (list InputEvent)) (s : InputSystem)
  : list Command :=
  match batches with
  | [] => []
  | evs :: batches =>
      let '(cmd, s) := getCommand (foldl apply_event s evs) in
      cmd :: poll_run batches s
  end.

(** [n] polls in a row. *)
Definition polls (n : nat) (s : InputSystem) : InputSystem :=
  Nat.iter n (fun s => snd (getCommand s)) s.

(** A command in the documented ranges. *)
Definition command_in_range (c : Command) : Prop :=
  (exists k, steer c = Num k /\ -1 <= k /\ k <= 1)
  /\ (accel c = Num 0 \/ accel c = Num 1)
  /\ (brake c = Num 0 \/ brake c = Num 1).

(** Keyboard mode: no tracked hand, and a smoothed steering within
    [-1, 1]. *)
Definition keyboard_mode (s : InputSystem) : Prop :=
  active (gesture s) = false
  /\ exists k, keyboardSteer s = Num k /\ -1 <= k /\ k <= 1.

(** (4/5)^j, the bound on the steering [j] polls after the keys were
    released. *)
Fixpoint decay (j : nat) : Q :=
  match j with
  | O => 1
  | S j => decay j * (4 # 5)
  end.

(** ** The frame loop: [start], [step], [restart]

    The game owns its input system; [lastTime] is the timestamp of the
    previous frame. *)

Record Loop := mkLoop { game : Game; input : InputSystem; lastTime : num }.

Definition set_isPlaying (v : bool) (g : Game) : Game :=
  mkGame (width g) (height g) (position g) (playerX g) (speed g) (score g)
         (distanceRun g) (segments g) (carObjs g) v (isGameOver g)
         (highScore g) (storedHighScore g).

(** The constructor, at time [now]. *)
Definition newLoop (w h stored : num) (rnd : nat -> Q) (now : num)
  : option Loop :=
  g ← newGame w h stored rnd;
  Some (mkLoop g newInput now).

(** [start()], at time [now]. *)
Definition start (now : num) (L : Loop) : Loop :=
  mkLoop (set_isPlaying true (game L)) (input L) now.

(** [step(now)]: one frame.  [update] samples the command itself, after its
    game-over test: when the game is over the input system is not polled. *)
Definition step (now : num) (L : Loop) : option Loop :=
  if negb (isPlaying (game L)) then Some L else
  let dt := nmin (Num 1) ((now - lastTime L) / Num 1000)%num in
  let '(cmd, inp) :=
    if isGameOver (game L) then (mkCommand (Num 0) (Num 0) (Num 0), input L)
    else getCommand (input L) in
  g ← update dt cmd (game L);
  rp ← render g;
  Some (mkLoop (rp_game rp) inp now).

(** [restart()], at time [now]. *)
Definition restart_loop (rnd : nat -> Q) (now : num) (L : Loop) : option Loop :=
  g ← restart rnd (game L);
  Some (mkLoop g (input L) now).

(** A session: before each frame, the input events that arrived since the
    last one, then [step] with the frame's timestamp. *)
Fixpoint run_frames (frames : list (list InputEvent * Q)) (L : Loop)
  : option Loop :=
  match frames with
  | [] => Some L
  | (evs, now) :: frames =>
      L ← step (Num now)
             (mkLoop (game L) (foldl apply_event (input L) evs) (lastTime L));
      run_frames frames L
  end.

(** Timestamps that strictly increase, starting after [t]. *)
Fixpoint increasing (t : Q) (frames : list (list InputEvent * Q)) : Prop :=
  match frames with
  | [] => True
  | (_, now) :: frames => t < now /\ increasing now frames
  end.

(** The timestamp of the last frame. *)
Definition last_time (t : Q) (frames : list (list InputEvent * Q)) : Q :=
  default t (last (map snd frames)).

(** The part of [loop_ok] that concerns the game. *)
Definition game_ok (g : Game) : Prop :=
  Inv g /\ curves_are_numbers g = true
  /\ (exists x, playerX g = Num x /\ -2 <= x /\ x <= 2)
  /\ (exists v, speed g = Num v /\ -10000 < v /\ v <= 12000)
  /\ isPlaying g = true.

(** What holds between two frames of a game played from the keyboard. *)
Definition loop_ok (L : Loop) : Prop :=
  game_ok (game L) /\ keyboard_mode (input L).

(** ** The wave gesture: [detectWaveGesture] *)

(** The loop over consecutive samples: [prev] is the previous sample's [x],
    [lastDirection] is [None] for [null], [Some true] for ['right'] and
    [Some false] for ['left']. *)
Fixpoint wave_scan (prev : num) (l : list WavePoint) (directionChanges : nat)
    (lastDirection : option bool) : nat :=
  match l with
  | [] => directionChanges
  | p :: l =>
      let dx := (wave_x p - prev)%num in
      if (nabs dx >? Num 0.02)%num then
        let direction := (dx >? Num 0)%num in
        let directionChanges :=
          match lastDirection with
          | Some d => if Bool.eqb direction d then directionChanges
                      else S directionChanges
          | None => directionChanges
          end in
        wave_scan (wave_x p) l directionChanges (Some direction)
      else wave_scan (wave_x p) l directionChanges lastDirection
  end.

Definition directionChanges (h : list WavePoint) : nat :=
  match h with
  | [] => 0
  | p :: l => wave_scan (wave_x p) l 0 None
  end.

(** [detectWaveGesture(landmarks)] with the wrist at [x] and [Date.now()]
    equal to [now]: the input system afterwards, and whether the callback
    [onWaveDetected] was due. *)
Definition detectWaveGesture (x now : num) (s : InputSystem)
  : InputSystem * bool :=
  let h := waveHistory s ++ [mkWavePoint x now] in
  let h := List.filter (fun p => (now - wave_time p <? waveTimeWindow)%num) h in
  if (length h <? 4)%nat then (set_waveHistory h s, false)
  else if (waveThreshold <=? directionChanges h)%nat
          && (now - lastWaveTime s >? waveCooldown)%num
  then (set_waveHistory [] (set_lastWaveTime now s), true)
  else (set_waveHistory h s, false).

(** The times at which a wave is detected over a sequence of samples
    (wrist position, clock). *)
Fixpoint wave_run (samples : list (num * num)) (s : InputSystem) : list num :=
  match samples with
  | [] => []
  | (x, now) :: samples =>
      let '(s, fired) := detectWaveGesture x now s in
      if fired then now :: wave_run samples s else wave_run samples s
  end.

(** Each detection comes more than the cooldown after the one before;
    [t] is the time of the last detection so far. *)
Fixpoint spaced (t : num) (times : list num) : Prop :=
  match times with
  | [] => True
  | t' :: times => (t' - t >? waveCooldown)%num = true /\ spaced t' times
  end.

(** ** Audio: the targets [AudioController.update] sets

    [None] stands for the early return of a controller that is not
    initialised: nothing is set. *)

Record AudioTargets := mkAudioTargets {
  engineFrequency : num;
  filterFrequency : num;
  engineVolume : num;
  windVolume : num
}.

Definition audio_update (initialized : bool) (speedRatio : num)
  : option AudioTargets :=
  if negb initialized then None else
  let r := nmax (Num 0) (nmin (Num 1) speedRatio) in
  let targetFreq := (Num 80 + r * Num 220)%num in
  let engVol := (Num 0.1 + r * Num 0.2)%num in
  let windVol :=
    if (r >? Num 0.5)%num then ((r - Num 0.5) * Num 2 * Num 0.3)%num
    else Num 0 in
  Some (mkAudioTargets targetFreq (Num 400 + r * Num 1000)%num engVol windVol).

(** ** The sprite pass of [render]

    The second loop of [render], from the far end of the window to the
    segment after the base segment: the calls of [renderCar] and
    [renderSprite] it makes, in order.  It reads the screen points that the
    road pass has written. *)

Inductive Draw :=
  | DrawCar (spriteX spriteY spriteScale : num) (car : ref)
  | DrawSprite (spriteX spriteY spriteScale : num) (type : SpriteType).

Definition sprite_pass_car (g : Game) (segment : Segment) (draws : list Draw)
    (r : ref) : option (list Draw) :=
  car ← carObjs g !! r;
  let spriteScale := screen_w (screen (p1 segment)) in
  if (spriteScale >? Num 5)%num then
    let spriteX :=
      (screen_x (screen (p1 segment))
       + screen_w (screen (p1 segment)) * car_offset car)%num in
    let spriteY := screen_y (screen (p1 segment)) in
    Some (draws ++ [DrawCar spriteX spriteY spriteScale r])
  else Some draws.

Definition sprite_pass_sprite (segment : Segment) (draws : list Draw)
    (sprite : Sprite) : list Draw :=
  let spriteScale := screen_w (screen (p1 segment)) in
  if (spriteScale >? Num 5)%num then
    let spriteX :=
      (screen_x (screen (p1 segment))
       + screen_w (screen (p1 segment)) * sprite_offset sprite)%num in
    let spriteY := screen_y (screen (p1 segment)) in
    draws ++ [DrawSprite spriteX spriteY spriteScale (sprite_type sprite)]
  else draws.

Definition sprite_pass_iter (g : Game) (baseSegment : Segment)
    (draws : list Draw) (n : nat) : option (list Draw) :=
  segment ←
    at_index (segments g)
             (zrem (Some (Z.of_nat (index baseSegment) + Z.of_nat n)%Z)
                   (length (segments g)));
  draws ← foldM (sprite_pass_car g segment) draws (cars segment);
  Some (foldl (sprite_pass_sprite segment) draws (sprites segment)).

Definition sprite_pass (g : Game) (baseSegment : Segment) : option (list Draw) :=
  foldM (sprite_pass_iter g baseSegment) [] (reverse (seq 1 (DRAW_DISTANCE - 1))).

(** [render], both loops: the calls of [renderCar] and [renderSprite] of
    one frame. *)
Definition render_sprites (g : Game) : option (list Draw) :=
  baseSegment ← findSegment g (position g);
  rp ← render g;
  sprite_pass (rp_game rp) baseSegment.

(** The cars drawn, in order. *)
Definition drawn_cars (draws : list Draw) : list ref :=
  omap (fun d => match d with DrawCar _ _ _ r => Some r | _ => None end) draws.

(** ** Commands with a steering input of moderate size

    A [steer] that is a number of absolute value at most a million: the
    products of [update] that it enters stay far from the largest double of
    the source. *)
Definition steer_bounded (cmd : Command) : bool :=
  (nabs (steer cmd) <=? Num 1000000)%num.

(** ** The road pass, seen from the game

    The camera-space depth of the near edge of the track segment [sg0] in a
    frame whose window starts at [base]: its world depth less the camera's,
    the camera being at the player's position, one lap back for a segment
    that the window reaches past the end of the track. *)
Definition near_depth (g : Game) (base sg0 : Segment) : num :=
  (orZero (world_z (world (p1 sg0)))
   - (position g
      - (if (index sg0 <? index base)%nat
         then ofNat (length (segments g)) * SEGMENT_LENGTH else Num 0)))%num.

(** A segment handed to [renderSegment] is made of a segment of the window
    of the track, and the depth of its near edge, as [project] has just
    written it, is that segment's, beyond the near plane; its scale is the
    quotient [project] takes in front of the camera. *)
Definition drawn_in_front (g : Game) (base sg : Segment) : Prop :=
  exists n sg0,
    (n < DRAW_DISTANCE)%nat
    /\ segments g !! ((index base + n) mod length (segments g))%nat = Some sg0
    /\ index sg = index sg0 /\ world (p1 sg) = world (p1 sg0)
    /\ camera_z (camera (p1 sg)) = near_depth g base sg0
    /\ (CAMERA_DEPTH <? camera_z (camera (p1 sg)))%num = true
    /\ screen_scale (screen (p1 sg))
       = (CAMERA_DEPTH / camera_z (camera (p1 sg)))%num.

(** ** Scenes: the states one step is studied on

    A scene is a well-formed game that is not over, in which no car object
    is held twice by the segments, the high score is a number, every car
    lies within the track at a speed of at most [MAX_SPEED], and every curve
    is of moderate size (the sizes keep the doubles of the source finite).
    The games [resetRoad] builds and the steps leave are scenes until they
    are over; so are the hand-made scenarios below. *)

Fixpoint nodupb (l : list nat) : bool :=
  match l with
  | [] => true
  | x :: l => negb (existsb (Nat.eqb x) l) && nodupb l
  end.

Definition car_bounded (c : Car) : bool :=
  (car_z c <=? Num 400000)%num && (car_speed c <=? Num 12000)%num.

Definition curve_bounded (sg : Segment) : bool :=
  (nabs (curve sg) <=? Num 1000)%num.

Definition scene_ok (g : Game) : bool :=
  track_wf g && player_wf g && negb (isGameOver g)
  && nodupb (visits g).*2
  && is_num (highScore g)
  && forallb car_bounded (carObjs g)
  && forallb curve_bounded (segments g).

(** ** What a step leaves of the score and the high score

    [h] is a later state of a step that started in [g] with score [s0] and
    high score [hs0].  The score has not gone down.  Either the high score
    and its stored copy are untouched, and then [crash] was only called if
    the score at the start was not above the best; or the high score is
    the floor of a score [sk] the player had during the step, above the old
    best, and it has been stored. *)
Definition score_kept (s0 hs0 : Q) (g h : Game) : Prop :=
  exists sc, score h = Num sc /\ s0 <= sc /\
    ((highScore h = highScore g /\ storedHighScore h = storedHighScore g
      /\ (isGameOver h = true -> s0 <= hs0))
     \/ (exists sk, hs0 < sk /\ s0 <= sk /\ sk <= sc
                    /\ highScore h = Num (inject_Z (Qfloor sk))
                    /\ storedHighScore h = highScore h)).

(** The game [h] after the loop of [updateTraffic] has visited the cars
    [done] of the game [g]: the player has not moved; a visited car is what
    [car_after] makes of it, the others are untouched; the bonus of a car
    that fired is in the score, and without one the score is untouched;
    the game is over once a visited car collided, and then the speed is
    0. *)
Definition traffic_after (dt pz tl : num) (g : Game) (s0 hs0 : Q)
    (done : list ref) (h : Game) : Prop :=
  playerX h = playerX g /\ position h = position g
  /\ segments h = segments g
  /\ (forall r c, r ∈ done -> carObjs g !! r = Some c ->
        carObjs h !! r = Some (car_after dt pz tl g c))
  /\ (forall r, r ∉ done -> carObjs h !! r = carObjs g !! r)
  /\ score_kept s0 hs0 g h
  /\ (forall r c, r ∈ done -> carObjs g !! r = Some c ->
        closeCall_fires dt pz tl g c = true ->
        exists sc, score h = Num sc /\ s0 + 500 <= sc)
  /\ ((forall r c, r ∈ done -> carObjs g !! r = Some c ->
         closeCall_fires dt pz tl g c = false) -> score h = score g)
  /\ (forall r c, r ∈ done -> carObjs g !! r = Some c ->
        collides dt pz tl g c = true -> isGameOver h = true)
  /\ (isGameOver h = true -> speed h = Num 0)
  /\ (isGameOver h = false -> speed h = speed g).

(** ** A car seen from the player, in a state

    The relative depth of a car, the short way round the track, and its
    lateral separation from the player, as [updateTraffic] takes them;
    read on the state a step returns they are the values the loop compared,
    since nothing moves after the loop. *)
Definition relative_depth (g : Game) (c : Car) : num :=
  shortest (car_z c - (position g + CAMERA_HEIGHT))%num (trackLength g).

Definition lateral_separation (g : Game) (c : Car) : num :=
  nabs (playerX g - car_offset c)%num.

(** A car clearly outside the window behind the player or clearly outside
    the close-call band, by a thousandth. *)
Definition clear_of_close_call (g : Game) (c : Car) : bool :=
  (Num (-99.999) <=? relative_depth g c)%num
  || (relative_depth g c <=? Num (-300.001))%num
  || (lateral_separation g c <=? Num 0.349)%num
  || (Num 0.801 <=? lateral_separation g c)%num.

(** ** Two more scenarios *)

(** Player in the right lane, 190 behind a faster car of that lane. *)
Definition pulling_away : Game :=
  with_cars (Num 0.65)
            [mkCar (Num 0.65) (Num 1190) (Num 8000) (Num 0) car false].

(** Player half a lane left of a car of the right lane, which a step of a
    sixtieth of a second leaves about 250 behind. *)
Definition overtaken : Game := set_position (Num 250) overtaking.

(** A game under way: from the fresh game the player moves into the right
    lane while accelerating for a second, then holds full throttle for two
    more; the first car of that lane, which drives at 8000, is then 1000
    ahead of the player, who closes in at 12000. *)
Definition closing_in : Game :=
  default blank
    (run [(Num 1, mkCommand (Num (-0.65)) (Num 1) (Num 0));
          (Num 1, full_throttle); (Num 1, full_throttle)]
         fresh).


(** * Properties *)

(** ** Numbers *)

(** The operations on numbers and the helpers of the step stay folded under
    [simpl]; the lemmas below open them where needed. *)
Arguments nadd : simpl never.
Arguments nsub : simpl never.
Arguments nmul : simpl never.
Arguments ndiv : simpl never.
Arguments nneg : simpl never.
Arguments nlt : simpl never.
Arguments nle : simpl never.
Arguments ngt : simpl never.
Arguments nge : simpl never.
Arguments nmax : simpl never.
Arguments nmin : simpl never.
Arguments nabs : simpl never.
Arguments nfloor : simpl never.
Arguments nround : simpl never.
Arguments floorZ : simpl never.
Arguments zrem : simpl never.
Arguments at_index : simpl never.
Arguments ofNat : simpl never.
Arguments overlap : simpl never.
Arguments shortest : simpl never.
Arguments advance_z : simpl never.
Arguments crash : simpl never.
Arguments index_differs : simpl never.
Arguments visit_step : simpl never.
Arguments updateTraffic_car : simpl never.
Arguments moveCar : simpl never.
Arguments game_after : simpl never.
Arguments car_after : simpl never.
Arguments move_of : simpl never.
Arguments owner_index : simpl never.
Arguments trackLength : simpl never.

Lemma Qlt_bool_iff (x y : Q) : Qlt_bool x y = true <-> x < y.
Proof.
  unfold Qlt_bool. rewrite negb_true_iff.
  destruct (Qle_bool y x) eqn:E.
  - apply Qle_bool_iff in E. split; [discriminate | intros; lra].
  - split; [intros _ | reflexivity].
    destruct (Qlt_le_dec x y) as [L | L]; [exact L |].
    apply Qle_bool_iff in L. congruence.
Qed.

Lemma Qlt_bool_false (x y : Q) : Qlt_bool x y = false <-> y <= x.
Proof.
  unfold Qlt_bool. rewrite negb_false_iff. apply Qle_bool_iff.
Qed.

Lemma Qle_bool_false (x y : Q) : Qle_bool x y = false <-> y < x.
Proof.
  rewrite <- Qlt_bool_iff. unfold Qlt_bool.
  destruct (Qle_bool x y); simpl; split; congruence.
Qed.

Lemma nlt_true (a b : num) :
  (a <? b)%num = true <-> exists x y, a = Num x /\ b = Num y /\ x < y.
Proof.
  destruct a as [x|], b as [y|]; unfold nlt; split;
    try discriminate; try (intros (? & ? & ? & ? & ?); discriminate).
  - intros H. exists x, y. rewrite Qlt_bool_iff in H. auto.
  - intros (x' & y' & [= ->] & [= ->] & H). now apply Qlt_bool_iff.
Qed.

Lemma nle_true (a b : num) :
  (a <=? b)%num = true <-> exists x y, a = Num x /\ b = Num y /\ x <= y.
Proof.
  destruct a as [x|], b as [y|]; unfold nle; split;
    try discriminate; try (intros (? & ? & ? & ? & ?); discriminate).
  - intros H. exists x, y. rewrite Qle_bool_iff in H. auto.
  - intros (x' & y' & [= ->] & [= ->] & H). now apply Qle_bool_iff.
Qed.

Lemma nlt_Num (x y : Q) : (Num x <? Num y)%num = true <-> x < y.
Proof. apply Qlt_bool_iff. Qed.
Lemma nle_Num (x y : Q) : (Num x <=? Num y)%num = true <-> x <= y.
Proof. apply Qle_bool_iff. Qed.
Lemma ngt_Num (x y : Q) : (Num x >? Num y)%num = true <-> y < x.
Proof. apply Qlt_bool_iff. Qed.
Lemma nge_Num (x y : Q) : (Num x >=? Num y)%num = true <-> y <= x.
Proof. apply Qle_bool_iff. Qed.
Lemma nlt_Num_false (x y : Q) : (Num x <? Num y)%num = false <-> y <= x.
Proof. apply Qlt_bool_false. Qed.
Lemma nle_Num_false (x y : Q) : (Num x <=? Num y)%num = false <-> y < x.
Proof. apply Qle_bool_false. Qed.
Lemma ngt_Num_false (x y : Q) : (Num x >? Num y)%num = false <-> x <= y.
Proof. apply Qlt_bool_false. Qed.
Lemma nge_Num_false (x y : Q) : (Num x >=? Num y)%num = false <-> x < y.
Proof. apply Qle_bool_false. Qed.

Lemma same_Num (x y : Q) : same (Num x) (Num y) = true <-> x == y.
Proof. apply Qeq_bool_iff. Qed.

Lemma same_true (a b : num) :
  same a b = true <-> exists x y, a = Num x /\ b = Num y /\ x == y.
Proof.
  destruct a as [x|], b as [y|]; simpl; split;
    try discriminate; try (intros (? & ? & ? & ? & ?); discriminate).
  - intros H. exists x, y. apply Qeq_bool_iff in H. auto.
  - intros (x' & y' & [= ->] & [= ->] & H). now apply Qeq_bool_iff.
Qed.

(** Turns the boolean tests on numerals in the context and the goal into
    order facts on rationals. *)
Ltac qbool :=
  repeat match goal with
  | H : (Num _ <? Num _)%num = true |- _ => apply nlt_Num in H
  | H : (Num _ <=? Num _)%num = true |- _ => apply nle_Num in H
  | H : (Num _ >? Num _)%num = true |- _ => apply ngt_Num in H
  | H : (Num _ >=? Num _)%num = true |- _ => apply nge_Num in H
  | H : (Num _ <? Num _)%num = false |- _ => apply nlt_Num_false in H
  | H : (Num _ <=? Num _)%num = false |- _ => apply nle_Num_false in H
  | H : (Num _ >? Num _)%num = false |- _ => apply ngt_Num_false in H
  | H : (Num _ >=? Num _)%num = false |- _ => apply nge_Num_false in H
  | H : same (Num _) (Num _) = true |- _ => apply same_Num in H
  | H : Qle_bool _ _ = true |- _ => apply Qle_bool_iff in H
  | H : Qle_bool _ _ = false |- _ => apply Qle_bool_false in H
  | H : Qlt_bool _ _ = true |- _ => apply Qlt_bool_iff in H
  | H : Qlt_bool _ _ = false |- _ => apply Qlt_bool_false in H
  | |- (Num _ <? Num _)%num = true => apply nlt_Num
  | |- (Num _ <=? Num _)%num = true => apply nle_Num
  | |- (Num _ >? Num _)%num = true => apply ngt_Num
  | |- (Num _ >=? Num _)%num = true => apply nge_Num
  | |- (Num _ <? Num _)%num = false => apply nlt_Num_false
  | |- (Num _ <=? Num _)%num = false => apply nle_Num_false
  | |- (Num _ >? Num _)%num = false => apply ngt_Num_false
  | |- (Num _ >=? Num _)%num = false => apply nge_Num_false
  | |- same (Num _) (Num _) = true => apply same_Num
  end.

(** Arithmetic results are in lowest terms; for order facts that makes no
    difference. *)
Ltac unred :=
  repeat match goal with
  | H : context [Qred _] |- _ => rewrite Qred_correct in H
  | |- context [Qred _] => rewrite Qred_correct
  end.

Lemma Qfloor_Qred (q : Q) : Qfloor (Qred q) = Qfloor q.
Proof. apply Qfloor_comp, Qred_correct. Qed.

Lemma returns_default {A} (o : option A) (d : A) :
  returns o = true -> o = Some (default d o).
Proof. destruct o; [reflexivity | discriminate]. Qed.

(** Closes a conjunction of closed facts by evaluation, one at a time. *)
Ltac evaluate :=
  lazymatch goal with
  | |- _ /\ _ => split; [vm_compute; reflexivity | evaluate]
  | _ => vm_compute; reflexivity
  end.

(** ** Loops *)

Lemma foldM_app {A B} (f : B -> A -> option B) (b : B) (l1 l2 : list A) :
  foldM f b (l1 ++ l2) = foldM f b l1 ≫= fun b' => foldM f b' l2.
Proof.
  revert b. induction l1 as [|x l1 IH]; intros b; simpl; [reflexivity|].
  destruct (f b x) as [b'|]; simpl; [apply IH | reflexivity].
Qed.

(** A loop invariant indexed by the elements already visited. *)
Lemma foldM_invariant {A B} (f : B -> A -> option B) (P : list A -> B -> Prop)
    (l : list A) :
  forall pre b,
    P pre b ->
    (forall done x rest b,
        pre ++ l = done ++ x :: rest -> P done b ->
        exists b', f b x = Some b' /\ P (done ++ [x]) b') ->
    exists b', foldM f b l = Some b' /\ P (pre ++ l) b'.
Proof.
  induction l as [|x l IH]; intros pre b HP Hstep; simpl.
  - exists b. rewrite app_nil_r. auto.
  - destruct (Hstep pre x l b eq_refl HP) as (b1 & -> & HP1). simpl.
    destruct (IH (pre ++ [x]) b1 HP1) as (b2 & E & HP2).
    + intros done y rest b' Hsplit. apply (Hstep done y rest b').
      rewrite <- Hsplit, <- app_assoc. reflexivity.
    + exists b2. rewrite <- app_assoc in HP2. auto.
Qed.

(** A property every iteration keeps, whether or not the loop completes. *)
Lemma foldM_preserves {A B} (f : B -> A -> option B) (P : B -> Prop)
    (l : list A) :
  (forall b x b', x ∈ l -> P b -> f b x = Some b' -> P b') ->
  forall b b', P b -> foldM f b l = Some b' -> P b'.
Proof.
  induction l as [|x l IH]; intros Hstep b b' HP; simpl.
  - intros [= <-]. exact HP.
  - destruct (f b x) as [b1|] eqn:E; simpl; [|discriminate].
    apply IH.
    + intros b0 y b0' Hy. apply Hstep. now right.
    + eapply Hstep; eauto. left.
Qed.

(** ** [crash], [triggerCloseCall] and one car of [updateTraffic] *)

Lemma crash_fields (g : Game) :
  speed (crash g) = Num 0 /\ isGameOver (crash g) = true /\
  position (crash g) = position g /\ playerX (crash g) = playerX g /\
  score (crash g) = score g /\ segments (crash g) = segments g /\
  carObjs (crash g) = carObjs g /\ width (crash g) = width g /\
  height (crash g) = height g /\ distanceRun (crash g) = distanceRun g.
Proof.
  unfold crash. simpl. destruct (score g >? highScore g)%num; simpl; tauto.
Qed.

Lemma crash_highScore (g : Game) :
  highScore (crash g)
  = (if (score g >? highScore g)%num then nfloor (score g) else highScore g)
  /\ storedHighScore (crash g)
  = (if (score g >? highScore g)%num then nfloor (score g)
     else storedHighScore g).
Proof.
  unfold crash. simpl. destruct (score g >? highScore g)%num; simpl; tauto.
Qed.

Lemma player_frame_refl (g : Game) : player_frame g g.
Proof. unfold player_frame. tauto. Qed.

Lemma player_frame_trans (g1 g2 g3 : Game) :
  player_frame g1 g2 -> player_frame g2 g3 -> player_frame g1 g3.
Proof.
  unfold player_frame.
  intros (P1 & X1 & W1 & H1 & D1 & S1) (P2 & X2 & W2 & H2 & D2 & S2).
  repeat split; try congruence.
  destruct S1 as [[? ?]|[? ?]], S2 as [[? ?]|[? ?]]; [left|right..];
    split; congruence.
Qed.

Lemma player_frame_crash (g : Game) : player_frame g (crash g).
Proof.
  destruct (crash_fields g) as (? & ? & ? & ? & ? & ? & ? & ? & ? & ?).
  unfold player_frame. tauto.
Qed.

Lemma game_after_frame dt pz tl g c :
  player_frame g (game_after dt pz tl g c)
  /\ segments (game_after dt pz tl g c) = segments g
  /\ carObjs (game_after dt pz tl g c) = carObjs g.
Proof.
  unfold game_after.
  destruct (closeCall_fires dt pz tl g c), (collides dt pz tl g c);
    repeat split;
    try (eapply player_frame_trans; [|apply player_frame_crash]);
    try apply player_frame_refl;
    try (unfold player_frame; simpl; tauto);
    try (rewrite (proj1 (proj2 (proj2 (proj2 (proj2 (proj2 (crash_fields _))))))));
    try (rewrite (proj1 (proj2 (proj2 (proj2 (proj2 (proj2 (proj2 (crash_fields _)))))))));
    reflexivity.
Qed.

(** The loop body is the composition of the pieces above. *)
Lemma updateTraffic_car_eq dt pz tl i g moves r c :
  carObjs g !! r = Some c ->
  updateTraffic_car dt pz tl i (g, moves) r
  = Some (set_carObjs (<[r := car_after dt pz tl g c]> (carObjs g))
                      (game_after dt pz tl g c),
          moves ++ move_of dt tl g i r c).
Proof.
  intros Hc. unfold updateTraffic_car. rewrite Hc. simpl.
  unfold car_after, game_after, move_of, closeCall_fires, collides, car_dist,
    owner_index.
  cbn [car_z set_car_z car_offset justPassed car_speed].
  set (z := advance_z dt tl c).
  set (k := zrem (floorZ (z / SEGMENT_LENGTH)%num) (length (segments g))).
  set (d := shortest (z - pz)%num tl).
  destruct (index_differs i k);
    destruct (d <? Num (-100))%num, (d >? Num (-300))%num,
      (justPassed c); simpl;
    try destruct (nabs (playerX g - car_offset c) <? Num 0.8)%num;
    try destruct (nabs (playerX g - car_offset c) >? Num 0.35)%num;
    simpl;
    destruct (nabs d >? Num 1000)%num, (nabs d <? Num 200)%num;
    simpl;
    try destruct (overlap (playerX g) (Num 0.15) (car_offset c) (Num 0.45));
    rewrite ?app_nil_r;
    repeat match goal with
    | |- context [carObjs (crash ?h)] =>
        rewrite (proj1 (proj2 (proj2 (proj2 (proj2 (proj2 (proj2 (crash_fields h))))))))
    end;
    reflexivity.
Qed.

(** ** [update] in three parts *)

Lemma update_parts (dt : num) (cmd : Command) (g : Game) :
  update dt cmd g
  = if isGameOver g then Some g
    else g1 ← move_player dt cmd g;
         g2 ← updateTraffic dt g1;
         checkSpriteCollisions g2.
Proof.
  unfold update, move_player.
  destruct (isGameOver g); [reflexivity|].
  destruct (findSegment g _) as [sg|]; reflexivity.
Qed.

(** ** The loops of [updateTraffic] *)

Lemma visit_step_eq dt pz tl g moves i r c :
  carObjs g !! r = Some c ->
  visit_step dt pz tl (g, moves) (i, r)
  = Some (set_carObjs (<[r := car_after dt pz tl g c]> (carObjs g))
                      (game_after dt pz tl g c),
          moves ++ move_of dt tl g i r c).
Proof. apply updateTraffic_car_eq. Qed.

Lemma visit_step_inv dt pz tl st v st' :
  visit_step dt pz tl st v = Some st' ->
  exists c, carObjs (fst st) !! snd v = Some c /\
    st' = (set_carObjs (<[snd v := car_after dt pz tl (fst st) c]> (carObjs (fst st)))
                       (game_after dt pz tl (fst st) c),
           snd st ++ move_of dt tl (fst st) (fst v) (snd v) c).
Proof.
  destruct st as [g moves], v as [i r]. cbn [fst snd].
  destruct (carObjs g !! r) as [c|] eqn:E.
  - rewrite (visit_step_eq _ _ _ _ _ _ _ _ E). intros [= <-]. eauto.
  - unfold visit_step, updateTraffic_car. cbn [fst snd]. rewrite E. discriminate.
Qed.

Lemma visit_step_segments dt pz tl st v st' :
  visit_step dt pz tl st v = Some st' ->
  segments (fst st') = segments (fst st).
Proof.
  intros H. apply visit_step_inv in H as (c & _ & ->). simpl.
  apply game_after_frame.
Qed.

Lemma inner_loop_flat dt pz tl i st l :
  foldM (updateTraffic_car dt pz tl i) st l
  = foldM (visit_step dt pz tl) st (map (pair i) l).
Proof.
  revert st. induction l as [|r l IH]; intros st; simpl; [reflexivity|].
  change (visit_step dt pz tl st (i, r)) with (updateTraffic_car dt pz tl i st r).
  destruct (updateTraffic_car dt pz tl i st r) as [st1|]; simpl; auto.
Qed.

Arguments updateTraffic_segment : simpl never.

Lemma outer_loop_flat dt pz tl rest :
  forall k st,
    drop k (segments (fst st)) = rest ->
    foldM (updateTraffic_segment dt pz tl) st (seq k (length rest))
    = foldM (visit_step dt pz tl) st (visits_from k rest).
Proof.
  induction rest as [|sg rest IH]; intros k st Hdrop; simpl; [reflexivity|].
  assert (Hk : segments (fst st) !! k = Some sg).
  { rewrite <- (Nat.add_0_r k), <- lookup_drop, Hdrop. reflexivity. }
  replace (updateTraffic_segment dt pz tl st k)
    with (foldM (updateTraffic_car dt pz tl k) st (cars sg))
    by (unfold updateTraffic_segment; rewrite Hk; reflexivity).
  rewrite inner_loop_flat, foldM_app.
  destruct (foldM (visit_step dt pz tl) st (map (pair k) (cars sg)))
    as [st1|] eqn:E; simpl; [|reflexivity].
  apply IH.
  assert (Hs : segments (fst st1) = segments (fst st)).
  { revert E. apply (foldM_preserves _ (fun s => segments (fst s) = segments (fst st)));
      [|reflexivity].
    intros b x b' _ Hb Hx. rewrite <- Hb. eapply visit_step_segments; eauto. }
  rewrite Hs. rewrite <- (drop_drop _ 1 k) || idtac.
  replace (S k) with (k + 1)%nat by lia.
  rewrite <- drop_drop, Hdrop. reflexivity.
Qed.

Lemma updateTraffic_flat dt g :
  updateTraffic dt g
  = st ← foldM (visit_step dt (position g + CAMERA_HEIGHT)%num (trackLength g))
               (g, []) (visits g);
    g' ← foldM moveCar (fst st) (snd st);
    Some (if (speed g' >? Num 0)%num
          then set_score (score g' + speed g' / Num 1000 * dt * Num 10)%num g'
          else g').
Proof.
  unfold updateTraffic, visits, trackLength.
  rewrite <- (outer_loop_flat _ _ _ (segments g) 0 (g, [])) by reflexivity.
  destruct (foldM _ _ _) as [[g1 ms]|]; reflexivity.
Qed.

(** *** Well-formed tracks *)

Lemma track_wf_iff (g : Game) :
  track_wf g = true <->
  length (segments g) = TOTAL_SEGMENTS /\
  (forall i sg r, segments g !! i = Some sg -> r ∈ cars sg ->
                  (r < length (carObjs g))%nat) /\
  Forall (fun c => car_wf c = true) (carObjs g).
Proof.
  unfold track_wf. rewrite !andb_true_iff, Nat.eqb_eq.
  rewrite <- !Is_true_true, !forallb_True.
  split.
  - intros [[HN Hrefs] Hcars]. split; [exact HN|]. split.
    + intros i sg r Hi Hr.
      rewrite Forall_forall in Hrefs.
      specialize (Hrefs sg (list_elem_of_lookup_2 _ _ _ Hi)).
      rewrite forallb_True, Forall_forall in Hrefs.
      specialize (Hrefs r Hr). apply Is_true_true in Hrefs.
      now apply Nat.ltb_lt in Hrefs.
    + eapply Forall_impl; [exact Hcars|]. intros c Hc. now apply Is_true_true.
  - intros (HN & Hrefs & Hcars). repeat split; [exact HN| |].
    + apply Forall_forall. intros sg Hsg.
      apply list_elem_of_lookup_1 in Hsg as [i Hi].
      apply forallb_True, Forall_forall. intros r Hr.
      apply Is_true_true, Nat.ltb_lt. eauto.
    + eapply Forall_impl; [exact Hcars|]. intros c Hc. now apply Is_true_true.
Qed.

Lemma visits_from_spec (segs : list Segment) :
  forall k i r,
    (i, r) ∈ visits_from k segs <->
    exists j sg, i = (k + j)%nat /\ segs !! j = Some sg /\ r ∈ cars sg.
Proof.
  induction segs as [|sg0 segs IH]; intros k i r; simpl.
  - split; [intros H; inversion H | intros (j & sg & _ & H & _); discriminate].
  - rewrite elem_of_app, list_elem_of_fmap, IH. split.
    + intros [(r' & [= -> ->] & Hr) | (j & sg & -> & Hj & Hr)].
      * exists 0%nat, sg0. rewrite Nat.add_0_r. auto.
      * exists (S j), sg. split; [lia|]. auto.
    + intros (j & sg & -> & Hj & Hr). destruct j as [|j]; simpl in Hj.
      * injection Hj as ->. left. exists r. rewrite Nat.add_0_r. auto.
      * right. exists j, sg. split; [lia|]. auto.
Qed.

Lemma visits_spec (g : Game) (i : nat) (r : ref) :
  (i, r) ∈ visits g <-> exists sg, segments g !! i = Some sg /\ r ∈ cars sg.
Proof.
  unfold visits. rewrite visits_from_spec. split.
  - intros (j & sg & -> & H). exists sg. exact H.
  - intros (sg & H). exists i, sg. auto.
Qed.

(** *** One car, on a well-formed store *)

Lemma car_wf_iff (c : Car) :
  car_wf c = true <->
  exists z v, car_z c = Num z /\ car_speed c = Num v /\ 0 <= z /\ 0 <= v.
Proof.
  unfold car_wf. rewrite andb_true_iff, !nle_true. split.
  - intros [(a & z & [= <-] & Hz & Hle) (b & v & [= <-] & Hv & Hle')].
    exists z, v. auto.
  - intros (z & v & Hz & Hv & ? & ?). split; [exists 0, z | exists 0, v]; auto.
Qed.

Lemma advance_z_nonneg dt tl c d L :
  car_wf c = true -> dt = Num d -> 0 <= d -> tl = Num L ->
  exists z', advance_z dt tl c = Num z' /\ 0 <= z'.
Proof.
  intros Hc -> Hd ->. apply car_wf_iff in Hc as (z & v & Hz & Hv & Hz0 & Hv0).
  unfold advance_z. rewrite Hz, Hv. unfold nmul, nadd, nsub, ngt, nlt.
  assert (0 <= v * d) by nra.
  destruct (Qlt_bool L _) eqn:E1; qbool.
  - destruct (Qlt_bool _ 0) eqn:E2; qbool; eexists; (split; [reflexivity|]);
      unred; lra.
  - destruct (Qlt_bool _ 0) eqn:E2; qbool; eexists; (split; [reflexivity|]);
      unred; lra.
Qed.

Lemma owner_index_nonneg (g : Game) (c : Car) (z : Q) :
  car_z c = Num z -> 0 <= z -> length (segments g) <> 0%nat ->
  owner_index g c
  = Some (Qfloor (z / 200) mod Z.of_nat (length (segments g)))%Z.
Proof.
  intros Hz Hz0 HN. unfold owner_index. rewrite Hz.
  unfold SEGMENT_LENGTH, ndiv.
  replace (Qeq_bool 200 0) with false by reflexivity.
  unfold floorZ, zrem. rewrite Qfloor_Qred.
  destruct (length (segments g)) as [|n] eqn:E; [congruence|].
  f_equal. apply Z.rem_mod_nonneg; [|lia].
  change 0%Z with (Qfloor 0). apply Qfloor_resp_le.
  apply Qle_shift_div_l; lra.
Qed.

Lemma car_after_fields dt pz tl g c :
  car_z (car_after dt pz tl g c) = advance_z dt tl c /\
  car_speed (car_after dt pz tl g c) = car_speed c /\
  car_offset (car_after dt pz tl g c) = car_offset c.
Proof.
  unfold car_after.
  destruct (closeCall_fires dt pz tl g c), (nabs _ >? Num 1000)%num;
    simpl; auto.
Qed.

Lemma car_after_wf dt pz tl g c d L :
  car_wf c = true -> dt = Num d -> 0 <= d -> tl = Num L ->
  car_wf (car_after dt pz tl g c) = true.
Proof.
  intros Hc Hdt Hd Htl.
  destruct (advance_z_nonneg dt tl c d L Hc Hdt Hd Htl) as (z' & Hz' & Hz0).
  destruct (car_after_fields dt pz tl g c) as (Ez & Ev & _).
  apply car_wf_iff in Hc as (z & v & _ & Hv & _ & Hv0).
  apply car_wf_iff. exists z', v. rewrite Ez, Ev. auto.
Qed.

Lemma trackLength_Num (g : Game) :
  trackLength g = Num (Qred (inject_Z (Z.of_nat (length (segments g))) * 200)).
Proof. reflexivity. Qed.

(** *** The first phase: every car advanced and checked *)

Lemma phase1_total dt d pz g :
  track_wf g = true -> dt = Num d -> 0 <= d ->
  exists g1 ms,
    foldM (visit_step dt pz (trackLength g)) (g, []) (visits g) = Some (g1, ms)
    /\ segments g1 = segments g
    /\ length (carObjs g1) = length (carObjs g)
    /\ player_frame g g1
    /\ Forall (fun c => car_wf c = true) (carObjs g1)
    /\ Forall (move_ok (length (segments g))) ms.
Proof.
  intros Hwf Hdt Hd. apply track_wf_iff in Hwf as (HN & Hrefs & Hcars).
  pose (P := fun (_ : list (nat * ref)) (st : Game * list Move) =>
    segments (fst st) = segments g
    /\ length (carObjs (fst st)) = length (carObjs g)
    /\ player_frame g (fst st)
    /\ Forall (fun c => car_wf c = true) (carObjs (fst st))
    /\ Forall (move_ok (length (segments g))) (snd st)).
  destruct (foldM_invariant (visit_step dt pz (trackLength g)) P (visits g)
              [] (g, [])) as ([g1 ms] & E & HP).
  - unfold P. simpl. split_and!; auto using player_frame_refl.
  - intros done [i r] rest [g' ms'] Hsplit (Hs & Hl & Hf & Hc & Hm).
    simpl in Hs, Hl, Hf, Hc, Hm.
    assert (Hv : (i, r) ∈ visits g).
    { simpl in Hsplit. rewrite Hsplit. apply elem_of_app. right. left. }
    apply visits_spec in Hv as (sg & Hi & Hr).
    pose proof (Hrefs i sg r Hi Hr) as Hlt. rewrite <- Hl in Hlt.
    destruct (lookup_lt_is_Some_2 _ _ Hlt) as [c Hc'].
    rewrite (visit_step_eq _ _ _ _ _ _ _ _ Hc'). eexists. split; [reflexivity|].
    pose proof (proj1 (Forall_lookup _ _) Hc r c Hc') as Hcwf.
    destruct (game_after_frame dt pz (trackLength g) g' c) as (F1 & F2 & F3).
    unfold P. simpl. split_and!.
    + congruence.
    + rewrite length_insert. exact Hl.
    + eapply player_frame_trans; eauto.
    + apply Forall_insert; [exact Hc|].
      eapply car_after_wf; eauto using trackLength_Num.
    + apply Forall_app. split; [exact Hm|].
      unfold move_of.
      destruct (advance_z_nonneg dt (trackLength g) c d _ Hcwf Hdt Hd
                  (trackLength_Num g)) as (z' & Hz' & Hz0).
      rewrite (owner_index_nonneg g' _ z');
        [|exact Hz'|exact Hz0|rewrite Hs, HN; discriminate].
      assert (HNpos : (0 < Z.of_nat (length (segments g')))%Z)
        by (rewrite Hs, HN; reflexivity).
      pose proof (Z.mod_pos_bound (Qfloor (z' / 200)) _ HNpos) as Hk.
      rewrite Hs in Hk.
      destruct (index_differs _ _) eqn:Hdiff; constructor; [|constructor].
      split; simpl.
      * eapply lookup_lt_Some; eauto.
      * rewrite Hs in Hdiff |- *.
        exists (Z.to_nat (Qfloor (z' / 200) mod Z.of_nat (length (segments g)))).
        rewrite Z2Nat.id by lia. split; [reflexivity|]. split; [lia|].
        intros Heq. unfold index_differs in Hdiff.
        apply negb_true_iff, Z.eqb_neq in Hdiff. lia.
  - exists g1, ms. split; [exact E|]. exact HP.
Qed.

(** *** The second phase: the pending moves *)

Lemma indexOf_Some (l : list ref) (r : ref) (idx : nat) :
  indexOf l r = Some idx -> l !! idx = Some r.
Proof.
  revert idx. induction l as [|x l IH]; intros idx; simpl; [discriminate|].
  destruct (x =? r)%nat eqn:E.
  - intros [= <-]. apply Nat.eqb_eq in E. now subst.
  - destruct (indexOf l r) as [k|]; simpl; [|discriminate].
    intros [= <-]. simpl. auto.
Qed.

Lemma indexOf_None (l : list ref) (r : ref) : indexOf l r = None -> r ∉ l.
Proof.
  induction l as [|x l IH]; simpl; [intros _ H; inversion H|].
  destruct (x =? r)%nat eqn:E; [discriminate|].
  destruct (indexOf l r); simpl; [discriminate|].
  intros _ H. apply elem_of_cons in H as [->|H].
  - rewrite Nat.eqb_refl in E. discriminate.
  - now apply IH.
Qed.

Lemma set_segments_id (g : Game) : g = set_segments (segments g) g.
Proof. destruct g; reflexivity. Qed.

(** What [moveCar] does to the segments: nothing when the car is not in the
    source array; otherwise one occurrence leaves the source array and the
    reference is appended to the target array. *)
Lemma moveCar_result (g : Game) (m : Move) :
  move_ok (length (segments g)) m ->
  exists g',
    moveCar g m = Some g' /\ g' = set_segments (segments g') g /\
    length (segments g') = length (segments g) /\
    exists fs k ts,
      segments g !! move_from m = Some fs /\
      move_to m = Some (Z.of_nat k) /\ k <> move_from m /\
      segments g !! k = Some ts /\
      (((move_car m ∉ cars fs) /\ segments g' = segments g) \/
       exists idx,
         cars fs !! idx = Some (move_car m) /\
         forall j,
           segments g' !! j
           = if decide (j = k) then Some (set_cars (cars ts ++ [move_car m]) ts)
             else if decide (j = move_from m)
                  then Some (set_cars (delete idx (cars fs)) fs)
                  else segments g !! j).
Proof.
  intros (Hfrom & k & Hto & Hk & Hne).
  destruct (lookup_lt_is_Some_2 _ _ Hfrom) as [fs Hfs].
  destruct (lookup_lt_is_Some_2 _ _ Hk) as [ts Hts].
  unfold moveCar. rewrite Hfs. simpl.
  destruct (indexOf (cars fs) (move_car m)) as [idx|] eqn:Hidx.
  - assert (Hat : at_index
              (<[move_from m := set_cars (delete idx (cars fs)) fs]> (segments g))
              (move_to m) = Some ts).
    { rewrite Hto. unfold at_index.
      replace (Z.of_nat k <? 0)%Z with false by (symmetry; apply Z.ltb_ge; lia).
      rewrite Nat2Z.id, list_lookup_insert_ne by congruence. exact Hts. }
    rewrite Hat. simpl. rewrite Hto. simpl. rewrite Nat2Z.id.
    eexists. split; [reflexivity|]. simpl. split; [reflexivity|].
    split; [rewrite !length_insert; reflexivity|].
    exists fs, k, ts. split_and!; auto. right. exists idx.
    split; [now apply indexOf_Some|]. intros j.
    destruct (decide (j = k)) as [->|Hjk].
    + rewrite list_lookup_insert_eq; [reflexivity|].
      rewrite length_insert. exact Hk.
    + rewrite list_lookup_insert_ne by congruence.
      destruct (decide (j = move_from m)) as [->|Hjf].
      * rewrite list_lookup_insert_eq; [reflexivity | exact Hfrom].
      * rewrite list_lookup_insert_ne by congruence. reflexivity.
  - exists g. split; [reflexivity|]. split; [apply set_segments_id|].
    split; [reflexivity|].
    exists fs, k, ts. split_and!; auto. left. split; [|reflexivity].
    now apply indexOf_None.
Qed.

Lemma elem_of_delete_list (l : list ref) (idx : nat) (r : ref) :
  r ∈ delete idx l -> r ∈ l.
Proof. intros H. eapply elem_of_sublist; [exact H | apply sublist_delete]. Qed.

Lemma moveCar_refs_valid (g g' : Game) (m : Move) :
  move_ok (length (segments g)) m -> refs_valid g ->
  moveCar g m = Some g' -> refs_valid g'.
Proof.
  intros Hok Hv E.
  destruct (moveCar_result g m Hok)
    as (g1 & E1 & Hset & _ & fs & k & ts & Hfs & _ & _ & Hts & Hcase).
  rewrite E in E1. injection E1 as <-.
  assert (Hobjs : carObjs g' = carObjs g) by (rewrite Hset; reflexivity).
  intros j sg r Hj Hr. rewrite Hobjs.
  destruct Hcase as [[_ Hsame] | (idx & Hidx & Hpt)].
  - rewrite Hsame in Hj. eauto.
  - rewrite Hpt in Hj.
    destruct (decide (j = k)) as [->|_].
    + injection Hj as <-. simpl in Hr. apply elem_of_app in Hr as [Hr|Hr].
      * eauto.
      * apply list_elem_of_singleton in Hr as ->.
        eapply Hv; [exact Hfs|]. eapply list_elem_of_lookup_2; eauto.
    + destruct (decide (j = move_from m)) as [->|_].
      * injection Hj as <-. simpl in Hr. apply elem_of_delete_list in Hr. eauto.
      * eauto.
Qed.

Lemma phase2_total (g : Game) (ms : list Move) :
  Forall (move_ok (length (segments g))) ms -> refs_valid g ->
  exists g',
    foldM moveCar g ms = Some g' /\ g' = set_segments (segments g') g /\
    length (segments g') = length (segments g) /\ refs_valid g'.
Proof.
  intros Hms Hv.
  pose (P := fun (_ : list Move) (h : Game) =>
    h = set_segments (segments h) g
    /\ length (segments h) = length (segments g) /\ refs_valid h).
  destruct (foldM_invariant moveCar P ms [] g) as (g' & E & HP).
  - unfold P. auto using set_segments_id.
  - intros done m rest h Hsplit (Hset & Hlen & Hvh).
    assert (Hok : move_ok (length (segments h)) m).
    { rewrite Hlen. rewrite Forall_forall in Hms. apply Hms.
      simpl in Hsplit. rewrite Hsplit. apply elem_of_app. right. left. }
    destruct (moveCar_result h m Hok) as (h' & E' & Hset' & Hlen' & _).
    exists h'. split; [exact E'|]. unfold P. split_and!.
    + rewrite Hset', Hset. reflexivity.
    + congruence.
    + eapply moveCar_refs_valid; eauto.
  - exists g'. auto.
Qed.

(** *** [updateTraffic] returns, and keeps the track well formed *)

Lemma updateTraffic_total dt d g :
  track_wf g = true -> dt = Num d -> 0 <= d ->
  exists g',
    updateTraffic dt g = Some g' /\ track_wf g' = true /\ player_frame g g'.
Proof.
  intros Hwf Hdt Hd.
  destruct (phase1_total dt d (position g + CAMERA_HEIGHT)%num g Hwf Hdt Hd)
    as (g1 & ms & E1 & Hs1 & Hl1 & Hf1 & Hc1 & Hm1).
  apply track_wf_iff in Hwf as (HN & Hrefs & Hcars).
  assert (Hv1 : refs_valid g1).
  { intros i sg r Hi Hr. rewrite Hs1 in Hi. rewrite Hl1. eauto. }
  rewrite <- Hs1 in Hm1.
  destruct (phase2_total g1 ms Hm1 Hv1) as (g2 & E2 & Hset & Hl2 & Hv2).
  rewrite updateTraffic_flat, E1. simpl. rewrite E2. simpl.
  eexists. split; [reflexivity|].
  assert (Hf2 : player_frame g g2).
  { eapply player_frame_trans; [exact Hf1|].
    rewrite Hset. unfold player_frame. simpl. tauto. }
  assert (Hwf2 : track_wf g2 = true).
  { apply track_wf_iff. split_and!.
    - congruence.
    - exact Hv2.
    - rewrite Hset. exact Hc1. }
  destruct (speed g2 >? Num 0)%num; [|auto].
  split.
  - apply track_wf_iff in Hwf2 as (? & ? & ?). apply track_wf_iff. auto.
  - eapply player_frame_trans; [exact Hf2|]. unfold player_frame. simpl. tauto.
Qed.

(** ** [checkSpriteCollisions] *)

Lemma checkSpriteCollisions_loop_cases g pz tl s l g' :
  checkSpriteCollisions_loop g pz tl s l = Some g' -> g' = g \/ g' = crash g.
Proof.
  induction l as [|i l IH]; simpl.
  - intros [= <-]. now left.
  - destruct (at_index _ _) as [sg|]; simpl; [|discriminate].
    destruct (existsb _ _); [intros [= <-]; now right | exact IH].
Qed.

Lemma checkSpriteCollisions_cases g g' :
  checkSpriteCollisions g = Some g' -> g' = g \/ g' = crash g.
Proof. apply checkSpriteCollisions_loop_cases. Qed.

Lemma zrem_nonneg (k : Z) (n : nat) :
  (0 <= k)%Z -> n <> 0%nat ->
  zrem (Some k) n = Some (k mod Z.of_nat n)%Z.
Proof.
  intros Hk Hn. unfold zrem. destruct n as [|n]; [congruence|].
  f_equal. apply Z.rem_mod_nonneg; lia.
Qed.

Lemma at_index_mod {A} (l : list A) (k : Z) :
  l <> [] -> is_Some (at_index l (Some (k mod Z.of_nat (length l))%Z)).
Proof.
  intros Hl. unfold at_index.
  assert (0 < Z.of_nat (length l))%Z by (destruct l; simpl; [congruence|lia]).
  pose proof (Z.mod_pos_bound k _ H) as Hb.
  replace (_ <? 0)%Z with false by (symmetry; apply Z.ltb_ge; lia).
  apply lookup_lt_is_Some_2. lia.
Qed.

Lemma checkSpriteCollisions_loop_total g pz tl s l :
  segments g <> [] -> (0 <= s)%Z -> Forall (fun i => (-1 <= i)%Z) l ->
  is_Some (checkSpriteCollisions_loop g pz tl (Some s) l).
Proof.
  intros Hsegs Hs. induction l as [|i l IH]; intros Hl; simpl; [eauto|].
  inversion Hl as [|? ? Hi Hl']; subst.
  assert (Hn : length (segments g) <> 0%nat) by (destruct (segments g); simpl; congruence).
  rewrite zrem_nonneg by (simpl; lia || exact Hn).
  destruct (at_index_mod (segments g) (s + i + Z.of_nat (length (segments g))) Hsegs)
    as [sg ->]. simpl.
  destruct (existsb _ _); eauto.
Qed.

Lemma floorZ_div_nonneg (z : Q) :
  0 <= z ->
  exists k, floorZ (Num z / SEGMENT_LENGTH)%num = Some k /\ (0 <= k)%Z /\
            k = Qfloor (z / 200).
Proof.
  intros Hz. unfold SEGMENT_LENGTH, ndiv.
  replace (Qeq_bool 200 0) with false by reflexivity.
  exists (Qfloor (z / 200)). unfold floorZ. rewrite Qfloor_Qred.
  split; [reflexivity|]. split; [|reflexivity].
  change 0%Z with (Qfloor 0). apply Qfloor_resp_le.
  apply Qle_shift_div_l; lra.
Qed.

Lemma findSegment_nonneg (g : Game) (z : Q) :
  segments g <> [] -> 0 <= z -> is_Some (findSegment g (Num z)).
Proof.
  intros Hsegs Hz. unfold findSegment.
  destruct (floorZ_div_nonneg z Hz) as (k & -> & Hk & _).
  rewrite zrem_nonneg; [|exact Hk|destruct (segments g); simpl; congruence].
  now apply at_index_mod.
Qed.

Lemma checkSpriteCollisions_total (g : Game) (p : Q) :
  segments g <> [] -> position g = Num p -> 0 <= p ->
  is_Some (checkSpriteCollisions g).
Proof.
  intros Hsegs Hp Hp0. unfold checkSpriteCollisions.
  rewrite Hp. unfold CAMERA_HEIGHT, nadd.
  destruct (floorZ_div_nonneg (Qred (p + 1000))) as (k & -> & Hk & _);
    [unred; lra|].
  rewrite zrem_nonneg; [|exact Hk|destruct (segments g); simpl; congruence].
  apply checkSpriteCollisions_loop_total; [exact Hsegs| |].
  - apply Z.mod_pos_bound. destruct (segments g); simpl; [congruence|lia].
  - repeat constructor; lia.
Qed.

(** ** What [updateTraffic] leaves of the player, whenever it returns *)

Lemma moveCar_set_segments (g g' : Game) (m : Move) :
  moveCar g m = Some g' -> g' = set_segments (segments g') g.
Proof.
  unfold moveCar.
  destruct (segments g !! move_from m) as [fs|]; simpl; [|discriminate].
  destruct (indexOf _ _); [|intros [= <-]; apply set_segments_id].
  destruct (at_index _ _); simpl; [|discriminate].
  intros [= <-]. reflexivity.
Qed.

Lemma updateTraffic_frame dt g g' :
  updateTraffic dt g = Some g' ->
  player_frame g g' /\ length (carObjs g') = length (carObjs g).
Proof.
  rewrite updateTraffic_flat.
  destruct (foldM (visit_step _ _ _) _ _) as [[g1 ms]|] eqn:E1; simpl;
    [|discriminate].
  destruct (foldM moveCar g1 ms) as [g2|] eqn:E2; simpl; [|discriminate].
  intros [= <-].
  assert (H1 : player_frame g g1 /\ length (carObjs g1) = length (carObjs g)).
  { revert E1.
    apply (foldM_preserves _
             (fun st => player_frame g (fst st)
                        /\ length (carObjs (fst st)) = length (carObjs g)));
      [|split; [apply player_frame_refl | reflexivity]].
    intros st v st' _ [Hf Hl] Hstep.
    apply visit_step_inv in Hstep as (c & Hc & ->). simpl.
    destruct (game_after_frame dt (position g + CAMERA_HEIGHT)%num
                               (trackLength g) (fst st) c) as (F1 & F2 & F3).
    split; [eapply player_frame_trans; eauto|].
    rewrite length_insert. exact Hl. }
  assert (H2 : g2 = set_segments (segments g2) g1).
  { revert E2.
    apply (foldM_preserves _ (fun h => h = set_segments (segments h) g1));
      [|apply set_segments_id].
    intros h m h' _ Hh Hm. apply moveCar_set_segments in Hm.
    rewrite Hm, Hh. reflexivity. }
  destruct H1 as [Hf Hl].
  assert (Hf2 : player_frame g g2).
  { eapply player_frame_trans; [exact Hf|].
    rewrite H2. unfold player_frame. simpl. tauto. }
  assert (Hl2 : length (carObjs g2) = length (carObjs g))
    by (rewrite H2; exact Hl).
  destruct (speed g2 >? Num 0)%num; [|auto].
  split; [|exact Hl2].
  eapply player_frame_trans; [exact Hf2|]. unfold player_frame. simpl. tauto.
Qed.

(** ** The player's part of [update] *)

Ltac num_ops :=
  unfold MAX_SPEED, ACCEL, BRAKING, DECEL, OFF_ROAD_DECEL, CAMERA_HEIGHT,
    CAMERA_DEPTH, SEGMENT_LENGTH in *;
  unfold nadd, nsub, nmul, nmax, nmin, nabs, nneg in *.

Lemma trackLength_total (g : Game) :
  length (segments g) = TOTAL_SEGMENTS -> trackLength g = Num 400000.
Proof. intros H. rewrite trackLength_Num, H. reflexivity. Qed.

Lemma player_wf_iff (g : Game) :
  length (segments g) = TOTAL_SEGMENTS ->
  player_wf g = true <->
  exists p v, position g = Num p /\ speed g = Num v /\ 0 <= p /\ p < 400000.
Proof.
  intros HN. unfold player_wf. rewrite (trackLength_total g HN).
  rewrite !andb_true_iff, nle_true, nlt_true. split.
  - intros [[(a & p & [= <-] & Hp & H0) (p' & L & Hp' & [= <-] & HL)] Hv].
    destruct (speed g) as [v|] eqn:Ev; [|discriminate].
    rewrite Hp in Hp'. injection Hp' as <-.
    exists p, v. split_and!; auto; lra.
  - intros (p & v & Hp & Hv & H0 & HL). rewrite Hv. split_and!.
    + exists 0, p. auto.
    + exists p, 400000. split_and!; auto; lra.
    + reflexivity.
Qed.

Lemma tick_ok_iff (dt : num) :
  tick_ok dt = true <-> exists d, dt = Num d /\ 0 < d /\ d <= 1.
Proof.
  unfold tick_ok. rewrite andb_true_iff, nlt_true, nle_true. split.
  - intros [(a & d & [= <-] & Hd & H0) (d' & b & Hd' & [= <-] & H1)].
    rewrite Hd in Hd'. injection Hd' as <-. eauto.
  - intros (d & -> & H0 & H1). split; [exists 0, d | exists d, 1]; auto.
Qed.

Lemma speed_clamped_range dt cmd g v d :
  speed g = Num v -> dt = Num d ->
  exists v1, speed_clamped dt cmd g = Num v1 /\ 0 <= v1 /\ v1 <= 12000.
Proof.
  intros Hv ->. unfold speed_clamped. rewrite Hv.
  assert (H : exists w,
    (if (accel cmd >? Num 0)%num
     then (Num v + ACCEL * accel cmd * Num d * Num 60)%num
     else if (brake cmd >? Num 0)%num
          then (Num v + BRAKING * Num d * Num 60)%num
          else (Num v + DECEL * Num d * Num 60)%num) = Num w).
  { destruct (accel cmd >? Num 0)%num eqn:Ea.
    - unfold ngt in Ea. apply nlt_true in Ea as (? & a & _ & -> & _).
      eexists. reflexivity.
    - destruct (brake cmd >? Num 0)%num; eexists; reflexivity. }
  destruct H as [w ->]. num_ops.
  destruct (Qle_bool w 12000) eqn:E1; qbool.
  - destruct (Qle_bool 0 w) eqn:E2; qbool; eexists; split; try reflexivity; lra.
  - destruct (Qle_bool 0 12000) eqn:E2; qbool; eexists; split;
      try reflexivity; lra.
Qed.

Lemma speed_penalised_range dt cmd g sg v d :
  speed g = Num v -> dt = Num d -> 0 < d -> d <= 1 ->
  exists v2, speed_penalised dt cmd g sg = Num v2
             /\ -10000 < v2 /\ v2 <= 12000 /\ (d <= 1 # 6 -> 0 <= v2).
Proof.
  intros Hv Hdt Hd0 Hd1.
  destruct (speed_clamped_range dt cmd g v d Hv Hdt) as (v1 & E & H0 & H1).
  unfold speed_penalised. rewrite E. subst dt.
  destruct (off_road _ && (Num v1 >? Num 2000)%num) eqn:Eoff.
  - apply andb_true_iff in Eoff as [_ H2]. qbool. num_ops.
    eexists. split; [reflexivity|]. unred. split_and!; try lra.
  - exists v1. split_and!; auto; lra.
Qed.

Lemma wrap_position_range (p s : Q) :
  0 <= p -> p < 400000 -> -10000 < s -> s <= 12000 ->
  exists p', wrap_position (Num p + Num s)%num (Num 400000) = Num p'
             /\ 0 <= p' /\ p' < 400000.
Proof.
  intros. unfold wrap_position, nge, nle, nlt, nsub, nadd.
  destruct (Qle_bool 400000 _) eqn:E1; qbool.
  - destruct (Qlt_bool _ 0) eqn:E2; qbool;
      eexists; (split; [reflexivity|]); unred; lra.
  - destruct (Qlt_bool _ 0) eqn:E2; qbool;
      eexists; (split; [reflexivity|]); unred; lra.
Qed.

Lemma lateral_clamp_range (x : Q) :
  exists x', nmax (Num (-2)) (nmin (Num 2) (Num x)) = Num x'
             /\ -2 <= x' /\ x' <= 2.
Proof.
  unfold nmax, nmin.
  destruct (Qle_bool 2 x) eqn:E1; qbool.
  - destruct (Qle_bool (-2) 2) eqn:E2; qbool; eexists; split;
      try reflexivity; lra.
  - destruct (Qle_bool (-2) x) eqn:E2; qbool; eexists; split;
      try reflexivity; lra.
Qed.

Lemma move_player_total dt cmd g :
  length (segments g) = TOTAL_SEGMENTS -> player_wf g = true ->
  tick_ok dt = true ->
  exists g1 sg,
    findSegment g (position g + CAMERA_DEPTH * SEGMENT_LENGTH)%num = Some sg
    /\ move_player dt cmd g = Some g1
    /\ segments g1 = segments g /\ carObjs g1 = carObjs g
    /\ isGameOver g1 = isGameOver g
    /\ player_wf g1 = true
    /\ speed g1 = speed_penalised dt cmd g sg
    /\ playerX g1 = nmax (Num (-2)) (nmin (Num 2) (lateral_raw dt cmd g sg)).
Proof.
  intros HN Hp Hdt.
  apply (player_wf_iff g HN) in Hp as (p & v & Ep & Ev & Hp0 & HpL).
  apply tick_ok_iff in Hdt as (d & Ed & Hd0 & Hd1).
  assert (Hsegs : segments g <> []).
  { intros E. rewrite E in HN. discriminate. }
  destruct (findSegment_nonneg g (Qred (p + Qred (0.84 * 200))) Hsegs)
    as [sg Hsg]; [unred; lra|].
  assert (Hfind :
    findSegment g (position g + CAMERA_DEPTH * SEGMENT_LENGTH)%num = Some sg).
  { rewrite Ep. exact Hsg. }
  unfold move_player. rewrite Hfind. simpl.
  eexists _, sg. split; [reflexivity|]. split; [reflexivity|].
  split_and!; try reflexivity.
  destruct (speed_penalised_range dt cmd g sg v d Ev Ed Hd0 Hd1)
    as (v2 & E2 & Hlo & Hhi & _).
  apply player_wf_iff; [exact HN|]. simpl.
  rewrite E2, Ep, Ed, (trackLength_total g HN).
  destruct (wrap_position_range p (Qred (v2 * d))) as (p' & Ew & ? & ?);
    [lra | lra | unred; nra | unred; nra |].
  change (Num v2 * Num d)%num with (Num (Qred (v2 * d))).
  rewrite Ew. exists p', v2. auto.
Qed.

(** ** [update] returns on well-formed states, and keeps them well formed *)

Lemma track_wf_same (g g' : Game) :
  segments g' = segments g -> carObjs g' = carObjs g ->
  track_wf g' = track_wf g.
Proof. intros Hs Ho. unfold track_wf. rewrite Hs, Ho. reflexivity. Qed.

Lemma player_wf_frame (g g' : Game) :
  length (segments g) = TOTAL_SEGMENTS ->
  length (segments g') = TOTAL_SEGMENTS ->
  player_frame g g' -> player_wf g = true -> player_wf g' = true.
Proof.
  intros HN HN' (Hp & _ & _ & _ & _ & Hs) Hwf.
  apply (player_wf_iff g HN) in Hwf as (p & v & Ep & Ev & H0 & HL).
  apply (player_wf_iff g' HN').
  destruct Hs as [[Hs _]|[Hs _]].
  - exists p, v. split_and!; auto; congruence.
  - exists p, 0. split_and!; auto; congruence.
Qed.

Lemma update_total dt cmd g :
  track_wf g = true -> player_wf g = true -> tick_ok dt = true ->
  exists g',
    update dt cmd g = Some g' /\ track_wf g' = true /\ player_wf g' = true.
Proof.
  intros Ht Hp Hdt. rewrite update_parts.
  destruct (isGameOver g); [eauto|].
  pose proof (proj1 (track_wf_iff g) Ht) as (HN & _ & _).
  destruct (move_player_total dt cmd g HN Hp Hdt)
    as (g1 & sg & _ & E1 & Hs1 & Ho1 & _ & Hp1 & _ & _).
  rewrite E1. simpl.
  assert (Ht1 : track_wf g1 = true) by (rewrite (track_wf_same g g1); auto).
  pose proof Hdt as Hdt'.
  apply tick_ok_iff in Hdt' as (d & Ed & Hd0 & _).
  destruct (updateTraffic_total dt d g1 Ht1 Ed) as (g2 & E2 & Ht2 & Hf2); [lra|].
  rewrite E2. simpl.
  pose proof (proj1 (track_wf_iff g2) Ht2) as (HN2 & _ & _).
  assert (HN1 : length (segments g1) = TOTAL_SEGMENTS) by congruence.
  pose proof (player_wf_frame g1 g2 HN1 HN2 Hf2 Hp1) as Hp2.
  pose proof Hp2 as Hp2'.
  apply (player_wf_iff g2 HN2) in Hp2' as (p & v & Ep & _ & Hp0 & _).
  assert (Hsegs : segments g2 <> []).
  { intros E. rewrite E in HN2. discriminate. }
  destruct (checkSpriteCollisions_total g2 p Hsegs Ep Hp0) as [g3 E3].
  rewrite E3. exists g3. split; [reflexivity|].
  destruct (checkSpriteCollisions_cases g2 g3 E3) as [-> | ->]; [auto|].
  destruct (crash_fields g2) as (_ & _ & _ & _ & _ & Hs & Ho & _).
  split.
  - rewrite (track_wf_same g2 (crash g2)); auto.
  - eapply (player_wf_frame g2); eauto using player_frame_crash. congruence.
Qed.

(** ** What a step leaves of the player *)

Lemma update_player dt cmd g g' :
  isGameOver g = false -> update dt cmd g = Some g' ->
  exists sg g1,
    findSegment g (position g + CAMERA_DEPTH * SEGMENT_LENGTH)%num = Some sg
    /\ move_player dt cmd g = Some g1 /\ player_frame g1 g'.
Proof.
  intros Hover. rewrite update_parts, Hover. unfold move_player.
  destruct (findSegment g _) as [sg|]; cbn [mbind option_bind]; [|discriminate].
  match goal with
  | |- context [updateTraffic dt ?h] => set (g1 := h)
  end.
  destruct (updateTraffic dt g1) as [g2|] eqn:E2; cbn [mbind option_bind];
    [|discriminate].
  intros E3. exists sg, g1. split; [reflexivity|]. split; [reflexivity|].
  apply updateTraffic_frame in E2 as [F2 _].
  destruct (checkSpriteCollisions_cases g2 g' E3) as [-> | ->]; [exact F2|].
  eapply player_frame_trans; [exact F2 | apply player_frame_crash].
Qed.

Lemma update_playerX dt cmd g g' :
  isGameOver g = false -> update dt cmd g = Some g' ->
  exists sg,
    findSegment g (position g + CAMERA_DEPTH * SEGMENT_LENGTH)%num = Some sg
    /\ playerX g'
       = nmax (Num (-2)) (nmin (Num 2) (lateral_raw dt cmd g sg))
    /\ (speed g' = speed_penalised dt cmd g sg \/ speed g' = Num 0).
Proof.
  intros Hover E.
  destruct (update_player dt cmd g g' Hover E) as (sg & g1 & Hsg & E1 & F).
  exists sg. split; [exact Hsg|].
  unfold move_player in E1. rewrite Hsg in E1. injection E1 as <-.
  destruct F as (_ & Fx & _ & _ & _ & Fs). simpl in Fx, Fs.
  split; [exact Fx|]. destruct Fs as [[Fs _]|[Fs _]]; auto.
Qed.

(** With a zero steering input the displacement [dx] is zero, and so is the
    curve term, which is a multiple of [dx]. *)
Lemma lateral_raw_no_steer dt cmd g sg x v d k :
  steer cmd = Num 0 -> playerX g = Num x -> speed g = Num v -> dt = Num d ->
  curve sg = Num k ->
  exists x', lateral_raw dt cmd g sg = Num x' /\ x' == x.
Proof.
  intros Hs Hx Hv Hd Hk.
  destruct (speed_clamped_range dt cmd g v d Hv Hd) as (v1 & E1 & _).
  unfold lateral_raw, steer_dx. rewrite E1, Hs, Hx, Hv, Hd, Hk.
  unfold MAX_SPEED, ndiv. replace (Qeq_bool 12000 0) with false by reflexivity.
  unfold nmul, nsub. eexists. split; [reflexivity|].
  unred. ring.
Qed.

Lemma lateral_raw_num dt cmd g sg x v d k s :
  steer cmd = Num s -> playerX g = Num x -> speed g = Num v -> dt = Num d ->
  curve sg = Num k ->
  exists x', lateral_raw dt cmd g sg = Num x'.
Proof.
  intros Hs Hx Hv Hd Hk.
  destruct (speed_clamped_range dt cmd g v d Hv Hd) as (v1 & E1 & _).
  unfold lateral_raw, steer_dx. rewrite E1, Hs, Hx, Hv, Hd, Hk.
  unfold MAX_SPEED, ndiv. replace (Qeq_bool 12000 0) with false by reflexivity.
  unfold nmul, nsub. eexists. reflexivity.
Qed.

Lemma lateral_clamp_id (x : Q) :
  -2 <= x -> x <= 2 ->
  exists x', nmax (Num (-2)) (nmin (Num 2) (Num x)) = Num x' /\ x' == x.
Proof.
  intros Hlo Hhi. unfold nmax, nmin.
  destruct (Qle_bool 2 x) eqn:E1; qbool.
  - destruct (Qle_bool (-2) 2) eqn:E2; qbool; eexists; (split; [reflexivity|]); lra.
  - destruct (Qle_bool (-2) x) eqn:E2; qbool; eexists; (split; [reflexivity|]); lra.
Qed.

Lemma clamp_same (x x' : Q) :
  x' == x ->
  same (nmax (Num (-2)) (nmin (Num 2) (Num x')))
       (nmax (Num (-2)) (nmin (Num 2) (Num x))) = true.
Proof.
  intros E. unfold nmax, nmin.
  destruct (Qle_bool 2 x') eqn:E1, (Qle_bool 2 x) eqn:E2; qbool; try lra;
    repeat match goal with
    | |- context [Qle_bool ?a ?b] => destruct (Qle_bool a b) eqn:?
    end; qbool; lra.
Qed.

Lemma findSegment_elem (g : Game) (z : num) (sg : Segment) :
  findSegment g z = Some sg -> sg ∈ segments g.
Proof.
  unfold findSegment, at_index.
  destruct (zrem _ _) as [k|]; [|discriminate].
  destruct (k <? 0)%Z; [discriminate|]. apply list_elem_of_lookup_2.
Qed.

Lemma curves_are_numbers_elem (g : Game) (sg : Segment) :
  curves_are_numbers g = true -> sg ∈ segments g ->
  exists k, curve sg = Num k.
Proof.
  unfold curves_are_numbers. rewrite <- Is_true_true, forallb_True, Forall_forall.
  intros H Hsg. specialize (H sg Hsg). apply Is_true_true in H.
  destruct (curve sg) as [k|]; [eauto | discriminate].
Qed.

Lemma is_num_true (a : num) : is_num a = true -> exists q, a = Num q.
Proof. destruct a; [eauto | discriminate]. Qed.

(** With ticks of at most 1/6 s the off-road penalty is smaller than the
    threshold it is gated on, and the speed stays within [0, MAX_SPEED]. *)
Lemma speed_in_range_short_tick dt cmd g g' d v :
  isGameOver g = false -> speed g = Num v ->
  dt = Num d -> 0 < d -> d <= 1 # 6 ->
  update dt cmd g = Some g' ->
  (Num 0 <=? speed g')%num = true /\ (speed g' <=? MAX_SPEED)%num = true.
Proof.
  intros Hover Hv Hd Hd0 Hd6 E.
  destruct (update_playerX dt cmd g g' Hover E) as (sg & _ & _ & Es).
  destruct (speed_penalised_range dt cmd g sg v d Hv Hd Hd0)
    as (v2 & E2 & _ & Hhi & Hlo); [lra|].
  specialize (Hlo Hd6).
  destruct Es as [-> | ->]; [rewrite E2|]; unfold MAX_SPEED; split; qbool; lra.
Qed.

(** ** Ownership *)

Lemma visits_from_NoDup (loc : ref -> nat) (rest : list Segment) :
  forall k,
    (forall j sg, rest !! j = Some sg ->
       NoDup (cars sg) /\ forall r, r ∈ cars sg -> loc r = (k + j)%nat) ->
    NoDup (visits_from k rest).*2.
Proof.
  induction rest as [|sg rest IH]; intros k H; simpl; [constructor|].
  rewrite fmap_app, <- list_fmap_compose.
  replace (snd ∘ pair k <$> cars sg) with (cars sg)
    by (symmetry; apply list_fmap_id).
  destruct (H 0%nat sg eq_refl) as [Hnd Hloc].
  apply NoDup_app. split; [exact Hnd|]. split.
  - intros r Hr Hr'. apply Hloc in Hr.
    apply list_elem_of_fmap in Hr' as ([i r'] & -> & Hv). simpl in Hr.
    apply visits_from_spec in Hv as (j & sg' & _ & Hj & Hr').
    destruct (H (S j) sg' Hj) as [_ Hloc']. apply Hloc' in Hr'. lia.
  - apply IH. intros j sg' Hj. destruct (H (S j) sg' Hj) as [Hnd' Hloc'].
    split; [exact Hnd'|]. intros r Hr. rewrite (Hloc' r Hr). lia.
Qed.

Lemma Located_visits (g : Game) (loc : ref -> nat) :
  Located g loc ->
  NoDup (visits g).*2 /\
  forall i r, (i, r) ∈ visits g ->
              (r < length (carObjs g))%nat /\ loc r = i.
Proof.
  intros HL. split.
  - apply (visits_from_NoDup loc). intros j sg Hj.
    destruct (HL j sg Hj) as [Hnd Hmem]. split; [exact Hnd|].
    intros r Hr. now apply Hmem in Hr.
  - intros i r Hv. apply visits_spec in Hv as (sg & Hi & Hr).
    destruct (HL i sg Hi) as [_ Hmem]. now apply Hmem.
Qed.

Lemma relocate_snoc (ms : list Move) (m : Move) (loc : ref -> nat) (r : ref) :
  relocate (ms ++ [m]) loc r
  = if (r =? move_car m)%nat
    then Z.to_nat (default 0%Z (move_to m)) else relocate ms loc r.
Proof. unfold relocate. rewrite foldl_snoc. reflexivity. Qed.

Lemma relocate_notin (ms : list Move) (loc : ref -> nat) (r : ref) :
  r ∉ map move_car ms -> relocate ms loc r = loc r.
Proof.
  induction ms as [|m ms IH] using rev_ind; intros Hr; [reflexivity|].
  rewrite relocate_snoc. rewrite map_app, elem_of_app in Hr.
  destruct (r =? move_car m)%nat eqn:E.
  - apply Nat.eqb_eq in E. subst. exfalso. apply Hr. right. left.
  - apply IH. tauto.
Qed.

Lemma relocate_in (ms : list Move) (loc : ref -> nat) (m : Move) :
  NoDup (map move_car ms) -> m ∈ ms ->
  relocate ms loc (move_car m) = Z.to_nat (default 0%Z (move_to m)).
Proof.
  induction ms as [|m' ms IH] using rev_ind; intros Hnd Hm; [inversion Hm|].
  rewrite relocate_snoc. rewrite map_app in Hnd.
  apply NoDup_app in Hnd as (Hnd & Hdis & _).
  apply elem_of_app in Hm as [Hm|Hm].
  - destruct (move_car m =? move_car m')%nat eqn:E.
    + apply Nat.eqb_eq in E. exfalso.
      apply (Hdis (move_car m)).
      * apply list_elem_of_fmap. eauto.
      * rewrite E. left.
    + auto.
  - apply list_elem_of_singleton in Hm as ->. rewrite Nat.eqb_refl. reflexivity.
Qed.

Lemma elem_of_delete_NoDup (l : list ref) (idx : nat) (x y : ref) :
  NoDup l -> l !! idx = Some x ->
  y ∈ delete idx l <-> y ∈ l /\ y <> x.
Proof.
  intros Hnd Hx. rewrite delete_take_drop.
  pose proof (take_drop_middle l idx x Hx) as E.
  remember (take idx l) as t eqn:Et. remember (drop (S idx) l) as d eqn:Ed.
  clear Et Ed Hx. subst l.
  apply NoDup_app in Hnd as (_ & Hdis & Hnd).
  apply NoDup_cons in Hnd as [Hx2 _].
  rewrite !elem_of_app, elem_of_cons. split.
  - intros [H|H]; (split; [tauto|]); intros ->.
    + apply (Hdis x H). left.
    + contradiction.
  - intros [[H|[->|H]] Hne]; tauto.
Qed.

Lemma owner_index_ext (g g' : Game) (c c' : Car) :
  length (segments g') = length (segments g) -> car_z c' = car_z c ->
  owner_index g' c' = owner_index g c.
Proof. intros Hl Hz. unfold owner_index. rewrite Hl, Hz. reflexivity. Qed.

Lemma index_differs_false (i : nat) (k : option Z) :
  index_differs i k = false -> k = Some (Z.of_nat i).
Proof.
  unfold index_differs. destruct k as [k|]; [|discriminate].
  intros H. apply negb_false_iff, Z.eqb_eq in H. now subst.
Qed.

(** The first phase leaves every car either where its depth says it
    belongs, or with exactly one pending move to that place. *)
Lemma phase1_owned dt pz g loc g1 ms :
  refs_valid g -> Located g loc ->
  (forall r c, carObjs g !! r = Some c ->
               owner_index g c = Some (Z.of_nat (loc r))) ->
  foldM (visit_step dt pz (trackLength g)) (g, []) (visits g) = Some (g1, ms) ->
  NoDup (map move_car ms)
  /\ (forall m, m ∈ ms ->
        move_from m = loc (move_car m)
        /\ (move_car m < length (carObjs g))%nat
        /\ forall c', carObjs g1 !! move_car m = Some c' ->
                      owner_index g c' = move_to m)
  /\ (forall r c', r ∉ map move_car ms -> carObjs g1 !! r = Some c' ->
                   owner_index g c' = Some (Z.of_nat (loc r))).
Proof.
  intros Hrefs HL Hown E.
  destruct (Located_visits g loc HL) as [Hnd Hvis].
  pose (P := fun (done : list (nat * ref)) (st : Game * list Move) =>
    segments (fst st) = segments g
    /\ length (carObjs (fst st)) = length (carObjs g)
    /\ (forall r, r ∉ done.*2 -> carObjs (fst st) !! r = carObjs g !! r)
    /\ NoDup (map move_car (snd st))
    /\ (forall m, m ∈ snd st ->
          move_car m ∈ done.*2 /\ move_from m = loc (move_car m)
          /\ (move_car m < length (carObjs g))%nat
          /\ forall c', carObjs (fst st) !! move_car m = Some c' ->
                        owner_index g c' = move_to m)
    /\ (forall r c', r ∈ done.*2 -> r ∉ map move_car (snd st) ->
          carObjs (fst st) !! r = Some c' ->
          owner_index g c' = Some (Z.of_nat (loc r)))).
  destruct (foldM_invariant (visit_step dt pz (trackLength g)) P (visits g)
              [] (g, [])) as (st' & E' & HP).
  - unfold P. simpl.
    split; [reflexivity|]. split; [reflexivity|]. split; [auto|].
    split; [constructor|]. split.
    + intros m Hm. inversion Hm.
    + intros r c' Hr. inversion Hr.
  - intros done [i r] rest [g' ms'] Hsplit (Hs & Hl & Hun & Hnd' & Hmv & Hst).
    simpl in Hsplit, Hs, Hl, Hun, Hnd', Hmv, Hst.
    assert (Hv : (i, r) ∈ visits g).
    { rewrite Hsplit. apply elem_of_app. right. left. }
    destruct (Hvis i r Hv) as [Hlt Hloc].
    assert (Hfresh : r ∉ done.*2).
    { rewrite Hsplit, fmap_app in Hnd. apply NoDup_app in Hnd as (_ & Hdis & _).
      intros Hin. apply (Hdis r Hin). simpl. left. }
    destruct (lookup_lt_is_Some_2 _ _ Hlt) as [c Hc].
    pose proof (eq_trans (Hun r Hfresh) Hc) as Hc'.
    rewrite (visit_step_eq _ _ _ _ _ _ _ _ Hc'). eexists. split; [reflexivity|].
    destruct (game_after_frame dt pz (trackLength g) g' c) as (_ & F2 & F3).
    destruct (car_after_fields dt pz (trackLength g) g' c) as (Ez & _ & _).
    assert (Hlen' : length (carObjs g') = length (carObjs g)) by exact Hl.
    assert (Hnotin : r ∉ map move_car ms').
    { intros Hin. apply list_elem_of_fmap in Hin as (m & -> & Hm).
      apply Hfresh. now apply Hmv. }
    assert (Hk : owner_index g' (set_car_z (advance_z dt (trackLength g) c) c)
                 = owner_index g (car_after dt pz (trackLength g) g' c)).
    { apply owner_index_ext; [now rewrite Hs | now rewrite Ez]. }
    unfold P. simpl. rewrite fmap_app. simpl.
    split; [|split; [|split; [|split; [|split]]]].
    + congruence.
    + rewrite length_insert. exact Hl.
    + intros r' Hr'. rewrite elem_of_app, list_elem_of_singleton in Hr'.
      rewrite list_lookup_insert_ne by (intros ->; tauto).
      apply Hun. tauto.
    + rewrite map_app. apply NoDup_app. split; [exact Hnd'|]. split.
      * intros r' Hr' Hin. unfold move_of in Hin.
        destruct (index_differs _ _); simpl in Hin; [|inversion Hin].
        apply list_elem_of_singleton in Hin. subst. contradiction.
      * unfold move_of. destruct (index_differs _ _); simpl;
          [apply NoDup_singleton | constructor].
    + intros m Hm. apply elem_of_app in Hm as [Hm|Hm].
      * destruct (Hmv m Hm) as (H1 & H2 & H3 & H4).
        split_and!; auto.
        -- apply elem_of_app. now left.
        -- intros c'. rewrite list_lookup_insert_ne by (intros ->; tauto).
           apply H4.
      * unfold move_of in Hm.
        destruct (index_differs _ _); simpl in Hm; [|inversion Hm].
        apply list_elem_of_singleton in Hm. subst m. simpl. split_and!; auto.
        -- apply elem_of_app. right. left.
        -- intros c'. rewrite list_lookup_insert_eq by (rewrite Hl; exact Hlt).
           intros [= <-]. symmetry. exact Hk.
    + intros r' c' Hr' Hnot. rewrite map_app, elem_of_app in Hnot.
      apply elem_of_app in Hr' as [Hr'|Hr'].
      * rewrite list_lookup_insert_ne by (intros ->; tauto).
        apply Hst; tauto.
      * apply list_elem_of_singleton in Hr'. subst r'.
        rewrite list_lookup_insert_eq by (rewrite Hl; exact Hlt).
        intros [= <-]. rewrite <- Hk. unfold move_of in Hnot.
        destruct (index_differs _ _) eqn:Hd.
        -- exfalso. apply Hnot. right. simpl. left.
        -- apply index_differs_false in Hd. rewrite Hd, Hloc. reflexivity.
  - simpl in E'. rewrite E in E'. injection E' as <-.
    destruct HP as (Hs & Hl & Hun & Hnd' & Hmv & Hst). simpl in *.
    split; [exact Hnd'|]. split.
    + intros m Hm. destruct (Hmv m Hm) as (_ & H2 & H3 & H4). auto.
    + intros r c' Hnot Hc'.
      destruct (decide (r ∈ (visits g).*2)) as [Hin|Hout].
      * eapply Hst; eauto.
      * rewrite (Hun r Hout) in Hc'. eauto.
Qed.

(** One move takes the car out of the array that held it and into the
    array of its target, and touches no other car. *)
Lemma moveCar_Located (h : Game) (m : Move) (loc : ref -> nat) :
  Located h loc -> move_ok (length (segments h)) m ->
  loc (move_car m) = move_from m ->
  (move_car m < length (carObjs h))%nat ->
  exists h',
    moveCar h m = Some h' /\ h' = set_segments (segments h') h /\
    length (segments h') = length (segments h) /\
    Located h' (fun r => if (r =? move_car m)%nat
                         then Z.to_nat (default 0%Z (move_to m)) else loc r).
Proof.
  intros HL Hok Hloc Hlt.
  destruct (moveCar_result h m Hok)
    as (h' & E & Hset & Hlen & fs & k & ts & Hfs & Hto & Hne & Hts & Hcase).
  exists h'. split; [exact E|]. split; [exact Hset|]. split; [exact Hlen|].
  destruct (HL _ _ Hfs) as [Hnd_f Hmem_f].
  destruct (HL _ _ Hts) as [Hnd_t Hmem_t].
  destruct Hcase as [[Hnot _] | (idx & Hidx & Hpt)].
  { exfalso. apply Hnot. apply Hmem_f. auto. }
  assert (Hobjs : carObjs h' = carObjs h) by (rewrite Hset; reflexivity).
  rewrite Hto. simpl. rewrite Nat2Z.id.
  intros j sg' Hj. rewrite Hobjs. rewrite Hpt in Hj.
  destruct (decide (j = k)) as [->|Hjk].
  - injection Hj as <-. simpl. split.
    + apply NoDup_app. split; [exact Hnd_t|]. split; [|apply NoDup_singleton].
      intros r Hr Hr'. apply list_elem_of_singleton in Hr'. subst r.
      apply Hmem_t in Hr as [_ Hr]. congruence.
    + intros r. rewrite elem_of_app, list_elem_of_singleton, Hmem_t.
      destruct (Nat.eqb_spec r (move_car m)) as [->|Hr]; [tauto|].
      split; [intros [H|H]; [exact H | contradiction] | tauto].
  - destruct (decide (j = move_from m)) as [->|Hjf].
    + injection Hj as <-. simpl. split.
      * eapply sublist_NoDup; [exact Hnd_f | apply sublist_delete].
      * intros r. rewrite (elem_of_delete_NoDup _ _ _ _ Hnd_f Hidx), Hmem_f.
        destruct (Nat.eqb_spec r (move_car m)) as [->|Hr].
        -- split; [tauto | intros [_ H]; congruence].
        -- tauto.
    + destruct (HL _ _ Hj) as [Hnd Hmem]. split; [exact Hnd|].
      intros r. rewrite Hmem.
      destruct (Nat.eqb_spec r (move_car m)) as [->|Hr]; [|tauto].
      split; [intros [_ H]; congruence | intros [_ H]; congruence].
Qed.

Lemma phase2_owned (g1 : Game) (ms : list Move) (loc : ref -> nat) :
  Located g1 loc ->
  Forall (move_ok (length (segments g1))) ms ->
  NoDup (map move_car ms) ->
  (forall m, m ∈ ms -> move_from m = loc (move_car m)
                       /\ (move_car m < length (carObjs g1))%nat) ->
  exists g2,
    foldM moveCar g1 ms = Some g2 /\ g2 = set_segments (segments g2) g1 /\
    length (segments g2) = length (segments g1) /\
    Located g2 (relocate ms loc).
Proof.
  intros HL Hok Hnd Hms.
  pose (P := fun (dm : list Move) (h : Game) =>
    h = set_segments (segments h) g1
    /\ length (segments h) = length (segments g1)
    /\ Located h (relocate dm loc)).
  destruct (foldM_invariant moveCar P ms [] g1) as (g2 & E & HP).
  - unfold P. auto using set_segments_id.
  - intros dm m rest h Hsplit (Hset & Hlen & HLh). simpl in Hsplit.
    assert (Hin : m ∈ ms) by (rewrite Hsplit; apply elem_of_app; right; left).
    destruct (Hms m Hin) as [Hfrom Hlt].
    assert (Hfresh : move_car m ∉ map move_car dm).
    { rewrite Hsplit, map_app in Hnd. apply NoDup_app in Hnd as (_ & Hdis & _).
      intros Hc. apply (Hdis _ Hc). simpl. left. }
    destruct (moveCar_Located h m (relocate dm loc) HLh)
      as (h' & E' & Hset' & Hlen' & HL').
    + rewrite Hlen. rewrite Forall_forall in Hok. auto.
    + rewrite relocate_notin by exact Hfresh. auto.
    + rewrite Hset. exact Hlt.
    + exists h'. split; [exact E'|]. unfold P.
      split; [rewrite Hset', Hset; reflexivity|]. split; [congruence|].
      intros j sg Hj. destruct (HL' j sg Hj) as [H1 H2]. split; [exact H1|].
      intros r. rewrite H2, relocate_snoc. reflexivity.
  - exists g2. exact (conj E HP).
Qed.

Lemma Located_same (g g' : Game) (loc : ref -> nat) :
  segments g' = segments g -> length (carObjs g') = length (carObjs g) ->
  Located g loc -> Located g' loc.
Proof. intros Hs Hl HL j sg. rewrite Hs, Hl. apply HL. Qed.

Lemma Owned_same (g g' : Game) :
  segments g' = segments g -> carObjs g' = carObjs g -> Owned g -> Owned g'.
Proof.
  intros Hs Ho (loc & HL & Hown). exists loc. split.
  - eapply Located_same; eauto. now rewrite Ho.
  - intros r c. rewrite Ho. intros Hc.
    rewrite (owner_index_ext g g' c c) by (now rewrite ?Hs). eauto.
Qed.

Lemma updateTraffic_owned dt d g g' :
  track_wf g = true -> Owned g -> dt = Num d -> 0 <= d ->
  updateTraffic dt g = Some g' -> Owned g'.
Proof.
  intros Hwf (loc & HL & Hown) Hdt Hd E.
  destruct (phase1_total dt d (position g + CAMERA_HEIGHT)%num g Hwf Hdt Hd)
    as (g1 & ms & E1 & Hs1 & Hl1 & _ & _ & Hm1).
  apply track_wf_iff in Hwf as (HN & Hrefs & _).
  destruct (phase1_owned dt _ g loc g1 ms Hrefs HL Hown E1)
    as (Hnd & Hmv & Hst).
  assert (HL1 : Located g1 loc) by (eapply Located_same; eauto).
  rewrite <- Hs1 in Hm1.
  destruct (phase2_owned g1 ms loc HL1 Hm1 Hnd) as (g2 & E2 & Hset & Hl2 & HL2).
  { intros m Hm. destruct (Hmv m Hm) as (H1 & H2 & _). rewrite Hl1. auto. }
  rewrite updateTraffic_flat, E1 in E. simpl in E. rewrite E2 in E. simpl in E.
  assert (Hown2 : Owned g2).
  { exists (relocate ms loc). split; [exact HL2|].
    intros r c'. rewrite Hset. simpl. intros Hc'.
    rewrite (owner_index_ext g _ c' c') by (simpl; congruence).
    destruct (decide (r ∈ map move_car ms)) as [Hin|Hout].
    - apply list_elem_of_fmap in Hin as (m & -> & Hm).
      rewrite (relocate_in ms loc m Hnd Hm).
      destruct (Hmv m Hm) as (_ & _ & Hto). rewrite (Hto c' Hc').
      rewrite Forall_forall in Hm1. destruct (Hm1 m Hm) as (_ & k & -> & _).
      simpl. rewrite Nat2Z.id. reflexivity.
    - rewrite (relocate_notin ms loc r Hout). eauto. }
  injection E as <-.
  destruct (speed g2 >? Num 0)%num; [|exact Hown2].
  eapply Owned_same; [| |exact Hown2]; reflexivity.
Qed.

(** [update] keeps the invariant, and returns. *)
Lemma update_Inv dt cmd g :
  Inv g -> tick_ok dt = true ->
  exists g', update dt cmd g = Some g' /\ Inv g'.
Proof.
  intros (Ht & Hp & Ho) Hdt.
  destruct (update_total dt cmd g Ht Hp Hdt) as (g' & E & Ht' & Hp').
  exists g'. split; [exact E|]. split; [exact Ht'|]. split; [exact Hp'|].
  rewrite update_parts in E. destruct (isGameOver g).
  { injection E as <-. exact Ho. }
  pose proof (proj1 (track_wf_iff g) Ht) as (HN & _ & _).
  destruct (move_player_total dt cmd g HN Hp Hdt)
    as (g1 & sg & _ & E1 & Hs1 & Ho1 & _ & _ & _ & _).
  rewrite E1 in E. simpl in E.
  destruct (updateTraffic dt g1) as [g2|] eqn:E2; simpl in E; [|discriminate].
  apply tick_ok_iff in Hdt as (d & Ed & Hd0 & _).
  assert (Ho2 : Owned g2).
  { eapply (updateTraffic_owned dt d g1); eauto.
    - rewrite (track_wf_same g g1); auto.
    - eapply Owned_same; eauto.
    - lra. }
  destruct (checkSpriteCollisions_cases g2 g' E) as [-> | ->]; [exact Ho2|].
  destruct (crash_fields g2) as (_ & _ & _ & _ & _ & Hs & Hobj & _).
  eapply Owned_same; eauto.
Qed.

Lemma run_Inv (inputs : list (num * Command)) :
  Forall (fun x => tick_ok (fst x) = true) inputs ->
  forall g, Inv g -> exists g', run inputs g = Some g' /\ Inv g'.
Proof.
  induction 1 as [|[dt cmd] inputs Hdt _ IH]; intros g Hg.
  - exists g. split; [reflexivity | exact Hg].
  - destruct (update_Inv dt cmd g Hg Hdt) as (g1 & E1 & Hg1).
    destruct (IH g1 Hg1) as (g' & E' & Hg').
    exists g'. split; [|exact Hg']. unfold run. simpl. rewrite E1. exact E'.
Qed.

Lemma Inv_single_owner (g : Game) : Inv g -> single_owner g.
Proof.
  intros (Ht & _ & loc & HL & Hown) r c Hc.
  apply track_wf_iff in Ht as (HN & _ & Hcars).
  pose proof (proj1 (Forall_lookup _ _) Hcars r c Hc) as Hwf.
  apply car_wf_iff in Hwf as (z & v & Hz & _ & Hz0 & _).
  pose proof (Hown r c Hc) as Hidx.
  rewrite (owner_index_nonneg g c z Hz Hz0) in Hidx by (rewrite HN; discriminate).
  assert (Hidx' : (Qfloor (z / 200) mod Z.of_nat (length (segments g)))%Z
                  = Z.of_nat (loc r)) by congruence.
  clear Hidx. rename Hidx' into Hidx.
  assert (Hlt : (loc r < length (segments g))%nat).
  { assert (0 < Z.of_nat (length (segments g)))%Z by (rewrite HN; reflexivity).
    pose proof (Z.mod_pos_bound (Qfloor (z / 200)) _ H) as Hb.
    rewrite Hidx in Hb. lia. }
  destruct (lookup_lt_is_Some_2 _ _ Hlt) as [sg Hsg].
  destruct (HL _ _ Hsg) as [Hnd Hmem].
  exists (loc r), sg, z. split; [exact Hsg|]. split.
  { apply Hmem. split; [|reflexivity]. eapply lookup_lt_Some; eauto. }
  split; [exact Hnd|]. split; [|split; [exact Hz | now rewrite Hidx]].
  intros j sg' Hj Hr. destruct (HL _ _ Hj) as [_ Hmem'].
  apply Hmem' in Hr as [_ Hr]. now symmetry.
Qed.

(** ** [resetRoad] builds a track that satisfies the invariant *)

Lemma Built_push (n : nat) (g : Game) :
  Built n g ->
  Built (S n) (set_segments (segments g ++ [new_segment n]) g).
Proof.
  intros (Hlen & loc & HL & Hcars). split.
  { simpl. rewrite length_app, Hlen. simpl. lia. }
  exists loc. split.
  - intros j sg. simpl. intros Hj.
    apply lookup_app_Some in Hj as [Hj | [Hge Hj]].
    + apply HL. exact Hj.
    + rewrite Hlen in Hj, Hge.
      destruct (j - n)%nat as [|?] eqn:Ej; simpl in Hj; [|discriminate].
      injection Hj as <-. simpl. split; [constructor|].
      intros r. split; [intros H; inversion H|].
      intros [Hr Hloc]. exfalso.
      destruct (lookup_lt_is_Some_2 _ _ Hr) as [c Hc].
      destruct (Hcars r c Hc) as [Hlt _]. lia.
  - intros r c Hc. simpl in Hc. destruct (Hcars r c Hc) as (H1 & H2 & H3).
    split; [lia | auto].
Qed.

Lemma Built_addCar (n i : nat) (g : Game) (offset : num) (v : Q) (r : Q) :
  Built n g -> (i < n)%nat -> 0 <= v ->
  exists g', addCar i offset (Num v) r g = Some g' /\ Built n g'
             /\ player_frame g g'.
Proof.
  intros (Hlen & loc & HL & Hcars) Hi Hv.
  assert (Hlt : (i < length (segments g))%nat) by lia.
  destruct (lookup_lt_is_Some_2 _ _ Hlt) as [sg Hsg].
  unfold addCar. rewrite Hsg. simpl. eexists. split; [reflexivity|].
  split; [|unfold player_frame; simpl; tauto].
  split; [simpl; rewrite length_insert; exact Hlen|].
  set (new := length (carObjs g)).
  exists (fun x => if (x =? new)%nat then i else loc x). split.
  - intros j sg'. simpl. rewrite length_app. simpl. intros Hj.
    assert (Hold : forall k s x, segments g !! k = Some s -> x ∈ cars s ->
                                 (x < new)%nat).
    { intros k s x Hk Hx. destruct (HL k s Hk) as [_ Hmem]. now apply Hmem. }
    destruct (decide (j = i)) as [->|Hji].
    + rewrite list_lookup_insert_eq in Hj by exact Hlt. injection Hj as <-.
      destruct (HL i sg Hsg) as [Hnd Hmem]. simpl. split.
      * apply NoDup_app. split; [exact Hnd|]. split; [|apply NoDup_singleton].
        intros x Hx Hx'. apply list_elem_of_singleton in Hx'. subst x.
        pose proof (Hold i sg new Hsg Hx). lia.
      * intros x. rewrite elem_of_app, list_elem_of_singleton, Hmem.
        destruct (Nat.eqb_spec x new) as [->|Hx]; fold new.
        -- split; [intros _; split; [lia | reflexivity] | tauto].
        -- split; [intros [[? ?]|?]; [split; [lia|auto] | contradiction]|].
           intros [? ?]. left. split; [lia | auto].
    + rewrite list_lookup_insert_ne in Hj by congruence.
      destruct (HL j sg' Hj) as [Hnd Hmem]. split; [exact Hnd|].
      intros x. rewrite Hmem. fold new.
      destruct (Nat.eqb_spec x new) as [->|Hx].
      * split; [intros [? ?]; lia | intros [_ ?]; congruence].
      * split; intros [? ?]; (split; [lia | auto]).
  - intros x c. simpl. intros Hc.
    apply lookup_app_Some in Hc as [Hc | [Hge Hc]].
    + pose proof (lookup_lt_Some _ _ _ Hc) as Hx. fold new in Hx.
      destruct (Nat.eqb_spec x new) as [->|_]; [lia|]. eauto.
    + fold new in Hge, Hc.
      destruct (x - new)%nat as [|?] eqn:Ex; simpl in Hc; [|discriminate].
      injection Hc as <-. simpl.
      replace x with new by lia. rewrite Nat.eqb_refl. eauto.
Qed.

Lemma Built_addSprite (n i : nat) (g : Game) (offset : num) (t : SpriteType) :
  Built n g -> (i < n)%nat ->
  exists g', addSprite i offset t g = Some g' /\ Built n g'
             /\ player_frame g g'.
Proof.
  intros (Hlen & loc & HL & Hcars) Hi.
  assert (Hlt : (i < length (segments g))%nat) by lia.
  destruct (lookup_lt_is_Some_2 _ _ Hlt) as [sg Hsg].
  unfold addSprite. rewrite Hsg. simpl. eexists. split; [reflexivity|].
  split; [|unfold player_frame; simpl; tauto].
  split; [simpl; rewrite length_insert; exact Hlen|].
  exists loc. split; [|exact Hcars].
  intros j sg'. simpl. intros Hj.
  destruct (decide (j = i)) as [->|Hji].
  - rewrite list_lookup_insert_eq in Hj by exact Hlt. injection Hj as <-.
    simpl. apply (HL i sg Hsg).
  - rewrite list_lookup_insert_ne in Hj by congruence. apply (HL j sg' Hj).
Qed.

Lemma inject_Z_nonneg (a : Z) : (0 <= a)%Z -> 0 <= inject_Z a.
Proof. intros H. change 0 with (inject_Z 0). rewrite <- Zle_Qle. exact H. Qed.

Lemma randomInt_speed (r : Q) :
  0 <= r -> exists v, randomInt r (Num 3000) (Num 8000) = Num v /\ 0 <= v.
Proof.
  intros Hr. unfold randomInt, nfloor, nmul, nsub, nadd.
  eexists. split; [reflexivity|]. rewrite Qred_correct.
  match goal with
  | |- 0 <= inject_Z (Qfloor ?q) + 3000 =>
      assert (H : (0 <= Qfloor q)%Z)
  end.
  { change 0%Z with (Qfloor 0). apply Qfloor_resp_le. unred. nra. }
  pose proof (inject_Z_nonneg _ H). lra.
Qed.

Lemma resetRoad_iter_Built (rnd : nat -> Q) (n : nat) (g : Game) (k : nat) :
  (forall j, 0 <= rnd j) -> Built n g ->
  exists g' k',
    resetRoad_iter rnd (g, k) n = Some (g', k') /\ Built (S n) g'
    /\ player_frame g g'.
Proof.
  intros Hrnd HB. unfold resetRoad_iter.
  pose proof (Built_push n g HB) as HB1.
  set (g1 := set_segments (segments g ++ [new_segment n]) g) in *.
  assert (Hf1 : player_frame g g1) by (unfold player_frame; simpl; tauto).
  assert (Hcar : exists g2 k2,
    (if (20 <? n)%nat && (n mod 40 =? 0)%nat
     then
       if (Num (rnd k) >? Num 0.3)%num
       then
         g' ← addCar n
                (match at_index lanes
                         (floorZ (Num (rnd (k + 1)%nat) * ofNat (length lanes))%num)
                 with Some l => l | None => NaN end)
                (randomInt (rnd (k + 2)%nat) (Num 3000) (Num 8000))
                (rnd (k + 3)%nat) g1;
         Some (g', (k + 4)%nat)
       else Some (g1, (k + 1)%nat)
     else Some (g1, k)) = Some (g2, k2)
    /\ Built (S n) g2 /\ player_frame g g2).
  { destruct ((20 <? n)%nat && (n mod 40 =? 0)%nat);
      [|eexists _, _; split; [reflexivity|]; split; assumption].
    destruct (Num (rnd k) >? Num 0.3)%num;
      [|eexists _, _; split; [reflexivity|]; split; assumption].
    destruct (randomInt_speed (rnd (k + 2)%nat) (Hrnd _)) as (v & -> & Hv).
    destruct (Built_addCar (S n) n g1
                (match at_index lanes
                         (floorZ (Num (rnd (k + 1)%nat) * ofNat (length lanes))%num)
                 with Some l => l | None => NaN end)
                v (rnd (k + 3)%nat) HB1) as (g2 & -> & HB2 & Hf2); [lia|exact Hv|].
    simpl. eexists _, _. split; [reflexivity|].
    split; [exact HB2 | exact (player_frame_trans _ _ _ Hf1 Hf2)]. }
  destruct Hcar as (g2 & k2 & -> & HB2 & Hf2). cbn [mbind option_bind].
  destruct (n mod 20 =? 0)%nat;
    [|eexists _, _; split; [reflexivity|]; split; assumption].
  destruct (Num (rnd k2) >? Num 0.2)%num;
    [|eexists _, _; split; [reflexivity|]; split; assumption].
  match goal with
  | |- context [addSprite n ?o tree g2] =>
      destruct (Built_addSprite (S n) n g2 o tree HB2)
        as (g3 & -> & HB3 & Hf3); [lia|]
  end.
  simpl. eexists _, _. split; [reflexivity|].
  split; [exact HB3 | exact (player_frame_trans _ _ _ Hf2 Hf3)].
Qed.

Lemma seq_split_head (n : nat) (done : list nat) (x : nat) (rest : list nat) :
  seq 0 n = done ++ x :: rest -> x = length done.
Proof.
  intros E.
  assert (H : seq 0 n !! length done = Some x).
  { rewrite E. rewrite lookup_app_r by lia. rewrite Nat.sub_diag. reflexivity. }
  apply lookup_seq in H as [H _]. lia.
Qed.

Lemma resetRoad_Built (rnd : nat -> Q) (g0 : Game) :
  (forall j, 0 <= rnd j) ->
  exists g, resetRoad rnd g0 = Some g /\ Built TOTAL_SEGMENTS g
            /\ player_frame g0 g.
Proof.
  intros Hrnd. unfold resetRoad.
  set (gc := set_carObjs [] (set_segments [] g0)).
  pose (P := fun (done : list nat) (st : Game * nat) =>
    Built (length done) (fst st) /\ player_frame g0 (fst st)).
  destruct (foldM_invariant (resetRoad_iter rnd) P (seq 0 TOTAL_SEGMENTS)
              [] (gc, 0%nat)) as ([g k] & E & HB & Hf).
  - split; [|unfold player_frame; simpl; tauto].
    split; [reflexivity|]. exists (fun _ => 0%nat). split.
    + intros j sg Hj. inversion Hj.
    + intros r c Hc. inversion Hc.
  - intros done x rest [g k] Hsplit [HB Hf]. rewrite app_nil_l in Hsplit.
    simpl in HB, Hf.
    apply seq_split_head in Hsplit. subst x.
    destruct (resetRoad_iter_Built rnd (length done) g k Hrnd HB)
      as (g' & k' & E & HB' & Hf').
    exists (g', k'). split; [exact E|]. unfold P. simpl.
    rewrite length_app. simpl. rewrite Nat.add_1_r.
    split; [exact HB' | exact (player_frame_trans _ _ _ Hf Hf')].
  - rewrite E. exists g. split; [reflexivity|]. split; [|exact Hf].
    rewrite app_nil_l, length_seq in HB. exact HB.
Qed.

Lemma Qfloor_segment (a : Z) : Qfloor (Qred (inject_Z a * 200) / 200) = a.
Proof.
  rewrite <- (Qfloor_Z a) at 2. apply Qfloor_comp.
  rewrite Qred_correct. field.
Qed.

Lemma Built_track (g : Game) :
  Built TOTAL_SEGMENTS g -> track_wf g = true /\ Owned g.
Proof.
  intros (Hlen & loc & HL & Hcars).
  assert (Hz : forall r c, carObjs g !! r = Some c ->
            car_z c = Num (Qred (inject_Z (Z.of_nat (loc r)) * 200))
            /\ 0 <= Qred (inject_Z (Z.of_nat (loc r)) * 200)).
  { intros r c Hc. destruct (Hcars r c Hc) as (_ & -> & _).
    split; [reflexivity|]. rewrite Qred_correct.
    pose proof (inject_Z_nonneg (Z.of_nat (loc r)) ltac:(lia)). lra. }
  split.
  - apply track_wf_iff. split; [exact Hlen|]. split.
    + intros i sg r Hi Hr. destruct (HL i sg Hi) as [_ Hmem]. now apply Hmem.
    + apply Forall_lookup. intros r c Hc.
      destruct (Hz r c Hc) as [Ez Hz0].
      destruct (Hcars r c Hc) as (_ & _ & v & Ev & Hv).
      apply car_wf_iff. eauto 10.
  - exists loc. split; [exact HL|]. intros r c Hc.
    destruct (Hz r c Hc) as [Ez Hz0].
    destruct (Hcars r c Hc) as (Hlt & _ & _).
    rewrite (owner_index_nonneg g c _ Ez Hz0) by (rewrite Hlen; discriminate).
    rewrite Qfloor_segment, Hlen. f_equal.
    apply Z.mod_small. lia.
Qed.

Lemma newGame_Inv (w h stored : num) (rnd : nat -> Q) :
  (forall j, 0 <= rnd j) ->
  exists g, newGame w h stored rnd = Some g /\ Inv g.
Proof.
  intros Hrnd. unfold newGame.
  destruct (resetRoad_Built rnd
              (mkGame w h (Num 0) (Num 0) (Num 0) (Num 0) (Num 0) [] [] false
                      false (orZero stored) stored) Hrnd)
    as (g & E & HB & Hf).
  exists g. split; [exact E|].
  destruct (Built_track g HB) as [Ht Ho].
  split; [exact Ht|]. split; [|exact Ho].
  destruct HB as [Hlen _]. apply (player_wf_iff g Hlen).
  destruct Hf as (Hp & _ & _ & _ & _ & Hs). simpl in Hp, Hs.
  destruct Hs as [[Hs _]|[Hs _]]; exists 0, 0; split_and!; auto; lra.
Qed.

(** ** Projection and the road pass *)

Arguments project : simpl never.

Lemma project_behind p cx cy cz d w h rw :
  (orZero (world_z (world p)) - cz <=? Num 0)%num = true ->
  screen (project p cx cy cz d w h rw)
  = mkScreen (Num 0) (screen_x (screen p)) (screen_y (screen p))
             (screen_w (screen p)).
Proof. intros H. unfold project. simpl. rewrite H. reflexivity. Qed.

Lemma project_camera_z p cx cy cz d w h rw :
  camera_z (camera (project p cx cy cz d w h rw))
  = (orZero (world_z (world p)) - cz)%num.
Proof. unfold project. simpl. destruct (_ <=? _)%num; reflexivity. Qed.


Lemma nle_weaken (a : num) :
  (a <=? CAMERA_DEPTH)%num = false -> (a <=? Num 0)%num = false.
Proof.
  destruct a as [q|]; [|reflexivity]. unfold CAMERA_DEPTH. intros H.
  qbool. lra.
Qed.

(** ** Collisions *)

Lemma overlap_Num (x1 w1 x2 w2 : Q) :
  overlap (Num x1) (Num w1) (Num x2) (Num w2)
  = negb (Qlt_bool (Qred (x1 + Qred (w1 / 2))) (Qred (x2 - Qred (w2 / 2)))
          || Qlt_bool (Qred (x2 + Qred (w2 / 2))) (Qred (x1 - Qred (w1 / 2)))).
Proof. reflexivity. Qed.

Lemma overlap_false_iff (x1 w1 x2 w2 : Q) :
  overlap (Num x1) (Num w1) (Num x2) (Num w2) = false <->
  x1 + w1 * (1 # 2) < x2 - w2 * (1 # 2)
  \/ x2 + w2 * (1 # 2) < x1 - w1 * (1 # 2).
Proof.
  rewrite overlap_Num, negb_false_iff, orb_true_iff, !Qlt_bool_iff.
  rewrite !Qred_correct. unfold Qdiv. change (/ 2) with (1 # 2). tauto.
Qed.

Lemma overlap_true_iff (x1 w1 x2 w2 : Q) :
  overlap (Num x1) (Num w1) (Num x2) (Num w2) = true <->
  x2 - w2 * (1 # 2) <= x1 + w1 * (1 # 2)
  /\ x1 - w1 * (1 # 2) <= x2 + w2 * (1 # 2).
Proof.
  rewrite overlap_Num, negb_true_iff, orb_false_iff, !Qlt_bool_false.
  rewrite !Qred_correct. unfold Qdiv. change (/ 2) with (1 # 2). tauto.
Qed.

(** Player on the centre line against a car in an outer lane. *)
Lemma overlap_outer_lane (x o : num) :
  same x (Num 0) = true ->
  same o (Num (-0.65)) = true \/ same o (Num 0.65) = true ->
  overlap x (Num 0.15) o (Num 0.45) = false.
Proof.
  intros Hx Ho. apply same_true in Hx as (x' & ? & -> & [= <-] & Hx).
  destruct Ho as [Ho|Ho]; apply same_true in Ho as (o' & ? & -> & [= <-] & Ho);
    apply overlap_false_iff; lra.
Qed.

(** Player and car on the same lateral offset. *)
Lemma overlap_same_offset (x o : num) :
  same o x = true -> overlap x (Num 0.15) o (Num 0.45) = true.
Proof.
  intros H. apply same_true in H as (o' & x' & -> & -> & H).
  apply overlap_true_iff. lra.
Qed.

Lemma game_after_no_hit dt pz tl g c :
  collides dt pz tl g c = false ->
  isGameOver (game_after dt pz tl g c) = isGameOver g
  /\ speed (game_after dt pz tl g c) = speed g
  /\ playerX (game_after dt pz tl g c) = playerX g.
Proof.
  intros H. unfold game_after. rewrite H.
  destruct (closeCall_fires dt pz tl g c); simpl; auto.
Qed.

Lemma game_after_hit dt pz tl g c :
  collides dt pz tl g c = true ->
  isGameOver (game_after dt pz tl g c) = true
  /\ speed (game_after dt pz tl g c) = Num 0.
Proof.
  intros H. unfold game_after. rewrite H.
  destruct (closeCall_fires dt pz tl g c);
    match goal with
    | |- context [crash ?h] =>
        destruct (crash_fields h) as (? & ? & _)
    end; auto.
Qed.

(** After the loops, the moves and the score of [updateTraffic] change
    neither the game-over flag nor a speed of zero. *)
Lemma updateTraffic_tail dt g1 ms g' :
  (g2 ← foldM moveCar g1 ms;
   Some (if (speed g2 >? Num 0)%num
         then set_score (score g2 + speed g2 / Num 1000 * dt * Num 10)%num g2
         else g2)) = Some g' ->
  isGameOver g' = isGameOver g1 /\ speed g' = speed g1
  /\ playerX g' = playerX g1.
Proof.
  destruct (foldM moveCar g1 ms) as [g2|] eqn:E2; simpl; [|discriminate].
  assert (H2 : g2 = set_segments (segments g2) g1).
  { revert E2.
    apply (foldM_preserves _ (fun h => h = set_segments (segments h) g1));
      [|apply set_segments_id].
    intros h m h' _ Hh Hm. apply moveCar_set_segments in Hm.
    rewrite Hm, Hh. reflexivity. }
  intros [= <-]. rewrite H2.
  destruct (speed _ >? Num 0)%num; simpl; auto.
Qed.

(** No car whose hitbox overlaps the player's: no crash in [updateTraffic]. *)
Lemma updateTraffic_no_crash dt g g' :
  Forall (fun c => overlap (playerX g) (Num 0.15) (car_offset c) (Num 0.45)
                   = false) (carObjs g) ->
  updateTraffic dt g = Some g' ->
  isGameOver g' = isGameOver g /\ speed g' = speed g.
Proof.
  intros Hcars. rewrite updateTraffic_flat.
  destruct (foldM (visit_step _ _ _) _ _) as [[g1 ms]|] eqn:E1;
    cbn [mbind option_bind fst snd]; [|discriminate].
  intros E. apply updateTraffic_tail in E as (Eo & Es & _).
  rewrite Eo, Es.
  assert (H : isGameOver g1 = isGameOver g /\ speed g1 = speed g
              /\ playerX g1 = playerX g
              /\ Forall (fun c => overlap (playerX g) (Num 0.15) (car_offset c)
                                          (Num 0.45) = false) (carObjs g1)).
  { revert E1.
    apply (foldM_preserves _
      (fun st => isGameOver (fst st) = isGameOver g /\ speed (fst st) = speed g
                 /\ playerX (fst st) = playerX g
                 /\ Forall (fun c => overlap (playerX g) (Num 0.15)
                                       (car_offset c) (Num 0.45) = false)
                           (carObjs (fst st)))); [|simpl; auto].
    intros st v st' _ (Ho & Hs & Hx & Hc) Hstep.
    apply visit_step_inv in Hstep as (c & Hlook & ->).
    cbn [fst snd].
    pose proof (proj1 (Forall_lookup _ _) Hc _ _ Hlook) as Hov.
    simpl in Hov.
    assert (Hcol : collides dt (position g + CAMERA_HEIGHT)%num (trackLength g)
                            (fst st) c = false).
    { unfold collides. rewrite Hx, Hov. apply andb_false_r. }
    destruct (game_after_no_hit _ _ _ _ _ Hcol) as (Ho' & Hs' & Hx').
    destruct (car_after_fields dt (position g + CAMERA_HEIGHT)%num
                (trackLength g) (fst st) c) as (_ & _ & Eoff).
    simpl. split; [congruence|]. split; [congruence|]. split; [congruence|].
    apply Forall_insert; [exact Hc|]. rewrite Eoff. exact Hov. }
  tauto.
Qed.

Lemma collides_ext dt pz tl g g' c :
  playerX g' = playerX g -> collides dt pz tl g' c = collides dt pz tl g c.
Proof. intros H. unfold collides. rewrite H. reflexivity. Qed.

Lemma player_frame_over (g g' : Game) :
  player_frame g g' -> isGameOver g = true /\ speed g = Num 0 ->
  isGameOver g' = true /\ speed g' = Num 0.
Proof.
  intros (_ & _ & _ & _ & _ & [[Hs Ho]|[Hs Ho]]) [H1 H2]; split; congruence.
Qed.

(** A car of the track whose hitbox meets the player's within the
    collision window: [updateTraffic] ends with the game over. *)
Lemma updateTraffic_crash dt d g i sg r c :
  track_wf g = true -> dt = Num d -> 0 <= d ->
  segments g !! i = Some sg -> r ∈ cars sg -> carObjs g !! r = Some c ->
  collides dt (position g + CAMERA_HEIGHT)%num (trackLength g) g c = true ->
  exists g', updateTraffic dt g = Some g'
             /\ isGameOver g' = true /\ speed g' = Num 0.
Proof.
  intros Hwf Hdt Hd Hi Hr Hc Hcol.
  destruct (updateTraffic_total dt d g Hwf Hdt Hd) as (g' & E & _ & _).
  exists g'. split; [exact E|].
  apply track_wf_iff in Hwf as (_ & Hrefs & _).
  rewrite updateTraffic_flat in E.
  set (pz := (position g + CAMERA_HEIGHT)%num) in *.
  pose (P := fun (done : list (nat * ref)) (st : Game * list Move) =>
    playerX (fst st) = playerX g
    /\ length (carObjs (fst st)) = length (carObjs g)
    /\ (r ∉ done.*2 -> carObjs (fst st) !! r = Some c)
    /\ (r ∈ done.*2 -> isGameOver (fst st) = true /\ speed (fst st) = Num 0)).
  destruct (foldM_invariant (visit_step dt pz (trackLength g)) P (visits g)
              [] (g, [])) as ([g1 ms] & E1 & _ & _ & _ & Hover).
  - unfold P. simpl. split; [reflexivity|]. split; [reflexivity|].
    split; [auto|]. intros H. inversion H.
  - intros done [i' r'] rest [gb msb] Hsplit (Hx & Hl & Hun & Hdn).
    simpl in Hsplit, Hx, Hl, Hun, Hdn.
    assert (Hv : (i', r') ∈ visits g).
    { rewrite Hsplit. apply elem_of_app. right. left. }
    apply visits_spec in Hv as (sg' & Hi' & Hr').
    pose proof (Hrefs i' sg' r' Hi' Hr') as Hlt. rewrite <- Hl in Hlt.
    destruct (lookup_lt_is_Some_2 _ _ Hlt) as [c' Hc'].
    rewrite (visit_step_eq _ _ _ _ _ _ _ _ Hc'). eexists. split; [reflexivity|].
    destruct (game_after_frame dt pz (trackLength g) gb c') as (F1 & _ & _).
    pose proof F1 as (_ & Fx & _).
    unfold P. simpl. rewrite fmap_app. simpl.
    split; [congruence|]. split; [rewrite length_insert; exact Hl|].
    destruct (decide (r' = r)) as [->|Hne].
    + split.
      * intros Hnot. exfalso. apply Hnot. apply elem_of_app. right. left.
      * intros _. destruct (decide (r ∈ done.*2)) as [Hin|Hout].
        -- eapply player_frame_over; eauto.
        -- pose proof (Hun Hout) as Hsame.
           assert (Some c = Some c') as [= <-]
               by exact (eq_trans (eq_sym Hsame) Hc').
           apply game_after_hit.
           rewrite (collides_ext dt pz (trackLength g) g gb c Hx). exact Hcol.
    + split.
      * intros Hnot. rewrite list_lookup_insert_ne by exact Hne.
        apply Hun. intros Hin. apply Hnot. apply elem_of_app. now left.
      * intros Hin. apply elem_of_app in Hin as [Hin|Hin].
        -- eapply player_frame_over; eauto.
        -- apply list_elem_of_singleton in Hin. congruence.
  - rewrite E1 in E. cbn [mbind option_bind fst snd] in E.
    apply updateTraffic_tail in E as (Eo & Es & _). rewrite Eo, Es.
    apply Hover. simpl. apply list_elem_of_fmap. exists (i, r).
    split; [reflexivity|]. apply visits_spec. eauto.
Qed.

(** ** The close-call bonus *)

Lemma car_after_flag dt pz tl g c :
  justPassed (car_after dt pz tl g c)
  = if (nabs (car_dist dt pz tl c) >? Num 1000)%num then false
    else closeCall_fires dt pz tl g c || justPassed c.
Proof.
  unfold car_after.
  destruct (closeCall_fires dt pz tl g c), (nabs _ >? Num 1000)%num;
    reflexivity.
Qed.

Lemma game_after_score dt pz tl g c :
  score (game_after dt pz tl g c)
  = if closeCall_fires dt pz tl g c then (score g + Num 500)%num else score g.
Proof.
  unfold game_after.
  destruct (closeCall_fires dt pz tl g c), (collides dt pz tl g c);
    try match goal with
    | |- context [crash ?h] =>
        rewrite (proj1 (proj2 (proj2 (proj2 (proj2 (crash_fields h))))))
    end; reflexivity.
Qed.

Lemma same_offset_no_bonus dt pz tl g c :
  same (car_offset c) (playerX g) = true ->
  closeCall_fires dt pz tl g c = false.
Proof.
  intros H. apply same_true in H as (o & x & Ho & Hx & E).
  unfold closeCall_fires. rewrite Ho, Hx.
  assert (Hl : (nabs (Num x - Num o) >? Num 0.35)%num = false).
  { unfold nabs, nsub. destruct (Qle_bool 0 _); qbool; rewrite Qred_correct; lra. }
  rewrite Hl, !andb_false_r. reflexivity.
Qed.

Lemma window_not_far (d : num) :
  (d <? Num (-100))%num = true -> (d >? Num (-300))%num = true ->
  (nabs d >? Num 1000)%num = false.
Proof.
  destruct d as [q|]; [|discriminate]. intros H1 H2. unfold nabs.
  destruct (Qle_bool 0 q) eqn:E; qbool; lra.
Qed.

Lemma fires_in_window dt pz tl g c :
  closeCall_fires dt pz tl g c = true ->
  (nabs (car_dist dt pz tl c) >? Num 1000)%num = false.
Proof.
  unfold closeCall_fires. intros H.
  apply andb_true_iff in H as [H _]. apply andb_true_iff in H as [H _].
  apply andb_true_iff in H as [H1 H2]. now apply window_not_far.
Qed.


(** * Further properties of the code *)

(** ** [findSegment], the relative depth, [overlap] *)

Lemma Qfloor_unique (k : Z) (x : Q) :
  inject_Z k <= x -> x < inject_Z (k + 1) -> Qfloor x = k.
Proof.
  intros Hlo Hhi. apply Z.le_antisymm.
  - assert (H : inject_Z (Qfloor x) < inject_Z (k + 1)).
    { eapply Qle_lt_trans; [apply Qfloor_le | exact Hhi]. }
    rewrite <- Zlt_Qlt in H. lia.
  - rewrite <- (Qfloor_Z k). now apply Qfloor_resp_le.
Qed.

Lemma Qfloor_add_Z (x : Q) (n : Z) : Qfloor (x + inject_Z n) = (Qfloor x + n)%Z.
Proof.
  apply Qfloor_unique.
  - rewrite inject_Z_plus. pose proof (Qfloor_le x). lra.
  - replace (Qfloor x + n + 1)%Z with ((Qfloor x + 1) + n)%Z by lia.
    rewrite inject_Z_plus. pose proof (Qlt_floor x). lra.
Qed.

Lemma findSegment_Num (g : Game) (z : Q) :
  0 <= z -> length (segments g) <> 0%nat ->
  findSegment g (Num z)
  = segments g
      !! Z.to_nat (Qfloor (z / 200) mod Z.of_nat (length (segments g))).
Proof.
  intros Hz HN. unfold findSegment.
  destruct (floorZ_div_nonneg z Hz) as (k & -> & Hk & ->).
  rewrite zrem_nonneg by assumption. unfold at_index.
  assert (0 < Z.of_nat (length (segments g)))%Z by lia.
  pose proof (Z.mod_pos_bound (Qfloor (z / 200)) _ H) as Hb.
  replace (_ <? 0)%Z with false by (symmetry; apply Z.ltb_ge; lia).
  reflexivity.
Qed.

Lemma ndiv_2 (x : Q) : (Num x / Num 2)%num = Num (Qred (x * (1 # 2))).
Proof. reflexivity. Qed.


Lemma Qfloor_div_200 (m : Z) : Qfloor (inject_Z m / 200) = (m / 200)%Z.
Proof.
  pose proof (Z.div_mod m 200 ltac:(lia)) as Hm.
  pose proof (Z.mod_pos_bound m 200 ltac:(lia)) as [Hr0 Hr1].
  assert (E : inject_Z m
              == 200 * inject_Z (m / 200) + inject_Z (m mod 200)).
  { rewrite Hm at 1. rewrite inject_Z_plus, inject_Z_mult. reflexivity. }
  rewrite Zle_Qle in Hr0. rewrite Zlt_Qlt in Hr1.
  change (inject_Z 0) with 0 in Hr0. change (inject_Z 200) with 200 in Hr1.
  apply Qfloor_unique.
  - apply Qle_shift_div_l; lra.
  - apply Qlt_shift_div_r; [lra|]. rewrite inject_Z_plus.
    change (inject_Z 1) with 1. lra.
Qed.

(** ** One step, field by field *)

(** The three phases of [updateTraffic]: the visit of every car, the moves
    between segments, the score of the distance covered. *)
Lemma updateTraffic_phases dt g g' :
  updateTraffic dt g = Some g' ->
  exists g1 ms g2,
    foldM (visit_step dt (position g + CAMERA_HEIGHT)%num (trackLength g))
          (g, []) (visits g) = Some (g1, ms)
    /\ foldM moveCar g1 ms = Some g2
    /\ g2 = set_segments (segments g2) g1
    /\ g' = (if (speed g2 >? Num 0)%num
             then set_score (score g2 + speed g2 / Num 1000 * dt * Num 10)%num g2
             else g2).
Proof.
  rewrite updateTraffic_flat.
  destruct (foldM (visit_step _ _ _) _ _) as [[g1 ms]|] eqn:E1;
    cbn [mbind option_bind fst snd]; [|discriminate].
  destruct (foldM moveCar g1 ms) as [g2|] eqn:E2; cbn [mbind option_bind];
    [|discriminate].
  intros [= <-]. exists g1, ms, g2. split; [reflexivity|]. split; [exact E2|].
  split; [|reflexivity].
  revert E2.
  apply (foldM_preserves _ (fun h => h = set_segments (segments h) g1));
    [|apply set_segments_id].
  intros h m h' _ Hh Hm. apply moveCar_set_segments in Hm.
  rewrite Hm, Hh. reflexivity.
Qed.

(** A property of the game that every visit of a car keeps holds after the
    first phase. *)
Lemma visits_preserve dt pz tl (P : Game -> Prop) (l : list (nat * ref)) :
  (forall h r c, P h -> carObjs h !! r = Some c ->
                 P (set_carObjs (<[r := car_after dt pz tl h c]> (carObjs h))
                                (game_after dt pz tl h c))) ->
  forall st st', P (fst st) -> foldM (visit_step dt pz tl) st l = Some st' ->
                 P (fst st').
Proof.
  intros Hstep.
  apply (foldM_preserves _ (fun st => P (fst st))).
  intros st v st' _ HP E. apply visit_step_inv in E as (c & Hc & ->).
  cbn [fst]. now apply Hstep.
Qed.

Lemma car_after_type dt pz tl g c :
  car_type (car_after dt pz tl g c) = car_type c
  /\ car_percent (car_after dt pz tl g c) = car_percent c.
Proof.
  unfold car_after.
  destruct (closeCall_fires dt pz tl g c), (nabs _ >? Num 1000)%num;
    split; reflexivity.
Qed.

Lemma same_model_insert (l l' : list Car) (r : nat) (c c' : Car) :
  Forall2 same_model l l' -> l' !! r = Some c -> same_model c c' ->
  Forall2 same_model l (<[r := c']> l').
Proof.
  intros HF Hc Hs.
  apply Forall2_same_length_lookup. split.
  - rewrite length_insert. eapply Forall2_length; eauto.
  - intros i x y Hx Hy.
    destruct (decide (i = r)) as [->|Hne].
    + rewrite list_lookup_insert_eq in Hy
        by (eapply lookup_lt_Some; eauto).
      injection Hy as <-.
      pose proof (Forall2_lookup_lr _ _ _ _ _ _ HF Hx Hc) as (A & B & C & D).
      destruct Hs as (A' & B' & C' & D').
      unfold same_model. split_and!; congruence.
    + rewrite list_lookup_insert_ne in Hy by congruence.
      eapply Forall2_lookup_lr; eauto.
Qed.

Lemma same_model_refl (l : list Car) : Forall2 same_model l l.
Proof. apply Forall_Forall2_diag, Forall_forall. intros c _. unfold same_model. tauto. Qed.

Lemma updateTraffic_cars dt g g' :
  updateTraffic dt g = Some g' -> Forall2 same_model (carObjs g) (carObjs g').
Proof.
  intros E. apply updateTraffic_phases in E as (g1 & ms & g2 & E1 & _ & E2 & ->).
  assert (H1 : Forall2 same_model (carObjs g) (carObjs g1)).
  { revert E1.
    apply (visits_preserve _ _ _
             (fun h => Forall2 same_model (carObjs g) (carObjs h)));
      [|apply same_model_refl].
    intros h r c HP Hc.
    destruct (game_after_frame dt (position g + CAMERA_HEIGHT)%num
                (trackLength g) h c) as (_ & _ & Eobjs).
    simpl. eapply same_model_insert; eauto.
    destruct (car_after_fields dt (position g + CAMERA_HEIGHT)%num
                (trackLength g) h c) as (_ & ? & ?).
    destruct (car_after_type dt (position g + CAMERA_HEIGHT)%num
                (trackLength g) h c) as (? & ?).
    unfold same_model. tauto. }
  assert (carObjs g2 = carObjs g1) as E3 by (rewrite E2; reflexivity).
  destruct (speed g2 >? Num 0)%num; simpl; rewrite E3; exact H1.
Qed.

Lemma update_cars dt cmd g g' :
  update dt cmd g = Some g' -> Forall2 same_model (carObjs g) (carObjs g').
Proof.
  rewrite update_parts. destruct (isGameOver g).
  - intros [= <-]. apply same_model_refl.
  - destruct (move_player dt cmd g) as [g1|] eqn:E1; cbn [mbind option_bind];
      [|discriminate].
    destruct (updateTraffic dt g1) as [g2|] eqn:E2; cbn [mbind option_bind];
      [|discriminate].
    intros E3. apply updateTraffic_cars in E2.
    assert (carObjs g1 = carObjs g) as <-.
    { unfold move_player in E1. destruct (findSegment g _); [|discriminate].
      injection E1 as <-. reflexivity. }
    destruct (checkSpriteCollisions_cases g2 g' E3) as [-> | ->]; [exact E2|].
    rewrite (proj1 (proj2 (proj2 (proj2 (proj2 (proj2 (proj2 (crash_fields g2)))))))).
    exact E2.
Qed.

(** The score never goes down in [updateTraffic]. *)
Lemma updateTraffic_score dt d g g' s :
  dt = Num d -> 0 <= d -> score g = Num s ->
  updateTraffic dt g = Some g' ->
  exists s', score g' = Num s' /\ s <= s'.
Proof.
  intros Hd Hd0 Hs E.
  apply updateTraffic_phases in E as (g1 & ms & g2 & E1 & _ & E2 & ->).
  assert (H1 : exists s1, score g1 = Num s1 /\ s <= s1).
  { revert E1.
    apply (visits_preserve _ _ _ (fun h => exists s1, score h = Num s1 /\ s <= s1));
      [|exists s; split; [exact Hs | lra]].
    intros h r c (s1 & Hs1 & Hle) Hc. simpl.
    rewrite game_after_score, Hs1.
    destruct (closeCall_fires _ _ _ h c).
    - unfold nadd. eexists. split; [reflexivity|]. unred. lra.
    - eauto. }
  destruct H1 as (s1 & Hs1 & Hle).
  assert (score g2 = Num s1) as Hs2 by (rewrite E2; exact Hs1).
  destruct (speed g2 >? Num 0)%num eqn:Ev; [|eauto].
  unfold ngt in Ev. apply nlt_true in Ev as (? & v & [= <-] & Ev & Hv).
  simpl. rewrite Hs2, Ev, Hd.
  unfold ndiv. change (Qeq_bool 1000 0) with false. cbn iota.
  unfold nmul, nadd. eexists. split; [reflexivity|]. unred.
  unfold Qdiv. change (/ 1000) with (1 # 1000).
  assert (0 <= v * d) by nra. lra.
Qed.

(** The close-call bonus needs a lateral separation above 0.35; the
    hitboxes of the player and a car overlap up to 0.3. *)
Lemma fires_not_collides dt pz tl g c :
  closeCall_fires dt pz tl g c = true -> collides dt pz tl g c = false.
Proof.
  unfold closeCall_fires, collides. intros H.
  apply andb_true_iff in H as [_ H]. apply andb_true_iff in H as [_ H].
  unfold ngt in H. apply nlt_true in H as (? & l & [= <-] & El & Hl).
  unfold nabs, nsub in El.
  destruct (playerX g) as [x|], (car_offset c) as [o|]; try discriminate.
  injection El as <-.
  apply andb_false_iff. right. apply overlap_false_iff.
  destruct (Qle_bool 0 _) eqn:E; qbool; unred; lra.
Qed.

Lemma update_playerX_NaN dt cmd g g' :
  isGameOver g = false -> update dt cmd g = Some g' ->
  (playerX g' = NaN \/ exists x, playerX g' = Num x /\ -2 <= x /\ x <= 2)
  /\ (playerX g = NaN -> playerX g' = NaN).
Proof.
  intros Hover E.
  destruct (update_playerX dt cmd g g' Hover E) as (sg & _ & -> & _).
  split.
  - destruct (lateral_raw dt cmd g sg) as [x|]; [|left; reflexivity].
    right. destruct (lateral_clamp_range x) as (x' & -> & ?). eauto.
  - intros Hx. unfold lateral_raw. rewrite Hx. reflexivity.
Qed.

(** ** The track [resetRoad] lays out *)

Lemma Qred_inject_Z (k : Z) : Qred (inject_Z k) = inject_Z k.
Proof.
  unfold Qred, inject_Z.
  pose proof (Z.ggcd_gcd k 1) as Hg.
  pose proof (Z.ggcd_correct_divisors k 1) as Hd.
  destruct (Z.ggcd k 1) as [g [a b]]. simpl in Hg, Hd.
  rewrite Z.gcd_1_r in Hg. subst g. destruct Hd as [Ha Hb].
  assert (Ea : a = k) by lia. assert (Eb : b = 1%Z) by lia.
  rewrite Ea, Eb. reflexivity.
Qed.

Lemma Qred_Z_sum (a b : Z) : Qred (inject_Z a + inject_Z b) = inject_Z (a + b).
Proof.
  rewrite <- (Qred_inject_Z (a + b)). apply Qred_complete.
  rewrite inject_Z_plus. reflexivity.
Qed.

(** [Utils.randomInt] on whole bounds. *)
Lemma randomInt_range (r : Q) (lo hi : Z) :
  0 <= r -> r < 1 -> (lo <= hi)%Z ->
  exists k, randomInt r (Num (inject_Z lo)) (Num (inject_Z hi)) = Num (inject_Z k)
            /\ (lo <= k <= hi)%Z.
Proof.
  intros Hr0 Hr1 Hle. unfold randomInt, nfloor, nmul, nsub, nadd.
  eexists. split; [rewrite Qred_Z_sum; reflexivity|].
  set (span := Qred (Qred (inject_Z hi - inject_Z lo) + 1)).
  assert (Es : span == inject_Z (hi - lo + 1)).
  { unfold span. rewrite !Qred_correct, inject_Z_plus.
    unfold Zminus. rewrite inject_Z_plus, inject_Z_opp. reflexivity. }
  assert (Hs : 1 <= span).
  { rewrite Es. change 1 with (inject_Z 1). rewrite <- Zle_Qle. lia. }
  rewrite Qfloor_Qred. split.
  - assert (0 <= Qfloor (r * span))%Z; [|lia].
    change 0%Z with (Qfloor 0). apply Qfloor_resp_le. nra.
  - assert (Qfloor (r * span) < hi - lo + 1)%Z; [|lia].
    rewrite Zlt_Qlt. eapply Qle_lt_trans; [apply Qfloor_le|].
    rewrite <- Es. nra.
Qed.

Lemma lane_pick (r : Q) :
  0 <= r -> r < 1 ->
  match at_index lanes (floorZ (Num r * ofNat (length lanes))%num) with
  | Some l => l
  | None => NaN
  end ∈ lanes.
Proof.
  intros Hr0 Hr1. unfold ofNat, nmul, floorZ. rewrite Qfloor_Qred.
  change (inject_Z (Z.of_nat (length lanes))) with 3.
  assert (H0 : (0 <= Qfloor (r * 3))%Z).
  { change 0%Z with (Qfloor 0). apply Qfloor_resp_le. lra. }
  assert (H3 : (Qfloor (r * 3) < 3)%Z).
  { rewrite Zlt_Qlt. eapply Qle_lt_trans; [apply Qfloor_le|].
    change (inject_Z 3) with 3. lra. }
  assert (E : Qfloor (r * 3) = 0%Z \/ Qfloor (r * 3) = 1%Z
              \/ Qfloor (r * 3) = 2%Z) by lia.
  unfold lanes.
  destruct E as [-> | [-> | ->]]; simpl;
    repeat (apply elem_of_cons; (left; reflexivity) || right);
    apply elem_of_cons; left; reflexivity.
Qed.

Lemma tree_offset_ok (side : bool) (r : Q) :
  0 <= r -> r < 1 ->
  tree_ok (mkSprite ((if side then Num 1 else Num (-1)) * (Num 1.5 + Num r))%num
                    tree).
Proof.
  intros Hr0 Hr1. split; [reflexivity|].
  destruct side; unfold nmul, nadd; eexists; (split; [reflexivity|]); unred;
    [left | right]; lra.
Qed.

Lemma insert_last {A} (l : list A) (x y : A) :
  <[length l := y]> (l ++ [x]) = l ++ [y].
Proof.
  rewrite insert_app_r_alt by lia. rewrite Nat.sub_diag. reflexivity.
Qed.

Lemma lookup_last {A} (l : list A) (x : A) : (l ++ [x]) !! length l = Some x.
Proof. rewrite lookup_app_r by lia. rewrite Nat.sub_diag. reflexivity. Qed.

Lemma addCar_at_end (g : Game) (l : list Segment) (sg : Segment)
    (offset speed : num) (r : Q) :
  segments g = l ++ [sg] ->
  exists g',
    addCar (length l) offset speed r g = Some g'
    /\ carObjs g'
       = carObjs g ++ [mkCar offset (ofNat (length l) * SEGMENT_LENGTH)%num speed
                             (Num 0) (if (Num r >? Num 0.5)%num then car else truck)
                             false]
    /\ segments g' = l ++ [set_cars (cars sg ++ [length (carObjs g)]) sg]
    /\ keeps_player g g'.
Proof.
  intros E. unfold addCar. rewrite E, lookup_last. cbn [mbind option_bind].
  eexists. split; [reflexivity|]. cbn [carObjs segments set_segments set_carObjs].
  split; [reflexivity|]. split; [|reflexivity]. rewrite E. apply insert_last.
Qed.

Lemma addSprite_at_end (g : Game) (l : list Segment) (sg : Segment)
    (offset : num) (t : SpriteType) :
  segments g = l ++ [sg] ->
  exists g',
    addSprite (length l) offset t g = Some g'
    /\ carObjs g' = carObjs g
    /\ segments g' = l ++ [set_sprites (sprites sg ++ [mkSprite offset t]) sg]
    /\ keeps_player g g'.
Proof.
  intros E. unfold addSprite. rewrite E, lookup_last. cbn [mbind option_bind].
  eexists. split; [reflexivity|]. cbn [carObjs segments set_segments].
  split; [reflexivity|]. split; [apply insert_last|].
  unfold keeps_player. destruct g. reflexivity.
Qed.

Lemma keeps_player_trans (g1 g2 g3 : Game) :
  keeps_player g1 g2 -> keeps_player g2 g3 -> keeps_player g1 g3.
Proof. unfold keeps_player. intros E2 E3. rewrite E3, E2. reflexivity. Qed.

Lemma keeps_player_refl (g : Game) : keeps_player g g.
Proof. unfold keeps_player. destruct g. reflexivity. Qed.

(** One iteration of [resetRoad] appends one segment, with at most one car
    (appended to the store) and at most one tree. *)
Lemma resetRoad_iter_shape (rnd : nat -> Q) (g : Game) (k : nat) :
  (forall j, 0 <= rnd j /\ rnd j < 1) ->
  let n := length (segments g) in
  exists g' k' cs sps,
    resetRoad_iter rnd (g, k) n = Some (g', k')
    /\ carObjs g' = carObjs g ++ cs
    /\ segments g'
       = segments g
         ++ [set_sprites sps
               (set_cars (seq (length (carObjs g)) (length cs)) (new_segment n))]
    /\ (cs = [] \/ ((20 < n)%nat /\ n mod 40 = 0%nat
                    /\ exists c, cs = [c] /\ car_spawned n c))
    /\ (sps = [] \/ (n mod 20 = 0%nat
                     /\ exists s, sps = [s] /\ tree_ok s))
    /\ keeps_player g g'.
Proof.
  intros Hrnd n. unfold resetRoad_iter.
  set (g1 := set_segments (segments g ++ [new_segment n]) g).
  assert (K1 : keeps_player g g1) by (unfold keeps_player; destruct g; reflexivity).
  assert (Hcar : exists g2 k2 cs,
    (if (20 <? n)%nat && (n mod 40 =? 0)%nat
     then
       if (Num (rnd k) >? Num 0.3)%num
       then
         g' ← addCar n
                (match at_index lanes
                         (floorZ (Num (rnd (k + 1)%nat) * ofNat (length lanes))%num)
                 with Some l => l | None => NaN end)
                (randomInt (rnd (k + 2)%nat) (Num 3000) (Num 8000))
                (rnd (k + 3)%nat) g1;
         Some (g', (k + 4)%nat)
       else Some (g1, (k + 1)%nat)
     else Some (g1, k)) = Some (g2, k2)
    /\ carObjs g2 = carObjs g ++ cs
    /\ segments g2
       = segments g
         ++ [set_cars (seq (length (carObjs g)) (length cs)) (new_segment n)]
    /\ (cs = [] \/ ((20 < n)%nat /\ n mod 40 = 0%nat
                    /\ exists c, cs = [c] /\ car_spawned n c))
    /\ keeps_player g g2).
  { destruct ((20 <? n)%nat && (n mod 40 =? 0)%nat) eqn:Egate;
      [|exists g1, k, []; rewrite app_nil_r; split_and!; auto].
    destruct (Num (rnd k) >? Num 0.3)%num;
      [|exists g1, (k + 1)%nat, []; rewrite app_nil_r; split_and!; auto].
    apply andb_true_iff in Egate as [Hn20 Hn40].
    apply Nat.ltb_lt in Hn20. apply Nat.eqb_eq in Hn40.
    match goal with
    | |- context [addCar n ?o ?v ?r g1] =>
        destruct (addCar_at_end g1 (segments g) (new_segment n) o v r eq_refl)
          as (g2 & E2 & Eobjs & Esegs & K2)
    end.
    fold n in E2. rewrite E2. cbn [mbind option_bind].
    eexists g2, _, [_]. split; [reflexivity|].
    split; [exact Eobjs|]. split; [exact Esegs|].
    split; [|exact (keeps_player_trans _ _ _ K1 K2)].
    right. split; [exact Hn20|]. split; [exact Hn40|].
    eexists. split; [reflexivity|].
    destruct (Hrnd (k + 1)%nat) as [? ?], (Hrnd (k + 2)%nat) as [? ?].
    split; [reflexivity|]. split; [now apply lane_pick|].
    split; [|split; reflexivity].
    apply (randomInt_range _ 3000 8000); auto; lia. }
  destruct Hcar as (g2 & k2 & cs & -> & Eobjs & Esegs & Hcs & K2).
  cbn [mbind option_bind].
  destruct (n mod 20 =? 0)%nat eqn:En20;
    [|exists g2, k2, cs, []; split_and!; auto].
  destruct (Num (rnd k2) >? Num 0.2)%num;
    [|exists g2, (k2 + 1)%nat, cs, []; split_and!; auto].
  apply Nat.eqb_eq in En20.
  match goal with
  | |- context [addSprite n ?o tree g2] =>
      destruct (addSprite_at_end g2 (segments g) _ o tree Esegs)
        as (g3 & E3 & Eobjs3 & Esegs3 & K3)
  end.
  fold n in E3. rewrite E3. cbn [mbind option_bind].
  eexists g3, _, cs, [_]. split; [reflexivity|].
  split; [congruence|]. split; [exact Esegs3|]. split; [exact Hcs|].
  split; [|exact (keeps_player_trans _ _ _ K2 K3)].
  right. split; [exact En20|]. eexists. split; [reflexivity|].
  destruct (Hrnd (k2 + 2)%nat) as [? ?].
  destruct (Num (rnd (k2 + 1)%nat) >? Num 0.5)%num eqn:Eside.
  - now apply (tree_offset_ok true).
  - now apply (tree_offset_ok false).
Qed.

Lemma segment_laid_grow (g g' : Game) (cs : list Car) (i : nat) (sg : Segment) :
  carObjs g' = carObjs g ++ cs -> segment_laid g i sg -> segment_laid g' i sg.
Proof.
  intros E (Hgeo & Hsp & Hcars). split; [exact Hgeo|]. split; [exact Hsp|].
  destruct Hcars as [Hc | (H20 & H40 & r & c & Hr & Hc & Hs)]; [now left|].
  right. split; [exact H20|]. split; [exact H40|]. exists r, c.
  split; [exact Hr|]. split; [|exact Hs].
  rewrite E. now apply lookup_app_l_Some.
Qed.

Lemma resetRoad_iter_Layout (rnd : nat -> Q) (n : nat) (g : Game) (k : nat) :
  (forall j, 0 <= rnd j /\ rnd j < 1) -> Layout n g ->
  exists g' k', resetRoad_iter rnd (g, k) n = Some (g', k') /\ Layout (S n) g'
                /\ keeps_player g g'.
Proof.
  intros Hrnd (Hlen & Hsegs & Hheld & Hcount).
  destruct (resetRoad_iter_shape rnd g k Hrnd)
    as (g' & k' & cs & sps & E & Eobjs & Esegs & Hcs & Hsps & K).
  rewrite Hlen in E, Esegs, Hcs, Hsps.
  exists g', k'. split; [exact E|]. split; [|exact K].
  set (sgn := set_sprites sps
                (set_cars (seq (length (carObjs g)) (length cs)) (new_segment n)))
    in *.
  assert (Hnew : segment_laid g' n sgn).
  { split; [reflexivity|]. split; [exact Hsps|].
    destruct Hcs as [-> | (H20 & H40 & c & -> & Hc)]; [now left|].
    right. split; [exact H20|]. split; [exact H40|].
    exists (length (carObjs g)), c. split; [reflexivity|].
    split; [|exact Hc]. rewrite Eobjs. apply lookup_last. }
  split; [rewrite Esegs, length_app, Hlen; simpl; lia|]. split; [|split].
  - intros i sg. rewrite Esegs. intros Hi.
    apply lookup_app_Some in Hi as [Hi | [Hge Hi]].
    + eapply segment_laid_grow; eauto.
    + rewrite Hlen in Hge, Hi.
      destruct (i - n)%nat as [|?] eqn:Ei; simpl in Hi; [|discriminate].
      injection Hi as <-. replace i with n by lia. exact Hnew.
  - intros r. rewrite Eobjs, length_app. intros Hr.
    destruct (decide (r < length (carObjs g))%nat) as [Hold | Hnot].
    + destruct (Hheld r Hold) as (i & sg & Hi & Hc).
      exists i, sg. split; [|exact Hc]. rewrite Esegs.
      now apply lookup_app_l_Some.
    + destruct Hcs as [-> | (_ & _ & c & -> & _)]; simpl in Hr; [lia|].
      exists n, sgn. split.
      * rewrite Esegs, <- Hlen. apply lookup_last.
      * simpl. f_equal. lia.
  - rewrite Eobjs, length_app.
    destruct Hcs as [-> | (H20 & H40 & c & -> & _)]; simpl.
    + destruct Hcount as [-> | Hc]; [now left | right; lia].
    + right. apply Nat.Div0.div_exact in H40. destruct Hcount as [-> | Hc]; lia.
Qed.

Lemma resetRoad_Layout (rnd : nat -> Q) (g0 : Game) :
  (forall j, 0 <= rnd j /\ rnd j < 1) ->
  exists g, resetRoad rnd g0 = Some g /\ Layout TOTAL_SEGMENTS g
            /\ keeps_player g0 g.
Proof.
  intros Hrnd. unfold resetRoad.
  set (gc := set_carObjs [] (set_segments [] g0)).
  pose (P := fun (done : list nat) (st : Game * nat) =>
               Layout (length done) (fst st) /\ keeps_player g0 (fst st)).
  destruct (foldM_invariant (resetRoad_iter rnd) P (seq 0 TOTAL_SEGMENTS)
              [] (gc, 0%nat)) as ([g k] & E & HL & HK).
  - split; [|unfold keeps_player; destruct g0; reflexivity].
    split; [reflexivity|]. split; [|split].
    + intros i sg Hi. inversion Hi.
    + intros r Hr. simpl in Hr. lia.
    + now left.
  - intros done x rest [g k] Hsplit [HL HK]. rewrite app_nil_l in Hsplit.
    cbn [fst] in HL, HK.
    apply seq_split_head in Hsplit. subst x.
    destruct (resetRoad_iter_Layout rnd (length done) g k Hrnd HL)
      as (g' & k' & E & HL' & HK').
    exists (g', k'). split; [exact E|]. unfold P. cbn [fst].
    rewrite length_app. simpl. rewrite Nat.add_1_r.
    split; [exact HL' | exact (keeps_player_trans _ _ _ HK HK')].
  - rewrite E. exists g. split; [reflexivity|]. cbn [fst] in HL, HK.
    rewrite app_nil_l, length_seq in HL. split; [exact HL | exact HK].
Qed.

Lemma rnd_nonneg (rnd : nat -> Q) :
  (forall j, 0 <= rnd j /\ rnd j < 1) -> forall j, 0 <= rnd j.
Proof. intros H j. apply H. Qed.

(** ** What a step leaves of the road and of the cars *)

Lemma Forall2_insert_right {A} (R : A -> A -> Prop) (l l' : list A) (i : nat)
    (x y : A) :
  Forall2 R l l' -> l' !! i = Some x -> (forall a, R a x -> R a y) ->
  Forall2 R l (<[i := y]> l').
Proof.
  intros HF Hx Hxy. apply Forall2_same_length_lookup. split.
  - rewrite length_insert. eapply Forall2_length; eauto.
  - intros j a b Ha Hb. destruct (decide (j = i)) as [->|Hne].
    + rewrite list_lookup_insert_eq in Hb by (eapply lookup_lt_Some; eauto).
      injection Hb as <-. apply Hxy. eapply Forall2_lookup_lr; eauto.
    + rewrite list_lookup_insert_ne in Hb by congruence.
      eapply Forall2_lookup_lr; eauto.
Qed.

Lemma Forall2_chain {A} (R : A -> A -> Prop) :
  (forall x y z, R x y -> R y z -> R x z) ->
  forall l1 l2 l3, Forall2 R l1 l2 -> Forall2 R l2 l3 -> Forall2 R l1 l3.
Proof.
  intros HR l1 l2 l3 H. revert l3.
  induction H; intros l3 H3; inversion H3; subst; constructor; eauto.
Qed.

Lemma same_road_refl (l : list Segment) : Forall2 same_road l l.
Proof.
  apply Forall_Forall2_diag, Forall_forall. intros [] _. reflexivity.
Qed.

Lemma same_road_set_cars (a x : Segment) (v : list ref) :
  same_road a x -> same_road a (set_cars v x).
Proof. unfold same_road. intros ->. reflexivity. Qed.

Lemma same_road_trans (l1 l2 l3 : list Segment) :
  Forall2 same_road l1 l2 -> Forall2 same_road l2 l3 -> Forall2 same_road l1 l3.
Proof.
  apply Forall2_chain. unfold same_road. intros x y z -> ->. reflexivity.
Qed.

Lemma at_index_lookup {A} (l : list A) (k : option Z) (x : A) :
  at_index l k = Some x -> l !! Z.to_nat (default 0%Z k) = Some x.
Proof.
  unfold at_index. destruct k as [k|]; [|discriminate].
  destruct (k <? 0)%Z; [discriminate|]. simpl. auto.
Qed.

Lemma moveCar_road (g g' : Game) (m : Move) :
  moveCar g m = Some g' -> Forall2 same_road (segments g) (segments g').
Proof.
  unfold moveCar.
  destruct (segments g !! move_from m) as [fs|] eqn:Ef; cbn [mbind option_bind];
    [|discriminate].
  destruct (indexOf _ _) as [idx|]; [|intros [= <-]; apply same_road_refl].
  cbn [segments set_segments].
  destruct (at_index _ _) as [ts|] eqn:Et; cbn [mbind option_bind];
    [|discriminate].
  intros [= <-]. cbn [segments set_segments].
  apply at_index_lookup in Et.
  eapply Forall2_insert_right; [|exact Et|intros a; apply same_road_set_cars].
  eapply Forall2_insert_right;
    [apply same_road_refl|exact Ef|intros a; apply same_road_set_cars].
Qed.

Lemma updateTraffic_road dt g g' :
  updateTraffic dt g = Some g' -> Forall2 same_road (segments g) (segments g').
Proof.
  intros E. apply updateTraffic_phases in E as (g1 & ms & g2 & E1 & E2 & _ & ->).
  assert (H1 : segments g1 = segments g).
  { revert E1.
    apply (foldM_preserves _ (fun st => segments (fst st) = segments g));
      [|reflexivity].
    intros st v st' _ Hs Hv. apply visit_step_segments in Hv. congruence. }
  assert (H2 : Forall2 same_road (segments g) (segments g2)).
  { revert E2.
    apply (foldM_preserves _ (fun h => Forall2 same_road (segments g) (segments h)));
      [|rewrite H1; apply same_road_refl].
    intros h m h' _ Hh Hm. apply moveCar_road in Hm.
    eapply same_road_trans; eauto. }
  destruct (speed g2 >? Num 0)%num; exact H2.
Qed.

Lemma move_player_fields dt cmd g g1 :
  move_player dt cmd g = Some g1 ->
  segments g1 = segments g /\ carObjs g1 = carObjs g /\ score g1 = score g
  /\ isGameOver g1 = isGameOver g /\ highScore g1 = highScore g
  /\ storedHighScore g1 = storedHighScore g /\ isPlaying g1 = isPlaying g.
Proof.
  unfold move_player. destruct (findSegment g _); [|discriminate].
  intros [= <-]. simpl. tauto.
Qed.

Lemma update_road dt cmd g g' :
  update dt cmd g = Some g' -> Forall2 same_road (segments g) (segments g').
Proof.
  rewrite update_parts. destruct (isGameOver g).
  - intros [= <-]. apply same_road_refl.
  - destruct (move_player dt cmd g) as [g1|] eqn:E1; cbn [mbind option_bind];
      [|discriminate].
    destruct (updateTraffic dt g1) as [g2|] eqn:E2; cbn [mbind option_bind];
      [|discriminate].
    intros E3. apply updateTraffic_road in E2.
    apply move_player_fields in E1 as (<- & _).
    destruct (checkSpriteCollisions_cases g2 g' E3) as [-> | ->]; [exact E2|].
    rewrite (proj1 (proj2 (proj2 (proj2 (proj2 (proj2 (crash_fields g2))))))).
    exact E2.
Qed.

Lemma same_road_fields (sg sg' : Segment) :
  same_road sg sg' ->
  index sg' = index sg /\ p1 sg' = p1 sg /\ p2 sg' = p2 sg
  /\ color sg' = color sg /\ curve sg' = curve sg /\ sprites sg' = sprites sg
  /\ looped sg' = looped sg /\ clipY sg' = clipY sg.
Proof. unfold same_road. intros ->. simpl. tauto. Qed.

Lemma scenery_ok_road (g g' : Game) :
  Forall2 same_road (segments g) (segments g') -> scenery_ok g -> scenery_ok g'.
Proof.
  intros HF Hs i sg' Hi.
  destruct (Forall2_lookup_r _ _ _ _ _ HF Hi) as (sg & Hsg & Hr).
  apply same_road_fields in Hr as (_ & _ & _ & _ & _ & -> & _).
  eapply Hs; eauto.
Qed.

(** *** The depth of a car stays within the track *)

Lemma advance_z_range dt c d :
  car_ranged c -> dt = Num d -> 0 <= d -> d <= 1 ->
  car_ranged (set_car_z (advance_z dt (Num 400000) c) c).
Proof.
  intros (z & v & Ez & Ev & Hz0 & Hz1 & Hv0 & Hv1) -> Hd0 Hd1.
  unfold advance_z. rewrite Ez, Ev. unfold nmul, nadd, ngt, nlt, nsub.
  assert (0 <= v * d) by nra. assert (v * d <= 8000) by nra.
  destruct (Qlt_bool 400000 _) eqn:E1; qbool; unred.
  - destruct (Qlt_bool _ 0) eqn:E2; qbool; unred;
      eexists _, v; (split; [reflexivity|]); (split; [exact Ev|]); unred;
      split_and!; lra.
  - destruct (Qlt_bool _ 0) eqn:E2; qbool; unred;
      eexists _, v; (split; [reflexivity|]); (split; [exact Ev|]); unred;
      split_and!; lra.
Qed.

Lemma car_after_ranged dt pz g c d :
  car_ranged c -> dt = Num d -> 0 <= d -> d <= 1 ->
  car_ranged (car_after dt pz (Num 400000) g c).
Proof.
  intros Hc Hd Hd0 Hd1.
  pose proof (advance_z_range dt c d Hc Hd Hd0 Hd1) as (z & v & Ez & Ev & Hr).
  destruct (car_after_fields dt pz (Num 400000) g c) as (Ez' & Ev' & _).
  exists z, v. rewrite Ez', Ev'. simpl in Ez, Ev. auto.
Qed.

Lemma updateTraffic_ranged dt d g g' :
  length (segments g) = TOTAL_SEGMENTS -> dt = Num d -> 0 <= d -> d <= 1 ->
  Forall car_ranged (carObjs g) -> updateTraffic dt g = Some g' ->
  Forall car_ranged (carObjs g').
Proof.
  intros HN Hd Hd0 Hd1 Hc E.
  apply updateTraffic_phases in E as (g1 & ms & g2 & E1 & _ & E2 & ->).
  rewrite (trackLength_total g HN) in E1.
  assert (H1 : Forall car_ranged (carObjs g1)).
  { revert E1.
    apply (visits_preserve _ _ _ (fun h => Forall car_ranged (carObjs h)));
      [|exact Hc].
    intros h r c HP Hlook. simpl. apply Forall_insert; [exact HP|].
    eapply car_after_ranged; eauto.
    exact (proj1 (Forall_lookup _ _) HP _ _ Hlook). }
  assert (carObjs g2 = carObjs g1) as E3 by (rewrite E2; reflexivity).
  destruct (speed g2 >? Num 0)%num; simpl; rewrite E3; exact H1.
Qed.

Lemma update_ranged dt d cmd g g' :
  length (segments g) = TOTAL_SEGMENTS -> dt = Num d -> 0 <= d -> d <= 1 ->
  Forall car_ranged (carObjs g) -> update dt cmd g = Some g' ->
  Forall car_ranged (carObjs g').
Proof.
  intros HN Hd Hd0 Hd1 Hc. rewrite update_parts. destruct (isGameOver g).
  - intros [= <-]. exact Hc.
  - destruct (move_player dt cmd g) as [g1|] eqn:E1; cbn [mbind option_bind];
      [|discriminate].
    destruct (updateTraffic dt g1) as [g2|] eqn:E2; cbn [mbind option_bind];
      [|discriminate].
    intros E3. apply move_player_fields in E1 as (Es & Eo & _).
    assert (H2 : Forall car_ranged (carObjs g2)).
    { eapply (updateTraffic_ranged dt d g1); eauto; congruence. }
    destruct (checkSpriteCollisions_cases g2 g' E3) as [-> | ->]; [exact H2|].
    rewrite (proj1 (proj2 (proj2 (proj2 (proj2 (proj2 (proj2 (crash_fields g2)))))))).
    exact H2.
Qed.

(** *** Runs *)

(** An invariant of the steps that holds at the start of a run of ticks in
    (0, 1] holds at its end, and the run returns. *)
Lemma run_invariant (P : Game -> Prop) (ok : num * Command -> Prop) :
  (forall x, ok x -> tick_ok (fst x) = true) ->
  (forall x g g', ok x -> Inv g -> P g -> update (fst x) (snd x) g = Some g' ->
                  P g') ->
  forall inputs, Forall ok inputs ->
  forall g, Inv g -> P g -> exists g', run inputs g = Some g' /\ Inv g' /\ P g'.
Proof.
  intros Hok Hstep inputs. induction 1 as [|x inputs Hx _ IH]; intros g Hg HP.
  - exists g. split; [reflexivity | auto].
  - destruct (update_Inv (fst x) (snd x) g Hg (Hok x Hx)) as (g1 & E1 & Hg1).
    destruct (IH g1 Hg1 (Hstep x g g1 Hx Hg HP E1)) as (g' & E' & Hg' & HP').
    exists g'. split; [|auto]. unfold run. simpl. rewrite E1. exact E'.
Qed.

Lemma Inv_length (g : Game) : Inv g -> length (segments g) = TOTAL_SEGMENTS.
Proof. intros (Ht & _). apply track_wf_iff in Ht. tauto. Qed.

(** *** Trees and the player *)

Lemma tree_not_hit (g : Game) (pz tl : num) (sg : Segment) (s : Sprite) (x : Q) :
  playerX g = Num x -> -1.275 < x -> x < 1.275 -> tree_ok s ->
  spriteHit g pz tl sg s = false.
Proof.
  intros Hx Hlo Hhi (_ & o & Ho & Hside). unfold spriteHit.
  destruct (nabs _ <? Num 100)%num; [|reflexivity].
  rewrite Hx, Ho. apply overlap_false_iff. lra.
Qed.

Lemma checkSpriteCollisions_loop_clear g pz tl s l x g' :
  scenery_ok g -> playerX g = Num x -> -1.275 < x -> x < 1.275 ->
  checkSpriteCollisions_loop g pz tl s l = Some g' -> g' = g.
Proof.
  intros Hs Hx Hlo Hhi. induction l as [|i l IH]; simpl.
  - intros [= <-]. reflexivity.
  - destruct (at_index _ _) as [sg|] eqn:Esg; cbn [mbind option_bind];
      [|discriminate].
    replace (existsb _ (sprites sg)) with false; [exact IH|].
    symmetry. apply not_true_is_false. intros Hex.
    apply existsb_exists in Hex as (sp & Hin & Hhit).
    apply at_index_lookup in Esg.
    pose proof (Hs _ _ Esg) as Hok.
    rewrite Forall_forall in Hok.
    rewrite (tree_not_hit g pz tl sg sp x) in Hhit; auto; [discriminate|].
    apply Hok. now apply list_elem_of_In.
Qed.

(** ** The states a game reaches *)

Lemma laid_geometry (g : Game) (i : nat) (sg : Segment) :
  segment_laid g i sg ->
  index sg = i
  /\ world (p1 sg) = mkWorld NaN (Num 0) (ofNat i * SEGMENT_LENGTH)%num
  /\ world (p2 sg) = mkWorld NaN (Num 0) (ofNat (i + 1) * SEGMENT_LENGTH)%num
  /\ curve sg = curve_of i
  /\ color sg = (if ((i / 3) mod 2 =? 0)%nat then ROAD_LIGHT else ROAD_DARK).
Proof.
  intros (Hgeo & _). split_and!.
  - apply (f_equal index) in Hgeo. exact Hgeo.
  - apply (f_equal (fun s => world (p1 s))) in Hgeo. exact Hgeo.
  - apply (f_equal (fun s => world (p2 s))) in Hgeo. exact Hgeo.
  - apply (f_equal curve) in Hgeo. exact Hgeo.
  - apply (f_equal color) in Hgeo. exact Hgeo.
Qed.

Lemma curve_of_num (i : nat) : is_num (curve_of i) = true.
Proof.
  unfold curve_of.
  repeat match goal with |- context [if ?b then _ else _] => destruct b end;
    reflexivity.
Qed.

Lemma Layout_curves (n : nat) (g : Game) :
  Layout n g -> curves_are_numbers g = true.
Proof.
  intros (_ & Hsegs & _). unfold curves_are_numbers.
  apply forallb_forall. intros sg Hin.
  apply list_elem_of_In, list_elem_of_lookup in Hin as [i Hi].
  destruct (laid_geometry g i sg (Hsegs i sg Hi)) as (_ & _ & _ & -> & _).
  apply curve_of_num.
Qed.

Lemma curves_road (g g' : Game) :
  Forall2 same_road (segments g) (segments g') ->
  curves_are_numbers g = true -> curves_are_numbers g' = true.
Proof.
  intros HF Hc. unfold curves_are_numbers in *.
  rewrite forallb_forall in Hc. apply forallb_forall. intros sg' Hin.
  apply list_elem_of_In, list_elem_of_lookup in Hin as [i Hi].
  destruct (Forall2_lookup_r _ _ _ _ _ HF Hi) as (sg & Hsg & Hr).
  apply same_road_fields in Hr as (_ & _ & _ & _ & -> & _).
  apply Hc. apply list_elem_of_In. eapply list_elem_of_lookup_2; eauto.
Qed.

Lemma Layout_scenery (n : nat) (g : Game) : Layout n g -> scenery_ok g.
Proof.
  intros (_ & Hsegs & _) i sg Hi.
  destruct (Hsegs i sg Hi) as (_ & [-> | (_ & s & -> & Hs)] & _).
  - apply Forall_nil_2.
  - apply Forall_cons_2; [exact Hs | apply Forall_nil_2].
Qed.

Lemma spawned_ranged (i : nat) (c : Car) :
  (i < TOTAL_SEGMENTS)%nat -> car_spawned i c -> car_ranged c.
Proof.
  intros Hi (Ez & _ & (k & Ev & Hk) & _).
  exists (Qred (inject_Z (Z.of_nat i) * 200)), (inject_Z k).
  split; [exact Ez|]. split; [exact Ev|]. rewrite Qred_correct.
  unfold TOTAL_SEGMENTS in Hi.
  assert (0 <= inject_Z (Z.of_nat i)) by (apply inject_Z_nonneg; lia).
  assert (inject_Z (Z.of_nat i) <= inject_Z 2000) by (rewrite <- Zle_Qle; lia).
  assert (inject_Z 3000 <= inject_Z k) by (rewrite <- Zle_Qle; lia).
  assert (inject_Z k <= inject_Z 8000) by (rewrite <- Zle_Qle; lia).
  change (inject_Z 2000) with 2000 in *. change (inject_Z 3000) with 3000 in *.
  change (inject_Z 8000) with 8000 in *.
  split_and!; lra.
Qed.

(** Every car of the store is the one car of a segment, as spawned. *)
Lemma Layout_cars (g : Game) (r : ref) (c : Car) :
  Layout TOTAL_SEGMENTS g -> carObjs g !! r = Some c ->
  exists i sg, (40 <= i)%nat /\ (i < TOTAL_SEGMENTS)%nat /\ i mod 40 = 0%nat
               /\ segments g !! i = Some sg /\ cars sg = [r]
               /\ car_spawned i c.
Proof.
  intros (Hlen & Hsegs & Hheld & _) Hc.
  destruct (Hheld r (lookup_lt_Some _ _ _ Hc)) as (i & sg & Hi & Hr).
  destruct (Hsegs i sg Hi) as (_ & _ & [Hnil | (H20 & H40 & r' & c' & Hr' & Hc' & Hs)]).
  - rewrite Hr in Hnil. discriminate.
  - rewrite Hr in Hr'. injection Hr' as <-.
    assert (c' = c) as -> by congruence.
    exists i, sg. split_and!; auto.
    + apply Nat.Div0.div_exact in H40. lia.
    + rewrite <- Hlen. eapply lookup_lt_Some; eauto.
Qed.

Lemma Layout_ranged (g : Game) :
  Layout TOTAL_SEGMENTS g -> Forall car_ranged (carObjs g).
Proof.
  intros HL. apply Forall_lookup. intros r c Hc.
  destruct (Layout_cars g r c HL Hc) as (i & sg & _ & Hi & _ & _ & _ & Hs).
  eapply spawned_ranged; eauto.
Qed.

Lemma same_model_trans (l1 l2 l3 : list Car) :
  Forall2 same_model l1 l2 -> Forall2 same_model l2 l3 ->
  Forall2 same_model l1 l3.
Proof.
  apply Forall2_chain. unfold same_model.
  intros x y z (? & ? & ? & ?) (? & ? & ? & ?). split_and!; congruence.
Qed.

Lemma newGame_Layout (w h stored : num) (rnd : nat -> Q) :
  (forall j, 0 <= rnd j /\ rnd j < 1) ->
  exists g, newGame w h stored rnd = Some g /\ Inv g
            /\ Layout TOTAL_SEGMENTS g
            /\ keeps_player
                 (mkGame w h (Num 0) (Num 0) (Num 0) (Num 0) (Num 0) [] [] false
                         false (orZero stored) stored) g.
Proof.
  intros Hrnd. unfold newGame.
  set (init := mkGame w h (Num 0) (Num 0) (Num 0) (Num 0) (Num 0) [] [] false
                      false (orZero stored) stored).
  destruct (resetRoad_Layout rnd init Hrnd) as (g & E & HL & HK).
  destruct (resetRoad_Built rnd init (rnd_nonneg rnd Hrnd)) as (g' & E' & HB & _).
  rewrite E in E'. injection E' as <-.
  exists g. split; [exact E|]. split; [|split; [exact HL | exact HK]].
  destruct (Built_track g HB) as [Ht Ho].
  split; [exact Ht|]. split; [|exact Ho].
  destruct HB as [Hlen _]. apply (player_wf_iff g Hlen).
  rewrite HK. exists 0, 0. simpl. split_and!; auto; lra.
Qed.

(** The world after a run: the road as built, the cars as spawned, each
    within the track. *)
Lemma run_world (inputs : list (num * Command)) (g0 : Game) :
  Forall (fun x => tick_ok (fst x) = true) inputs ->
  Inv g0 -> Forall car_ranged (carObjs g0) ->
  exists g, run inputs g0 = Some g /\ Inv g
            /\ Forall2 same_road (segments g0) (segments g)
            /\ Forall2 same_model (carObjs g0) (carObjs g)
            /\ Forall car_ranged (carObjs g).
Proof.
  intros Hticks HI Hr.
  destruct (run_invariant
              (fun g => Forall2 same_road (segments g0) (segments g)
                        /\ Forall2 same_model (carObjs g0) (carObjs g)
                        /\ Forall car_ranged (carObjs g))
              (fun x => tick_ok (fst x) = true)) with (inputs := inputs) (g := g0)
    as (g & E & HI' & HP); auto.
  - intros [dt cmd] g g' Hdt Hg (H1 & H2 & H3) E. cbn [fst snd] in *.
    split; [eapply same_road_trans; eauto using update_road|].
    split; [eapply same_model_trans; eauto using update_cars|].
    apply tick_ok_iff in Hdt as (d & Ed & Hd0 & Hd1).
    eapply (update_ranged dt d); eauto using Inv_length. lra.
  - split; [apply same_road_refl|]. split; [apply same_model_refl | exact Hr].
  - exists g. tauto.
Qed.

(** The player's fields after a step on a well-formed state, for a steering
    input that is a number. *)
Lemma update_player_ranges dt cmd g g' :
  Inv g -> curves_are_numbers g = true -> is_num (playerX g) = true ->
  tick_ok dt = true -> is_num (steer cmd) = true ->
  update dt cmd g = Some g' ->
  is_num (playerX g') = true.
Proof.
  intros (Ht & Hp & _) Hk Hx Hdt Hs E.
  destruct (isGameOver g) eqn:Hover.
  { unfold update in E. rewrite Hover in E. injection E as <-. exact Hx. }
  destruct (update_playerX dt cmd g g' Hover E) as (sg & Hsg & Ex & _).
  pose proof (proj1 (track_wf_iff g) Ht) as (HN & _ & _).
  apply (player_wf_iff g HN) in Hp as (p & v & _ & Ev & _ & _).
  apply tick_ok_iff in Hdt as (d & Ed & Hd0 & Hd1).
  apply is_num_true in Hx as [x Hx]. apply is_num_true in Hs as [s Hs].
  destruct (curves_are_numbers_elem g sg Hk (findSegment_elem _ _ _ Hsg))
    as [k Ek].
  destruct (lateral_raw_num dt cmd g sg x v d k s Hs Hx Ev Ed Ek) as [x' Er].
  destruct (lateral_clamp_range x') as (x'' & Ec & _).
  rewrite Ex, Er, Ec. reflexivity.
Qed.

Lemma update_speed_range dt cmd g g' :
  Inv g -> tick_ok dt = true -> update dt cmd g = Some g' ->
  (exists v, speed g = Num v /\ -10000 < v /\ v <= 12000) ->
  exists v', speed g' = Num v' /\ -10000 < v' /\ v' <= 12000.
Proof.
  intros (Ht & Hp & _) Hdt E Hv.
  destruct (isGameOver g) eqn:Hover.
  { unfold update in E. rewrite Hover in E. injection E as <-. exact Hv. }
  destruct (update_playerX dt cmd g g' Hover E) as (sg & _ & _ & Es).
  destruct Hv as (v & Ev & _).
  apply tick_ok_iff in Hdt as (d & Ed & Hd0 & Hd1).
  destruct (speed_penalised_range dt cmd g sg v d Ev Ed Hd0 Hd1)
    as (v2 & E2 & Hlo & Hhi & _).
  destruct Es as [-> | ->]; [rewrite E2; eauto|].
  exists 0. split; [reflexivity | lra].
Qed.

(** ** [render]: what it writes, and that it returns *)

Lemma project_world p cx cy cz d w h rw :
  world (project p cx cy cz d w h rw) = world p.
Proof. unfold project. destruct (_ <=? Num 0)%num; reflexivity. Qed.

Lemma same_track_refl (l : list Segment) : Forall2 same_track l l.
Proof.
  apply Forall_Forall2_diag, Forall_forall. intros sg _.
  unfold same_track. tauto.
Qed.

Lemma same_track_trans (l1 l2 l3 : list Segment) :
  Forall2 same_track l1 l2 -> Forall2 same_track l2 l3 ->
  Forall2 same_track l1 l3.
Proof.
  apply Forall2_chain. unfold same_track.
  intros x y z (? & ? & ? & ? & ? & ? & ?) (? & ? & ? & ? & ? & ? & ?).
  split_and!; congruence.
Qed.

Lemma render_iter_frame baseSegment playerY st n st' :
  render_iter baseSegment playerY st n = Some st' ->
  rp_game st' = set_segments (segments (rp_game st')) (rp_game st)
  /\ Forall2 same_track (segments (rp_game st)) (segments (rp_game st')).
Proof.
  unfold render_iter.
  destruct (at_index _ _) as [sg|] eqn:Esg; cbn [mbind option_bind];
    [|discriminate].
  apply at_index_lookup in Esg.
  match goal with
  | |- context [if ?c then _ else _] => destruct c
  end; intros [= <-]; cbn [rp_game segments set_segments];
    (split; [reflexivity|]);
    (eapply Forall2_insert_right; [apply same_track_refl | exact Esg |]);
    intros a (? & ? & ? & ? & ? & ? & ?); unfold same_track; simpl;
    rewrite !project_world; split_and!; assumption.
Qed.

Lemma render_frame (g : Game) (rp : RoadPass) :
  render g = Some rp ->
  rp_game rp = set_segments (segments (rp_game rp)) g
  /\ Forall2 same_track (segments g) (segments (rp_game rp)).
Proof.
  unfold render.
  destruct (findSegment g (position g)) as [base|]; cbn [mbind option_bind];
    [|discriminate].
  destruct (findSegment g _) as [ps|]; cbn [mbind option_bind]; [|discriminate].
  match goal with
  | |- foldM ?f ?b ?l = _ -> _ =>
      apply (foldM_preserves f
               (fun st => rp_game st = set_segments (segments (rp_game st)) g
                          /\ Forall2 same_track (segments g) (segments (rp_game st))))
  end.
  - intros st n st' _ [Hg Hs] Hstep.
    apply render_iter_frame in Hstep as [Hg' Hs']. split.
    + rewrite Hg', Hg. reflexivity.
    + eapply same_track_trans; eauto.
  - cbn [rp_game]. split; [apply set_segments_id | apply same_track_refl].
Qed.

Lemma zrem_at_index {A} (l : list A) (k : Z) :
  (0 <= k)%Z -> l <> [] -> is_Some (at_index l (zrem (Some k) (length l))).
Proof.
  intros Hk Hl. rewrite zrem_nonneg; [now apply at_index_mod | exact Hk |].
  destruct l; simpl; congruence.
Qed.

Lemma render_iter_total baseSegment playerY st n :
  segments (rp_game st) <> [] -> is_Some (render_iter baseSegment playerY st n).
Proof.
  intros Hne. unfold render_iter.
  destruct (zrem_at_index (segments (rp_game st))
              (Z.of_nat (index baseSegment) + Z.of_nat n) ltac:(lia) Hne)
    as [sg ->].
  cbn [mbind option_bind].
  match goal with
  | |- context [if ?c then _ else _] => destruct c
  end; eauto.
Qed.

(** [render] returns whenever the track is not empty and the position is a
    number that is not negative. *)
Lemma render_total (g : Game) (p : Q) :
  segments g <> [] -> position g = Num p -> 0 <= p ->
  exists rp, render g = Some rp.
Proof.
  intros Hne Hp Hp0. unfold render.
  destruct (findSegment_nonneg g p Hne Hp0) as [base Hb].
  rewrite Hp, Hb. cbn [mbind option_bind].
  destruct (findSegment_nonneg g (Qred (p + Qred (0.84 * 200))) Hne)
    as [ps Hps]; [unred; lra|].
  change (Num p + CAMERA_DEPTH * SEGMENT_LENGTH)%num
    with (Num (Qred (p + Qred (0.84 * 200)))).
  rewrite Hps. cbn [mbind option_bind].
  match goal with
  | |- exists rp, foldM ?f ?b ?l = Some rp =>
      destruct (foldM_invariant f
                  (fun _ st => length (segments (rp_game st)) = length (segments g))
                  l [] b) as (rp & E & _)
  end.
  - reflexivity.
  - intros done x rest st _ Hlen.
    destruct (render_iter_total base
                (interpolate (world_y (world (p1 ps))) (world_y (world (p2 ps)))
                   (percentRemaining (Num (Qred (p + Qred (0.84 * 200))))
                      SEGMENT_LENGTH)) st x) as [st' E].
    { intros Hnil. rewrite Hnil in Hlen. destruct (segments g); [congruence|].
      discriminate. }
    exists st'. split; [exact E|].
    apply render_iter_frame in E as [_ Hs].
    rewrite <- Hlen. symmetry. eapply Forall2_length; eauto.
  - eauto.
Qed.

(** The invariant does not read the scratch fields. *)
Lemma Inv_same_track (g g' : Game) :
  g' = set_segments (segments g') g ->
  Forall2 same_track (segments g) (segments g') -> Inv g -> Inv g'.
Proof.
  intros Eg Hs (Ht & Hp & Ho).
  pose proof (Forall2_length _ _ _ Hs) as Hlen.
  assert (Hobjs : carObjs g' = carObjs g) by (rewrite Eg; reflexivity).
  assert (Hcars : forall i sg', segments g' !! i = Some sg' ->
            exists sg, segments g !! i = Some sg /\ cars sg' = cars sg).
  { intros i sg' Hi.
    destruct (Forall2_lookup_r _ _ _ _ _ Hs Hi)
      as (sg & Hsg & _ & _ & _ & _ & _ & Hc & _). eauto. }
  apply track_wf_iff in Ht as (HN & Hrefs & Hwf). split; [|split].
  - apply track_wf_iff. split; [congruence|]. split.
    + intros i sg' r Hi Hr. destruct (Hcars i sg' Hi) as (sg & Hsg & Hc).
      rewrite Hobjs. rewrite Hc in Hr. eauto.
    + rewrite Hobjs. exact Hwf.
  - assert (HN' : length (segments g') = TOTAL_SEGMENTS) by congruence.
    apply (player_wf_iff g' HN'). apply (player_wf_iff g HN) in Hp.
    rewrite Eg. exact Hp.
  - destruct Ho as (loc & HL & Hown). exists loc. split.
    + intros j sg' Hj. destruct (Hcars j sg' Hj) as (sg & Hsg & Hc).
      rewrite Hc, Hobjs. apply (HL j sg Hsg).
    + intros r c. rewrite Hobjs. intros Hc.
      rewrite (owner_index_ext g g' c c) by (auto; congruence). eauto.
Qed.

Lemma render_Inv (g : Game) :
  Inv g -> exists rp, render g = Some rp /\ Inv (rp_game rp).
Proof.
  intros HI. pose proof (Inv_length g HI) as HN.
  pose proof HI as (_ & Hp & _).
  apply (player_wf_iff g HN) in Hp as (p & v & Ep & _ & Hp0 & _).
  assert (Hne : segments g <> []).
  { intros Hnil. rewrite Hnil in HN. discriminate. }
  destruct (render_total g p Hne Ep Hp0) as [rp E].
  exists rp. split; [exact E|].
  destruct (render_frame g rp E) as [Hg Hs].
  eapply Inv_same_track; eauto.
Qed.

Lemma foldM_count {A B} (f : B -> A -> option B) (m : B -> nat) (l : list A) :
  (forall b x b', f b x = Some b' -> (m b' <= S (m b))%nat) ->
  forall b b', foldM f b l = Some b' -> (m b' <= m b + length l)%nat.
Proof.
  intros Hstep. induction l as [|x l IH]; intros b b'; simpl.
  - intros [= <-]. lia.
  - destruct (f b x) as [b1|] eqn:E; cbn [mbind option_bind]; [|discriminate].
    intros E'. apply IH in E'. apply Hstep in E. lia.
Qed.

Lemma render_drawn_count (g : Game) (rp : RoadPass) :
  render g = Some rp -> (length (rp_drawn rp) <= DRAW_DISTANCE)%nat.
Proof.
  unfold render.
  destruct (findSegment g (position g)) as [base|]; cbn [mbind option_bind];
    [|discriminate].
  destruct (findSegment g _) as [ps|]; cbn [mbind option_bind]; [|discriminate].
  intros E.
  apply (foldM_count _ (fun st => length (rp_drawn st))) in E.
  - rewrite length_seq in E. exact E.
  - intros st n st'. unfold render_iter.
    destruct (at_index _ _) as [sg|]; cbn [mbind option_bind]; [|discriminate].
    match goal with
    | |- context [if ?c then _ else _] => destruct c
    end; intros [= <-]; cbn [rp_drawn]; [lia|].
    rewrite length_app. simpl. lia.
Qed.

(** *** Depths [findSegment] has no segment for *)

Lemma findSegment_negative (g : Game) (z : Q) :
  z < 0 ->
  - ((inject_Z (Z.of_nat (length (segments g))) - 1) * 200) <= z ->
  findSegment g (Num z) = None.
Proof.
  intros Hneg Hlo. unfold findSegment, SEGMENT_LENGTH, ndiv.
  change (Qeq_bool 200 0) with false. cbn iota. unfold floorZ.
  rewrite Qfloor_Qred.
  set (N := Z.of_nat (length (segments g))) in *.
  assert (Hk1 : (Qfloor (z / 200) < 0)%Z).
  { rewrite Zlt_Qlt. eapply Qle_lt_trans; [apply Qfloor_le|].
    unfold Qdiv. change (/ 200) with (1 # 200). change (inject_Z 0) with 0. lra. }
  assert (Hk2 : (- (N - 1) <= Qfloor (z / 200))%Z).
  { rewrite <- (Qfloor_Z (- (N - 1))). apply Qfloor_resp_le.
    rewrite inject_Z_opp. unfold Zminus. rewrite inject_Z_plus.
    change (inject_Z (- (1))) with (- (1)).
    unfold Qdiv. change (/ 200) with (1 # 200). lra. }
  unfold zrem. destruct (length (segments g)) as [|n] eqn:En; [reflexivity|].
  fold N. unfold at_index.
  set (k := Qfloor (z / 200)) in *.
  assert (Hrem : Z.rem k N = k).
  { replace k with (- (- k))%Z at 1 by lia. rewrite Z.rem_opp_l' .
    rewrite Z.rem_small by lia. lia. }
  rewrite Hrem.
  replace (k <? 0)%Z with true by (symmetry; apply Z.ltb_lt; lia).
  reflexivity.
Qed.

Lemma render_no_base (g : Game) : findSegment g (position g) = None -> render g = None.
Proof. intros H. unfold render. rewrite H. reflexivity. Qed.

(** ** The keyboard *)

Lemma keyboard_mode_event (s : InputSystem) (e : InputEvent) :
  keyboard_mode s -> keyboard_mode (apply_event s e).
Proof. intros [Ha Hk]. destruct e; split; auto. Qed.

Lemma getCommand_keyboard (s : InputSystem) :
  keyboard_mode s ->
  command_in_range (fst (getCommand s)) /\ keyboard_mode (snd (getCommand s))
  /\ steer (fst (getCommand s)) = keyboardSteer (snd (getCommand s)).
Proof.
  intros (Ha & k & Ek & Hlo & Hhi). unfold getCommand. rewrite Ha, Ek.
  set (up := pressed s "ArrowUp" || pressed s "KeyW").
  set (down := pressed s "ArrowDown" || pressed s "KeyS").
  assert (Hsteer : exists k',
    (if negb (same (if pressed s "ArrowRight" || pressed s "KeyD"
                    then Num (-1)
                    else if pressed s "ArrowLeft" || pressed s "KeyA"
                         then Num 1 else Num 0) (Num 0))
     then (Num k + ((if pressed s "ArrowRight" || pressed s "KeyD"
                     then Num (-1)
                     else if pressed s "ArrowLeft" || pressed s "KeyA"
                          then Num 1 else Num 0) - Num k) * steerSpeed)%num
     else if (nabs (Num k * (Num 1 - steerReturn)) <? Num 0.01)%num
          then Num 0 else (Num k * (Num 1 - steerReturn))%num) = Num k'
    /\ -1 <= k' /\ k' <= 1).
  { unfold steerSpeed, steerReturn.
    destruct (pressed s "ArrowRight" || pressed s "KeyD");
      [|destruct (pressed s "ArrowLeft" || pressed s "KeyA")];
      cbn [same negb Qeq_bool];
      try (change (Qeq_bool (-1) 0) with false);
      try (change (Qeq_bool 1 0) with false);
      try (change (Qeq_bool 0 0) with true); cbn [negb].
    - unfold nadd, nsub, nmul. eexists. split; [reflexivity|]. unred. lra.
    - unfold nadd, nsub, nmul. eexists. split; [reflexivity|]. unred. lra.
    - unfold nsub, nmul.
      destruct (nabs _ <? Num 0.01)%num;
        eexists; (split; [reflexivity|]); unred; lra. }
  destruct Hsteer as (k' & Ek' & Hlo' & Hhi').
  cbn [fst snd steer accel brake]. 
  split; [|split].
  - split; [|split].
    + exists k'. cbn [steer]. rewrite <- Ek'. auto.
    + cbn [accel]. destruct up; auto.
    + cbn [brake]. destruct down; auto.
  - split; [exact Ha|]. exists k'. cbn [keyboardSteer set_keyboardSteer].
    rewrite <- Ek'. auto.
  - reflexivity.
Qed.

Lemma newInput_keyboard : keyboard_mode newInput.
Proof. split; [reflexivity|]. exists 0. split; [reflexivity | lra]. Qed.

(** One poll with no steering key held. *)
Lemma getCommand_released (s : InputSystem) (k b : Q) :
  active (gesture s) = false ->
  pressed s "ArrowLeft" || pressed s "KeyA" = false ->
  pressed s "ArrowRight" || pressed s "KeyD" = false ->
  keyboardSteer s = Num k -> Qabs k <= b ->
  keys (snd (getCommand s)) = keys s
  /\ gesture (snd (getCommand s)) = gesture s
  /\ (keyboardSteer (snd (getCommand s)) = Num 0
      \/ exists k', keyboardSteer (snd (getCommand s)) = Num k'
                    /\ Qabs k' <= b * (4 # 5) /\ 1 # 100 <= Qabs k').
Proof.
  intros Ha Hl Hr Ek Hb. unfold getCommand. rewrite Ha, Hl, Hr, Ek.
  cbn [snd keys gesture keyboardSteer set_keyboardSteer].
  split; [reflexivity|]. split; [reflexivity|].
  change (negb (same (Num 0) (Num 0))) with false. cbn iota.
  unfold steerReturn, nsub, nmul, nabs.
  match goal with
  | |- context [Qle_bool 0 ?q] => set (k' := q)
  end.
  assert (Ek' : k' == k * (4 # 5)) by (unfold k'; unred; lra).
  assert (Habs : Qabs k' == Qabs k * (4 # 5)).
  { rewrite Ek', Qabs_Qmult. reflexivity. }
  assert (Eif : (if Qle_bool 0 k' then k' else - k') == Qabs k').
  { destruct (Qle_bool 0 k') eqn:E; qbool.
    - symmetry. now apply Qabs_pos.
    - symmetry. apply Qabs_neg. lra. }
  destruct (Num _ <? Num 0.01)%num eqn:Elt; [now left|].
  right. exists k'. split; [reflexivity|]. qbool.
  rewrite Eif in Elt. split; [rewrite Habs; nra | lra].
Qed.

Lemma decay_pos (j : nat) : 0 < decay j.
Proof. induction j; simpl; lra. Qed.

Lemma decay_mono (i j : nat) : (i <= j)%nat -> decay j <= decay i.
Proof.
  induction 1 as [|j _ IH]; [lra|]. simpl. pose proof (decay_pos j). lra.
Qed.

Lemma polls_S (n : nat) (s : InputSystem) :
  polls (S n) s = snd (getCommand (polls n s)).
Proof. reflexivity. Qed.

Lemma polls_released (s : InputSystem) (k : Q) :
  active (gesture s) = false ->
  pressed s "ArrowLeft" || pressed s "KeyA" = false ->
  pressed s "ArrowRight" || pressed s "KeyD" = false ->
  keyboardSteer s = Num k -> -1 <= k -> k <= 1 ->
  forall n,
    keys (polls n s) = keys s /\ gesture (polls n s) = gesture s
    /\ ((0 < n)%nat /\ keyboardSteer (polls n s) = Num 0
        \/ exists k', keyboardSteer (polls n s) = Num k'
                      /\ Qabs k' <= decay n
                      /\ ((0 < n)%nat -> 1 # 100 <= Qabs k')).
Proof.
  intros Ha Hl Hr Ek Hlo Hhi. induction n as [|n (Hkeys & Hg & IH)].
  - split; [reflexivity|]. split; [reflexivity|]. right. exists k.
    split; [exact Ek|]. split; [|lia]. simpl. apply Qabs_Qle_condition. lra.
  - rewrite polls_S.
    assert (Ha' : active (gesture (polls n s)) = false) by (rewrite Hg; exact Ha).
    assert (Hl' : pressed (polls n s) "ArrowLeft" || pressed (polls n s) "KeyA"
                  = false) by (unfold pressed in *; rewrite Hkeys; exact Hl).
    assert (Hr' : pressed (polls n s) "ArrowRight" || pressed (polls n s) "KeyD"
                  = false) by (unfold pressed in *; rewrite Hkeys; exact Hr).
    destruct IH as [[_ E0] | (k' & Ek' & Hb & _)].
    + destruct (getCommand_released (polls n s) 0 0 Ha' Hl' Hr' E0)
        as (-> & -> & Hcase); [apply Qabs_Qle_condition; lra|].
      split; [exact Hkeys|]. split; [exact Hg|]. left. split; [lia|].
      destruct Hcase as [E | (k'' & _ & Hle & Hge)]; [exact E | lra].
    + destruct (getCommand_released (polls n s) k' (decay n) Ha' Hl' Hr' Ek' Hb)
        as (-> & -> & Hcase).
      split; [exact Hkeys|]. split; [exact Hg|].
      destruct Hcase as [E | (k'' & E & Hle & Hge)]; [left; split; [lia|exact E]|].
      right. exists k''. simpl. auto.
Qed.

(** ** The frame loop *)

Lemma crash_isPlaying (g : Game) : isPlaying (crash g) = isPlaying g.
Proof. unfold crash. simpl. destruct (score g >? highScore g)%num; reflexivity. Qed.

Lemma updateTraffic_isPlaying dt g g' :
  updateTraffic dt g = Some g' -> isPlaying g' = isPlaying g.
Proof.
  intros E. apply updateTraffic_phases in E as (g1 & ms & g2 & E1 & _ & E2 & ->).
  assert (H1 : isPlaying g1 = isPlaying g).
  { revert E1.
    apply (visits_preserve _ _ _ (fun h => isPlaying h = isPlaying g));
      [|reflexivity].
    intros h r c HP _. cbn [isPlaying set_carObjs]. rewrite <- HP.
    unfold game_after.
    destruct (closeCall_fires _ _ _ h c), (collides _ _ _ h c);
      rewrite ?crash_isPlaying; reflexivity. }
  assert (isPlaying g2 = isPlaying g1) as E3 by (rewrite E2; reflexivity).
  destruct (speed g2 >? Num 0)%num; simpl; congruence.
Qed.

Lemma update_isPlaying dt cmd g g' :
  update dt cmd g = Some g' -> isPlaying g' = isPlaying g.
Proof.
  rewrite update_parts. destruct (isGameOver g).
  - intros [= <-]. reflexivity.
  - destruct (move_player dt cmd g) as [g1|] eqn:E1; cbn [mbind option_bind];
      [|discriminate].
    destruct (updateTraffic dt g1) as [g2|] eqn:E2; cbn [mbind option_bind];
      [|discriminate].
    intros E3. apply updateTraffic_isPlaying in E2.
    apply move_player_fields in E1 as (_ & _ & _ & _ & _ & _ & E1).
    destruct (checkSpriteCollisions_cases g2 g' E3) as [-> | ->];
      rewrite ?crash_isPlaying; congruence.
Qed.

(** The elapsed time [step] computes from two timestamps in order. *)
Lemma step_tick (t now : Q) :
  t < now ->
  tick_ok (nmin (Num 1) ((Num now - Num t) / Num 1000)%num) = true.
Proof.
  intros Hlt. unfold nsub, ndiv. change (Qeq_bool 1000 0) with false. cbn iota.
  unfold nmin, tick_ok. apply andb_true_iff.
  destruct (Qle_bool 1 _) eqn:E; qbool; split; qbool; unred;
    unfold Qdiv in *; change (/ 1000) with (1 # 1000) in *;
    revert E; unred; intros E; lra.
Qed.

Lemma same_track_curves (g g' : Game) :
  Forall2 same_track (segments g) (segments g') ->
  curves_are_numbers g = true -> curves_are_numbers g' = true.
Proof.
  intros HF Hc. unfold curves_are_numbers in *.
  rewrite forallb_forall in Hc. apply forallb_forall. intros sg' Hin.
  apply list_elem_of_In, list_elem_of_lookup in Hin as [i Hi].
  destruct (Forall2_lookup_r _ _ _ _ _ HF Hi) as (sg & Hsg & Hr).
  destruct Hr as (_ & _ & _ & _ & -> & _).
  apply Hc. apply list_elem_of_In. eapply list_elem_of_lookup_2; eauto.
Qed.

Lemma update_game_ok dt cmd g :
  game_ok g -> tick_ok dt = true -> is_num (steer cmd) = true ->
  exists g', update dt cmd g = Some g' /\ game_ok g'.
Proof.
  intros (HI & Hk & (x & Ex & Hx) & Hv & Hplay) Hdt Hs.
  destruct (update_Inv dt cmd g HI Hdt) as (g' & E & HI').
  exists g'. split; [exact E|]. split; [exact HI'|].
  split; [eapply curves_road; eauto using update_road|].
  split; [|split; [exact (update_speed_range dt cmd g g' HI Hdt E Hv)|]].
  - assert (Hxn : is_num (playerX g) = true) by (rewrite Ex; reflexivity).
    assert (Hn : is_num (playerX g') = true)
      by exact (update_player_ranges dt cmd g g' HI Hk Hxn Hdt Hs E).
    destruct (isGameOver g) eqn:Hover.
    { unfold update in E. rewrite Hover in E. injection E as <-. eauto. }
    destruct (update_playerX_NaN dt cmd g g' Hover E) as [[Hnan | Hr] _];
      [rewrite Hnan in Hn; discriminate | exact Hr].
  - rewrite (update_isPlaying _ _ _ _ E). exact Hplay.
Qed.

Lemma render_game_ok (g : Game) :
  game_ok g -> exists rp, render g = Some rp /\ game_ok (rp_game rp).
Proof.
  intros (HI & Hk & Hx & Hv & Hplay).
  destruct (render_Inv g HI) as (rp & E & HI').
  exists rp. split; [exact E|].
  destruct (render_frame g rp E) as [Hg Hs].
  split; [exact HI'|]. split; [eapply same_track_curves; eauto|].
  rewrite Hg. cbn [playerX speed isPlaying set_segments]. auto.
Qed.

Lemma step_ok (L : Loop) (t now : Q) :
  loop_ok L -> lastTime L = Num t -> t < now ->
  exists L', step (Num now) L = Some L' /\ loop_ok L'
             /\ lastTime L' = Num now.
Proof.
  intros [Hg Hkb] Et Hlt. unfold step.
  pose proof Hg as (_ & _ & _ & _ & Hplay). rewrite Hplay, Et. cbn [negb].
  pose proof (step_tick t now Hlt) as Hdt.
  set (dt := nmin (Num 1) ((Num now - Num t) / Num 1000)%num) in *.
  destruct (isGameOver (game L)) eqn:Hover.
  - destruct (update_game_ok dt (mkCommand (Num 0) (Num 0) (Num 0)) (game L) Hg Hdt
                eq_refl) as (g' & -> & Hg').
    cbn [mbind option_bind].
    destruct (render_game_ok g' Hg') as (rp & -> & Hrp).
    cbn [mbind option_bind]. eexists. split; [reflexivity|].
    split; [split; assumption | reflexivity].
  - destruct (getCommand_keyboard (input L) Hkb) as (Hc & Hkb' & _).
    destruct (getCommand (input L)) as [cmd inp]. cbn [fst snd] in *.
    assert (Hs : is_num (steer cmd) = true).
    { destruct Hc as ((k & -> & _) & _). reflexivity. }
    destruct (update_game_ok dt cmd (game L) Hg Hdt Hs) as (g' & -> & Hg').
    cbn [mbind option_bind].
    destruct (render_game_ok g' Hg') as (rp & -> & Hrp).
    cbn [mbind option_bind]. eexists. split; [reflexivity|].
    split; [split; assumption | reflexivity].
Qed.

Lemma events_keyboard (evs : list InputEvent) :
  forall s, keyboard_mode s -> keyboard_mode (foldl apply_event s evs).
Proof.
  induction evs as [|e evs IH]; intros s Hs; simpl; [exact Hs|].
  apply IH. now apply keyboard_mode_event.
Qed.

Lemma run_frames_ok (frames : list (list InputEvent * Q)) :
  forall L t, loop_ok L -> lastTime L = Num t -> increasing t frames ->
  exists L', run_frames frames L = Some L' /\ loop_ok L'
             /\ lastTime L' = Num (last_time t frames).
Proof.
  induction frames as [|[evs now] frames IH]; intros L t HL Et Hinc.
  - exists L. split; [reflexivity|]. split; [exact HL | exact Et].
  - destruct Hinc as [Hlt Hinc]. cbn [run_frames].
    destruct (step_ok (mkLoop (game L) (foldl apply_event (input L) evs)
                              (lastTime L)) t now)
      as (L1 & -> & HL1 & Et1); [|exact Et|exact Hlt|].
    { destruct HL as [Hg Hkb]. split; [exact Hg|].
      now apply events_keyboard. }
    cbn [mbind option_bind].
    destruct (IH L1 now HL1 Et1 Hinc) as (L' & E & HL' & Et').
    exists L'. split; [exact E|]. split; [exact HL'|].
    rewrite Et'. f_equal. unfold last_time. cbn [map snd].
    destruct frames as [|f frames]; [reflexivity|].
    cbn [map]. rewrite !last_cons.
    destruct (last (map snd frames)); reflexivity.
Qed.

Lemma newGame_game_ok (w h stored : num) (rnd : nat -> Q) :
  (forall j, 0 <= rnd j /\ rnd j < 1) ->
  exists g, newGame w h stored rnd = Some g
            /\ game_ok (set_isPlaying true g) /\ isPlaying g = false
            /\ isGameOver g = false.
Proof.
  intros Hrnd.
  destruct (newGame_Layout w h stored rnd Hrnd) as (g & E & HI & HL & HK).
  exists g. split; [exact E|].
  assert (Hplay : Inv (set_isPlaying true g)).
  { destruct HI as (Ht & Hp & Ho). split; [exact Ht|]. split; [exact Hp|].
    exact Ho. }
  split; [|rewrite HK; split; reflexivity].
  split; [exact Hplay|]. split; [eapply Layout_curves; eauto|].
  rewrite HK. cbn. split; [exists 0; split; [reflexivity|lra]|].
  split; [exists 0; split; [reflexivity|lra] | reflexivity].
Qed.

Lemma restart_game_ok (rnd : nat -> Q) (g : Game) :
  (forall j, 0 <= rnd j /\ rnd j < 1) ->
  exists g1 g',
    resetRoad rnd g = Some g1 /\ restart rnd g = Some g'
    /\ g' = mkGame (width g) (height g) (Num 0) (Num 0) (Num 0) (Num 0) (Num 0)
                   (segments g1) (carObjs g1) true false (highScore g)
                   (storedHighScore g)
    /\ Layout TOTAL_SEGMENTS g1 /\ game_ok g'.
Proof.
  intros Hrnd.
  destruct (resetRoad_Layout rnd g Hrnd) as (g1 & E & HL & HK).
  destruct (resetRoad_Built rnd g (rnd_nonneg rnd Hrnd)) as (g1' & E' & HB & _).
  rewrite E in E'. injection E' as <-.
  unfold restart. rewrite E. cbn [mbind option_bind].
  eexists g1, _. split; [reflexivity|]. split; [reflexivity|].
  assert (Eg : mkGame (width g) (height g) (Num 0) (Num 0) (Num 0) (Num 0) (Num 0)
                 (segments g1) (carObjs g1) true false (highScore g)
                 (storedHighScore g)
               = mkGame (width g1) (height g1) (Num 0) (Num 0) (Num 0) (Num 0)
                   (Num 0) (segments g1) (carObjs g1) true false (highScore g1)
                   (storedHighScore g1)).
  { rewrite HK. reflexivity. }
  split; [rewrite Eg; reflexivity|]. split; [exact HL|].
  cbn [width height position playerX speed score distanceRun segments carObjs
       isGameOver highScore storedHighScore set_speed set_score set_distanceRun
       set_position set_playerX set_isGameOver].
  set (g' := mkGame _ _ _ _ _ _ _ _ _ _ _ _ _).
  destruct (Built_track g1 HB) as [Ht Ho].
  assert (HI : Inv g').
  { split; [exact Ht|]. split; [|exact Ho].
    destruct HB as [Hlen _]. apply (player_wf_iff g'); [exact Hlen|].
    exists 0, 0. split_and!; try reflexivity; lra. }
  split; [exact HI|]. split; [exact (Layout_curves _ _ HL)|].
  split; [exists 0; split; [reflexivity|lra]|].
  split; [exists 0; split; [reflexivity|lra] | reflexivity].
Qed.

(** ** The wave gesture and the audio targets *)

Lemma wave_scan_bound (l : list WavePoint) :
  forall prev c d,
    (wave_scan prev l c d
     <= c + length l - match d with Some _ => 0 | None => 1 end)%nat
    \/ (l = [] /\ wave_scan prev l c d = c).
Proof.
  induction l as [|p l IH]; intros prev c d; [right; auto|]. left. simpl.
  destruct (nabs _ >? Num 0.02)%num.
  - destruct d as [d|].
    + destruct (Bool.eqb _ d);
        destruct (IH (wave_x p) c (Some (wave_x p - prev >? Num 0)%num))
          as [H | [-> H]];
        try (destruct (IH (wave_x p) (S c) (Some (wave_x p - prev >? Num 0)%num))
               as [H' | [-> H']]); simpl in *; lia.
    + destruct (IH (wave_x p) c (Some (wave_x p - prev >? Num 0)%num))
        as [H | [-> H]]; simpl in *; lia.
  - destruct (IH (wave_x p) c d) as [H | [-> H]]; destruct d; simpl in *; lia.
Qed.

Lemma directionChanges_bound (h : list WavePoint) :
  (directionChanges h + 2 <= length h)%nat \/ directionChanges h = 0%nat.
Proof.
  destruct h as [|p l]; [now right|]. unfold directionChanges.
  destruct (wave_scan_bound l (wave_x p) 0 None) as [H | [-> H]];
    [|right; exact H].
  destruct l as [|q l]; [right; reflexivity|]. left. simpl in *. lia.
Qed.

Lemma detectWaveGesture_fired (x now : num) (s : InputSystem) :
  snd (detectWaveGesture x now s) = true ->
  waveHistory (fst (detectWaveGesture x now s)) = []
  /\ lastWaveTime (fst (detectWaveGesture x now s)) = now
  /\ (now - lastWaveTime s >? waveCooldown)%num = true
  /\ (3 <= directionChanges
             (List.filter (fun p => (now - wave_time p <? waveTimeWindow)%num)
                          (waveHistory s ++ [mkWavePoint x now])))%nat.
Proof.
  unfold detectWaveGesture.
  destruct (length _ <? 4)%nat; [discriminate|].
  destruct ((waveThreshold <=? _)%nat && _) eqn:E; [|discriminate].
  intros _. apply andb_true_iff in E as [E1 E2].
  apply Nat.leb_le in E1. cbn. auto.
Qed.

Lemma detectWaveGesture_quiet (x now : num) (s : InputSystem) :
  snd (detectWaveGesture x now s) = false ->
  lastWaveTime (fst (detectWaveGesture x now s)) = lastWaveTime s.
Proof.
  unfold detectWaveGesture.
  destruct (length _ <? 4)%nat; [reflexivity|].
  destruct ((waveThreshold <=? _)%nat && _); [discriminate | reflexivity].
Qed.


(** ** The sprite pass *)

Lemma sprite_pass_sprites_app (segment : Segment) (sps : list Sprite) :
  forall draws, exists extra,
    foldl (sprite_pass_sprite segment) draws sps = draws ++ extra
    /\ drawn_cars extra = [].
Proof.
  induction sps as [|s sps IH]; intros draws; simpl.
  - exists []. rewrite app_nil_r. auto.
  - destruct (IH (sprite_pass_sprite segment draws s)) as (extra & -> & Hex).
    unfold sprite_pass_sprite. destruct (_ >? Num 5)%num.
    + eexists (_ :: extra). rewrite <- app_assoc. split; [reflexivity|].
      exact Hex.
    + exists extra. auto.
Qed.

Lemma sprite_pass_car_eq (g : Game) (segment : Segment) (draws : list Draw)
    (r : ref) (c : Car) :
  carObjs g !! r = Some c ->
  sprite_pass_car g segment draws r
  = Some (if (screen_w (screen (p1 segment)) >? Num 5)%num
          then draws ++ [DrawCar (screen_x (screen (p1 segment))
                                  + screen_w (screen (p1 segment))
                                    * car_offset c)%num
                                 (screen_y (screen (p1 segment)))
                                 (screen_w (screen (p1 segment))) r]
          else draws).
Proof.
  intros Hc. unfold sprite_pass_car. rewrite Hc. cbn [mbind option_bind].
  destruct (_ >? Num 5)%num; reflexivity.
Qed.

Lemma sprite_pass_cars_total (g : Game) (segment : Segment) (cs : list ref) :
  (forall r, r ∈ cs -> (r < length (carObjs g))%nat) ->
  forall draws,
    exists new,
      foldM (sprite_pass_car g segment) draws cs = Some (draws ++ new)
      /\ drawn_cars new `sublist_of` cs.
Proof.
  induction cs as [|r cs IH]; intros Hrefs draws.
  - exists []. rewrite app_nil_r. split; [reflexivity | constructor].
  - destruct (lookup_lt_is_Some_2 (carObjs g) r) as [c Hc];
      [apply Hrefs; left|].
    assert (Hrest : forall r', r' ∈ cs -> (r' < length (carObjs g))%nat)
      by (intros r' Hr'; apply Hrefs; now right).
    cbn [foldM]. rewrite (sprite_pass_car_eq g segment draws r c Hc).
    cbn [mbind option_bind].
    destruct (_ >? Num 5)%num.
    + match goal with
      | |- context [foldM _ (draws ++ [?d]) cs] =>
          destruct (IH Hrest (draws ++ [d])) as (new & E & Hsub);
          exists (d :: new)
      end.
      rewrite E. split.
      * rewrite <- app_assoc. reflexivity.
      * simpl. now constructor.
    + destruct (IH Hrest draws) as (new & E & Hsub).
      exists new. split; [exact E|]. now constructor.
Qed.

Lemma sprite_pass_iter_total (g : Game) (base : Segment) (draws : list Draw)
    (n : nat) :
  segments g <> [] -> refs_valid g ->
  exists segment new,
    segments g
      !! Z.to_nat ((Z.of_nat (index base) + Z.of_nat n)
                   mod Z.of_nat (length (segments g))) = Some segment
    /\ sprite_pass_iter g base draws n = Some (draws ++ new)
    /\ drawn_cars new `sublist_of` cars segment.
Proof.
  intros Hne Hrefs. unfold sprite_pass_iter.
  assert (HN : length (segments g) <> 0%nat)
    by (destruct (segments g); simpl; congruence).
  rewrite zrem_nonneg by lia.
  destruct (at_index_mod (segments g) (Z.of_nat (index base) + Z.of_nat n) Hne)
    as [sg Hsg].
  rewrite Hsg. cbn [mbind option_bind].
  pose proof (at_index_lookup _ _ _ Hsg) as Hlook. cbn [default] in Hlook.
  destruct (sprite_pass_cars_total g sg (cars sg)) with (draws := draws)
    as (new & -> & Hsub).
  { intros r Hr. eapply Hrefs; eauto. }
  cbn [mbind option_bind].
  destruct (sprite_pass_sprites_app sg (sprites sg) (draws ++ new))
    as (extra & -> & Hex).
  exists sg, (new ++ extra). split; [exact Hlook|]. split.
  - rewrite <- app_assoc. reflexivity.
  - unfold drawn_cars in *. rewrite omap_app, Hex, app_nil_r. exact Hsub.
Qed.

Lemma window_distinct (b N : Z) (n m : nat) :
  (300 <= N)%Z -> (0 <= b)%Z -> (n < 300)%nat -> (m < 300)%nat ->
  ((b + Z.of_nat n) mod N = (b + Z.of_nat m) mod N)%Z -> n = m.
Proof.
  intros HN Hb Hn Hm E.
  assert (H : forall x y : Z, (0 <= x - y < N)%Z -> (x mod N = y mod N)%Z ->
                              x = y).
  { intros x y Hxy Exy.
    assert (((x - y) mod N) = 0)%Z.
    { rewrite Zminus_mod, Exy, Z.sub_diag. apply Z.mod_0_l. lia. }
    rewrite Z.mod_small in H by lia. lia. }
  destruct (le_lt_dec n m).
  - assert ((b + Z.of_nat m) = (b + Z.of_nat n))%Z by (apply H; [lia | auto]).
    lia.
  - assert ((b + Z.of_nat n) = (b + Z.of_nat m))%Z by (apply H; [lia | auto]).
    lia.
Qed.

(** On a track of at least 300 segments in which every car is held by one
    segment, once, the sprite pass returns and draws no car twice. *)
Lemma sprite_pass_NoDup (g : Game) (base : Segment) (loc : ref -> nat) :
  (300 <= length (segments g))%nat -> refs_valid g -> Located g loc ->
  exists draws, sprite_pass g base = Some draws /\ NoDup (drawn_cars draws).
Proof.
  intros HN Hrefs HL. unfold sprite_pass.
  assert (Hne : segments g <> []).
  { intros Hnil. rewrite Hnil in HN. simpl in HN. lia. }
  set (N := Z.of_nat (length (segments g))).
  set (at_n := fun n : nat => Z.to_nat ((Z.of_nat (index base) + Z.of_nat n) mod N)).
  pose (P := fun (done : list nat) (draws : list Draw) =>
    NoDup (drawn_cars draws)
    /\ forall r, r ∈ drawn_cars draws -> exists m, m ∈ done /\ loc r = at_n m).
  destruct (foldM_invariant (sprite_pass_iter g base) P
              (reverse (seq 1 (DRAW_DISTANCE - 1))) [] [])
    as (draws & E & Hnd & _).
  - split; [constructor|]. intros r Hr. inversion Hr.
  - intros done n rest draws Hsplit [Hnd Hloc]. rewrite app_nil_l in Hsplit.
    destruct (sprite_pass_iter_total g base draws n Hne Hrefs)
      as (sg & new & Hsg & E & Hsub).
    exists (draws ++ new). split; [exact E|].
    assert (Hnew : forall r, r ∈ drawn_cars new -> loc r = at_n n).
    { intros r Hr. pose proof (elem_of_sublist _ _ _ Hr Hsub) as Hin.
      destruct (HL _ _ Hsg) as [_ Hmem]. apply Hmem in Hin as [_ Hloc'].
      exact Hloc'. }
    assert (Hwin : forall m, m ∈ reverse (seq 1 (DRAW_DISTANCE - 1)) ->
                             (m < 300)%nat).
    { intros m Hm. apply elem_of_reverse, elem_of_seq in Hm.
      unfold DRAW_DISTANCE in Hm. lia. }
    assert (Hfresh : n ∉ done).
    { intros Hin.
      assert (Hdup : NoDup (reverse (seq 1 (DRAW_DISTANCE - 1))))
        by (rewrite reverse_Permutation; apply NoDup_seq).
      rewrite Hsplit in Hdup. apply NoDup_app in Hdup as (_ & Hdis & _).
      apply (Hdis n Hin). left. }
    split.
    + unfold drawn_cars in *. rewrite omap_app. apply NoDup_app.
      split; [exact Hnd|]. split.
      * intros r Hr Hr'. destruct (Hloc r Hr) as (m & Hm & Em).
        pose proof (Hnew r Hr') as En. rewrite Em in En.
        assert (m = n); [|subst; contradiction].
        assert (Hm300 : (m < 300)%nat).
        { apply Hwin. rewrite Hsplit. apply elem_of_app. now left. }
        assert (Hn300 : (n < 300)%nat).
        { apply Hwin. rewrite Hsplit. apply elem_of_app. right. left. }
        apply (window_distinct (Z.of_nat (index base)) N); try lia.
        unfold at_n in En.
        assert (0 < N)%Z by (unfold N; lia).
        pose proof (Z.mod_pos_bound (Z.of_nat (index base) + Z.of_nat m) N H).
        pose proof (Z.mod_pos_bound (Z.of_nat (index base) + Z.of_nat n) N H).
        lia.
      * destruct (HL _ _ Hsg) as [Hnd' _]. eapply sublist_NoDup; eauto.
    + intros r. unfold drawn_cars in *. rewrite omap_app, elem_of_app.
      intros [Hr | Hr].
      * destruct (Hloc r Hr) as (m & Hm & Em). exists m.
        split; [apply elem_of_app; now left | exact Em].
      * exists n. split; [apply elem_of_app; right; left | now apply Hnew].
  - exists draws. split; [exact E | exact Hnd].
Qed.

Lemma render_sprites_NoDup (g : Game) :
  Inv g ->
  exists draws, render_sprites g = Some draws /\ NoDup (drawn_cars draws).
Proof.
  intros HI. destruct (render_Inv g HI) as (rp & E & HI').
  unfold render_sprites.
  destruct (findSegment g (position g)) as [base|] eqn:Eb;
    [|unfold render in E; rewrite Eb in E; discriminate].
  cbn [mbind option_bind]. rewrite E. cbn [mbind option_bind].
  pose proof (Inv_length _ HI') as HN.
  destruct HI' as (Ht & _ & loc & HL & _).
  apply track_wf_iff in Ht as (_ & Hrefs & _).
  apply (sprite_pass_NoDup (rp_game rp) base loc); auto.
  rewrite HN. unfold TOTAL_SEGMENTS. lia.
Qed.
(** ** The player's part of a step, seen from its result *)

(** The off-road test reads the lateral offset before its clamp; the clamp
    to [-2, 2] does not change the answer. *)
Lemma off_road_clamp (x : num) :
  off_road (nmax (Num (-2)) (nmin (Num 2) x)) = off_road x.
Proof.
  destruct x as [x|]; [|reflexivity].
  unfold off_road, nmin, nmax.
  destruct (Qle_bool 2 x) eqn:E1; simpl.
  - replace (Qle_bool (-2) 2) with true by reflexivity.
    apply Qle_bool_iff in E1. symmetry.
    replace (Num 2 <? Num (-1))%num with false by reflexivity.
    replace (Num 2 >? Num 1)%num with true by reflexivity.
    assert (H : (Num x >? Num 1)%num = true) by (apply ngt_Num; lra).
    rewrite H. apply orb_true_r.
  - destruct (Qle_bool (-2) x) eqn:E2; [reflexivity|].
    apply Qle_bool_false in E2.
    replace (Num (-2) <? Num (-1))%num with true by reflexivity.
    assert (H : (Num x <? Num (-1))%num = true) by (apply nlt_Num; lra).
    rewrite H. reflexivity.
Qed.

(** The speed a step leaves, read off the state it returns. *)
Lemma update_speed dt cmd g g' :
  isGameOver g = false -> update dt cmd g = Some g' ->
  (isGameOver g' = false ->
   speed g' = if off_road (playerX g') && (speed_clamped dt cmd g >? Num 2000)%num
              then (speed_clamped dt cmd g + OFF_ROAD_DECEL * dt * Num 60)%num
              else speed_clamped dt cmd g)
  /\ (isGameOver g' = true -> speed g' = Num 0).
Proof.
  intros Hover E.
  destruct (update_player dt cmd g g' Hover E) as (sg & g1 & Hsg & Hm & Hf).
  destruct (move_player_fields dt cmd g g1 Hm) as (_ & _ & _ & Ho1 & _).
  unfold move_player in Hm. rewrite Hsg in Hm. simpl in Hm.
  injection Hm as <-.
  destruct Hf as (_ & Hx & _ & _ & _ & Hs). simpl in Hx, Hs, Ho1.
  rewrite Hx, off_road_clamp. fold (speed_penalised dt cmd g sg).
  destruct Hs as [[Hs Ho] | [Hs Ho]].
  - split; [intros _; exact Hs|]. intros Ht. congruence.
  - split; [|intros _; exact Hs]. intros Ht. congruence.
Qed.

(** Without steering the lateral offset stays where it is (up to its clamp),
    whatever the curve of the road and the speed. *)
Lemma zero_steer_keeps_offset dt cmd g g' :
  isGameOver g = false -> update dt cmd g = Some g' ->
  steer cmd = Num 0 -> is_num (playerX g) = true -> is_num (speed g) = true ->
  is_num dt = true -> curves_are_numbers g = true ->
  same (playerX g') (nmax (Num (-2)) (nmin (Num 2) (playerX g))) = true.
Proof.
  intros Hover E Hs Hpx Hv Hd Hk.
  destruct (update_playerX dt cmd g g' Hover E) as (sg & Hsg & Hx & _).
  apply is_num_true in Hpx as [x Ex]. apply is_num_true in Hv as [v Ev].
  apply is_num_true in Hd as [d Ed].
  destruct (curves_are_numbers_elem g sg Hk (findSegment_elem _ _ _ Hsg))
    as [k Ek].
  destruct (lateral_raw_no_steer dt cmd g sg x v d k Hs Ex Ev Ed Ek)
    as (x' & Er & Exx).
  rewrite Hx, Er, Ex. now apply clamp_same.
Qed.

Lemma steer_bounded_num (cmd : Command) :
  steer_bounded cmd = true -> is_num (steer cmd) = true.
Proof. unfold steer_bounded. destruct (steer cmd); [reflexivity | discriminate]. Qed.

(** The player's fields along a game: from the constructor, after any run
    of ticks in (0, 1] with commands whose [steer] is a number. *)
Lemma reach_player_ranges
    (w h stored : num) (rnd : nat -> Q) (inputs : list (num * Command)) :
  (forall j, 0 <= rnd j /\ rnd j < 1) ->
  Forall (fun x => tick_ok (fst x) = true /\ is_num (steer (snd x)) = true)
         inputs ->
  exists g0 g,
    newGame w h stored rnd = Some g0 /\ run inputs g0 = Some g /\ Inv g
    /\ curves_are_numbers g = true
    /\ (exists x, playerX g = Num x /\ -2 <= x /\ x <= 2)
    /\ (exists v, speed g = Num v /\ -10000 < v /\ v <= 12000).
Proof.
  intros Hrnd Hin.
  destruct (newGame_Layout w h stored rnd Hrnd) as (g0 & E0 & HI0 & HL & HK).
  destruct (run_invariant
              (fun g => curves_are_numbers g = true
                        /\ (exists x, playerX g = Num x /\ -2 <= x /\ x <= 2)
                        /\ (exists v, speed g = Num v /\ -10000 < v /\ v <= 12000))
              (fun x => tick_ok (fst x) = true /\ is_num (steer (snd x)) = true))
    with (inputs := inputs) (g := g0) as (g & E & HI & Hk & Hx & Hv); auto.
  - tauto.
  - intros [dt cmd] g g' [Hdt Hs] Hg (Hk & (x & Ex & Hxr) & Hv) E.
    cbn [fst snd] in *.
    split; [eapply curves_road; eauto using update_road|].
    split; [|eapply update_speed_range; eauto].
    assert (Hn : is_num (playerX g') = true).
    { eapply update_player_ranges; eauto. rewrite Ex. reflexivity. }
    destruct (isGameOver g) eqn:Hover.
    { unfold update in E. rewrite Hover in E. injection E as <-. eauto. }
    destruct (update_playerX_NaN dt cmd g g' Hover E) as [[Hnan | Hr] _];
      [rewrite Hnan in Hn; discriminate | exact Hr].
  - split; [eapply Layout_curves; eauto|].
    rewrite HK. simpl. split; [exists 0 | exists 0]; split; try reflexivity; lra.
  - exists g0, g. split_and!; auto.
Qed.

(** ** The road pass: what is drawn lies in front of the camera *)

Lemma orZero_num (a : num) : exists q, orZero a = Num q.
Proof.
  destruct a as [q|]; simpl; [|eauto]. destruct (Qeq_bool q 0); eauto.
Qed.

Lemma window_index (a n N : nat) :
  N <> 0%nat ->
  Z.to_nat (default 0%Z (zrem (Some (Z.of_nat a + Z.of_nat n)%Z) N))
  = ((a + n) mod N)%nat.
Proof.
  intros HN. rewrite zrem_nonneg by lia. simpl.
  rewrite <- Nat2Z.inj_add, <- Nat2Z.inj_mod. apply Nat2Z.id.
Qed.

Lemma project_scale_front p cx cy cz d w h rw :
  (camera_z (camera (project p cx cy cz d w h rw)) <=? Num 0)%num = false ->
  screen_scale (screen (project p cx cy cz d w h rw))
  = (d / camera_z (camera (project p cx cy cz d w h rw)))%num.
Proof.
  rewrite project_camera_z. unfold project. cbn [camera_z].
  intros ->. reflexivity.
Qed.

Lemma render_iter_in_front g base playerY st n st' :
  (n < DRAW_DISTANCE)%nat ->
  rp_game st = set_segments (segments (rp_game st)) g ->
  Forall2 same_track (segments g) (segments (rp_game st)) ->
  is_num (position g) = true ->
  render_iter base playerY st n = Some st' ->
  Forall (drawn_in_front g base) (rp_drawn st) ->
  Forall (drawn_in_front g base) (rp_drawn st').
Proof.
  intros Hn Hg Hs Hp. unfold render_iter.
  destruct (at_index _ _) as [sgc|] eqn:Esg; cbn [mbind option_bind];
    [|discriminate].
  apply at_index_lookup in Esg.
  assert (HN : length (segments (rp_game st)) <> 0%nat).
  { apply lookup_lt_Some in Esg. lia. }
  rewrite window_index in Esg by exact HN.
  pose proof (Forall2_length _ _ _ Hs) as Hlen.
  destruct (Forall2_lookup_r _ _ _ _ _ Hs Esg) as (sg0 & Esg0 & Ht).
  destruct Ht as (Hi & Hw & _).
  match goal with
  | |- context [if ?c then _ else _] => destruct c eqn:Hc
  end; intros [= <-]; cbn [rp_drawn]; [auto|].
  intros Hd. apply Forall_app. split; [exact Hd|].
  constructor; [|constructor].
  apply orb_false_iff in Hc as [Hc _]. apply orb_false_iff in Hc as [Hc _].
  cbn [p1 camera] in Hc.
  assert (E : (orZero (world_z (world (p1 sgc)))
               - (position (rp_game st)
                  - (if (index sgc <? index base)%nat
                     then ofNat (length (segments (rp_game st))) * SEGMENT_LENGTH
                     else Num 0)))%num
              = near_depth g base sg0).
  { unfold near_depth. rewrite Hw, Hi, <- Hlen, Hg. reflexivity. }
  exists n, sg0. cbn [index p1].
  split; [exact Hn|]. split; [rewrite Hlen; exact Esg0|].
  split; [exact Hi|]. split; [rewrite project_world; exact Hw|].
  split; [rewrite project_camera_z; exact E|].
  split; [|apply project_scale_front, nle_weaken; exact Hc].
  rewrite project_camera_z, E in *. clear E.
  unfold near_depth in *. apply is_num_true in Hp as [p Ep]. rewrite Ep in *.
  destruct (orZero_num (world_z (world (p1 sg0)))) as [z Ez]. rewrite Ez in *.
  destruct (index sg0 <? index base)%nat;
    unfold ofNat, SEGMENT_LENGTH, CAMERA_DEPTH, nsub, nmul in *;
    qbool; unred; lra.
Qed.

Lemma findSegment_position_num (g : Game) (z : num) (sg : Segment) :
  findSegment g z = Some sg -> is_num z = true.
Proof. destruct z; [reflexivity | discriminate]. Qed.

Lemma render_in_front (g : Game) (rp : RoadPass) (base : Segment) :
  findSegment g (position g) = Some base -> render g = Some rp ->
  Forall (drawn_in_front g base) (rp_drawn rp).
Proof.
  intros Hb. pose proof (findSegment_position_num _ _ _ Hb) as Hp.
  unfold render. rewrite Hb. cbn [mbind option_bind].
  destruct (findSegment g (position g + CAMERA_DEPTH * SEGMENT_LENGTH)%num)
    as [ps|]; cbn [mbind option_bind]; [|discriminate].
  set (P := fun st : RoadPass =>
              rp_game st = set_segments (segments (rp_game st)) g
              /\ Forall2 same_track (segments g) (segments (rp_game st))
              /\ Forall (drawn_in_front g base) (rp_drawn st)).
  intros E. enough (H : P rp) by (destruct H as (_ & _ & H); exact H).
  revert E. apply (foldM_preserves _ P); unfold P.
  - intros st n st' Hn (Hg & Hs & Hd) Hstep.
    pose proof Hstep as Hstep'.
    apply render_iter_frame in Hstep' as [Hg' Hs'].
    split; [rewrite Hg', Hg; reflexivity|].
    split; [eapply same_track_trans; eauto|].
    eapply render_iter_in_front; eauto.
    apply elem_of_seq in Hn. lia.
  - cbn [rp_game rp_drawn].
    split; [apply set_segments_id|]. split; [apply same_track_refl | constructor].
Qed.
(** ** One step on a scene: every car, the score, the crash *)

Lemma nodupb_NoDup (l : list nat) : nodupb l = true -> NoDup l.
Proof.
  induction l as [|x l IH]; simpl; [constructor|].
  intros H. apply andb_true_iff in H as [Hx Hl].
  constructor; [|auto].
  intros Hin. apply negb_true_iff in Hx.
  assert (existsb (Nat.eqb x) l = true); [|congruence].
  apply existsb_exists. exists x. split; [|apply Nat.eqb_refl].
  now apply list_elem_of_In.
Qed.

Lemma scene_ok_parts (g : Game) :
  scene_ok g = true ->
  track_wf g = true /\ player_wf g = true /\ isGameOver g = false
  /\ NoDup (visits g).*2 /\ exists hs, highScore g = Num hs.
Proof.
  unfold scene_ok. intros H.
  apply andb_true_iff in H as [H _]. apply andb_true_iff in H as [H _].
  apply andb_true_iff in H as [H Hh].
  apply andb_true_iff in H as [H Hnd]. apply andb_true_iff in H as [H Ho].
  apply andb_true_iff in H as [Ht Hp].
  split; [exact Ht|]. split; [exact Hp|].
  split; [now apply negb_true_iff|].
  split; [now apply nodupb_NoDup | now apply is_num_true].
Qed.

(** The bonus test and the car a visit leaves read the game only for the
    player's lateral offset. *)
Lemma closeCall_fires_ext dt pz tl g g' c :
  playerX g' = playerX g ->
  closeCall_fires dt pz tl g' c = closeCall_fires dt pz tl g c.
Proof. intros H. unfold closeCall_fires. rewrite H. reflexivity. Qed.

Lemma car_after_ext dt pz tl g g' c :
  playerX g' = playerX g -> car_after dt pz tl g' c = car_after dt pz tl g c.
Proof.
  intros H. unfold car_after.
  rewrite (closeCall_fires_ext dt pz tl g g' c H). reflexivity.
Qed.

Lemma score_kept_start (s0 hs0 : Q) (g : Game) :
  score g = Num s0 -> isGameOver g = false -> score_kept s0 hs0 g g.
Proof.
  intros Hs Ho. exists s0. split; [exact Hs|]. split; [lra|]. left.
  split; [reflexivity|]. split; [reflexivity|]. congruence.
Qed.

(** The score goes up, the rest stays. *)
Lemma score_kept_more (s0 hs0 : Q) (g h h' : Game) :
  score_kept s0 hs0 g h ->
  (exists sc sc', score h = Num sc /\ score h' = Num sc' /\ sc <= sc') ->
  highScore h' = highScore h -> storedHighScore h' = storedHighScore h ->
  isGameOver h' = isGameOver h ->
  score_kept s0 hs0 g h'.
Proof.
  intros (sc0 & Hsc0 & Hle & Hcase) (sc & sc' & Hsc & Hsc' & Hup) Hh Hst Ho.
  rewrite Hsc in Hsc0. injection Hsc0 as <-.
  exists sc'. split; [exact Hsc'|]. split; [lra|].
  destruct Hcase as [(A & B & C) | (sk & A & B & C & D & E)].
  - left. rewrite Hh, Hst, Ho. auto.
  - right. exists sk. rewrite Hh, Hst. split_and!; auto; lra.
Qed.

Lemma score_kept_crash (s0 hs0 : Q) (g h : Game) :
  highScore g = Num hs0 ->
  score_kept s0 hs0 g h -> score_kept s0 hs0 g (crash h).
Proof.
  intros Hhs (sc & Hsc & Hle & Hcase).
  destruct (crash_fields h) as (_ & Ho & _ & _ & Hs & _).
  destruct (crash_highScore h) as (Hh & Hst).
  exists sc. split; [congruence|]. split; [exact Hle|].
  rewrite Hh, Hst, Hsc.
  destruct Hcase as [(A & B & C) | (sk & A & B & C & D & E)].
  - rewrite A, Hhs.
    destruct (Num sc >? Num hs0)%num eqn:Ecmp; qbool.
    + right. exists sc. simpl. split_and!; auto; lra.
    + left. split; [reflexivity|]. split; [exact B|]. intros _. lra.
  - rewrite D.
    destruct (Num sc >? _)%num eqn:Ecmp; qbool.
    + right. exists sc. simpl. split_and!; auto; lra.
    + right. exists sk. split_and!; auto. congruence.
Qed.

Lemma score_kept_game_after dt pz tl (s0 hs0 : Q) (g h : Game) (c : Car) :
  highScore g = Num hs0 ->
  score_kept s0 hs0 g h -> score_kept s0 hs0 g (game_after dt pz tl h c).
Proof.
  intros Hhs Hk. unfold game_after.
  assert (Hk1 : score_kept s0 hs0 g
                  (if closeCall_fires dt pz tl h c then triggerCloseCall h
                   else h)).
  { destruct (closeCall_fires dt pz tl h c); [|exact Hk].
    pose proof Hk as (sc & Hsc & _).
    apply (score_kept_more s0 hs0 g h); try reflexivity; [exact Hk|].
    exists sc, (Qred (sc + 500)). split; [exact Hsc|].
    split; [simpl; rewrite Hsc; reflexivity|]. unred. lra. }
  destruct (collides dt pz tl h c); [|exact Hk1].
  now apply score_kept_crash.
Qed.

(** The loop of [updateTraffic] over the visits [l], no car twice. *)
Lemma visits_effect dt pz tl (g : Game) (s0 hs0 : Q) (l : list (nat * ref)) :
  NoDup l.*2 ->
  (forall v, v ∈ l -> (v.2 < length (carObjs g))%nat) ->
  score g = Num s0 -> highScore g = Num hs0 -> isGameOver g = false ->
  exists h ms,
    foldM (visit_step dt pz tl) (g, []) l = Some (h, ms)
    /\ traffic_after dt pz tl g s0 hs0 l.*2 h.
Proof.
  intros Hnd Hvalid Hs Hhs Hover.
  destruct (foldM_invariant (visit_step dt pz tl)
              (fun done st => traffic_after dt pz tl g s0 hs0 done.*2 (fst st))
              l [] (g, [])) as ([h ms] & E & HP).
  - cbn. unfold traffic_after.
    split; [reflexivity|]. split; [reflexivity|]. split; [reflexivity|].
    split; [intros r c Hin; inversion Hin|]. split; [reflexivity|].
    split; [now apply score_kept_start|].
    split; [intros r c Hin; inversion Hin|]. split; [reflexivity|].
    split; [intros r c Hin; inversion Hin|]. split; [congruence | reflexivity].
  - intros done [i r] rest [hb msb] Hsplit HP. cbn [fst] in HP.
    simpl in Hsplit.
    destruct HP as (Hx & Hp & Hsg & Hdone & Hnot & Hk & Hfire & Hquiet & Hhit
                    & Hsp0 & Hsp).
    assert (Hr : r ∉ done.*2).
    { rewrite Hsplit, fmap_app in Hnd.
      apply NoDup_app in Hnd as (_ & Hdisj & _).
      intros Hin. apply (Hdisj r Hin). simpl. left. }
    assert (Hlt : (r < length (carObjs g))%nat).
    { apply (Hvalid (i, r)). rewrite Hsplit. apply elem_of_app. right. left. }
    destruct (lookup_lt_is_Some_2 _ _ Hlt) as [c Hc].
    assert (Hcb : carObjs hb !! r = Some c) by (rewrite (Hnot r Hr); exact Hc).
    rewrite (visit_step_eq _ _ _ _ _ _ _ _ Hcb).
    eexists. split; [reflexivity|]. cbn [fst].
    rewrite fmap_app. change ([(i, r)].*2) with [r].
    pose proof (car_after_ext dt pz tl g hb c Hx) as Eca.
    pose proof (closeCall_fires_ext dt pz tl g hb c Hx) as Ef.
    pose proof (collides_ext dt pz tl g hb c Hx) as Ecol.
    destruct (game_after_frame dt pz tl hb c) as (F & Fsegs & Fobjs).
    destruct F as (Fp & Fx & _ & _ & _ & Fcase).
    pose proof (score_kept_game_after dt pz tl s0 hs0 g hb c Hhs Hk) as Hk'.
    pose proof (game_after_score dt pz tl hb c) as Esc.
    assert (Hin_cases : forall r', r' ∈ done.*2 ++ [r] ->
                                   r' ∈ done.*2 \/ r' = r).
    { intros r' Hin. apply elem_of_app in Hin as [Hin|Hin]; [now left|].
      apply list_elem_of_singleton in Hin. now right. }
    unfold traffic_after.
    cbn [playerX position segments carObjs score isGameOver speed set_carObjs].
    split; [congruence|]. split; [congruence|]. split; [congruence|].
    split.
    { intros r' c' Hin Hc'.
      destruct (decide (r' = r)) as [->|Hne].
      - rewrite list_lookup_insert_eq by (eapply lookup_lt_Some; eauto).
        rewrite Eca. assert (Some c' = Some c) as [= ->]
          by exact (eq_trans (eq_sym Hc') Hc). reflexivity.
      - rewrite list_lookup_insert_ne by congruence.
        destruct (Hin_cases r' Hin) as [Hd | ->]; [auto | congruence]. }
    split.
    { intros r' Hout.
      apply not_elem_of_app in Hout as [Hout1 Hout2].
      rewrite list_lookup_insert_ne.
      - now apply Hnot.
      - intros ->. apply Hout2. left. }
    split; [exact Hk'|].
    destruct Hk as (scb & Hscb & Hleb & _).
    split.
    { intros r' c' Hin Hc' Hf. rewrite Esc, Hscb.
      destruct (Hin_cases r' Hin) as [Hd | ->].
      - destruct (Hfire r' c' Hd Hc' Hf) as (sc & Hsc & Hle).
        rewrite Hscb in Hsc. injection Hsc as <-.
        destruct (closeCall_fires dt pz tl hb c); [|eauto].
        eexists. split; [reflexivity|]. unred. lra.
      - assert (Some c' = Some c) as [= ->]
          by exact (eq_trans (eq_sym Hc') Hc). rewrite Ef, Hf.
        eexists. split; [reflexivity|]. unred. lra. }
    split.
    { intros Hq. rewrite Esc, Ef, (Hq r c); [|apply elem_of_app; right; left
                                             |exact Hc].
      apply Hquiet. intros r' c' Hin. apply Hq. apply elem_of_app. now left. }
    split.
    { intros r' c' Hin Hc' Hcol.
      destruct (Hin_cases r' Hin) as [Hd | ->].
      - pose proof (Hhit r' c' Hd Hc' Hcol) as Ho.
        destruct Fcase as [[_ Fo] | [_ Fo]]; congruence.
      - assert (Some c' = Some c) as [= ->]
          by exact (eq_trans (eq_sym Hc') Hc).
        apply game_after_hit. rewrite Ecol. exact Hcol. }
    split.
    { intros Ho. destruct Fcase as [[Fs Fo] | [Fs Fo]]; [|exact Fs].
      rewrite Fs. apply Hsp0. congruence. }
    intros Ho. destruct Fcase as [[Fs Fo] | [Fs Fo]]; [|congruence].
    rewrite Fs. apply Hsp. congruence.
  - exists h, ms. split; [exact E | exact HP].
Qed.

Lemma score_kept_base (s0 hs0 : Q) (g g1 h : Game) :
  highScore g1 = highScore g -> storedHighScore g1 = storedHighScore g ->
  score_kept s0 hs0 g1 h -> score_kept s0 hs0 g h.
Proof. unfold score_kept. intros -> ->. auto. Qed.

(** One step on a scene, as a whole: the player's move, the loop over the
    cars, the score of the distance, the trees. *)
Lemma update_effect dt cmd (g g' : Game) (s0 hs0 : Q) :
  scene_ok g = true -> tick_ok dt = true ->
  score g = Num s0 -> highScore g = Num hs0 ->
  update dt cmd g = Some g' ->
  exists g1 h,
    move_player dt cmd g = Some g1
    /\ traffic_after dt (position g1 + CAMERA_HEIGHT)%num (trackLength g1)
                     g1 s0 hs0 (visits g).*2 h
    /\ playerX g' = playerX g1 /\ position g' = position g1
    /\ trackLength g' = trackLength g1
    /\ carObjs g' = carObjs h /\ carObjs g1 = carObjs g
    /\ score_kept s0 hs0 g g'
    /\ (exists sc sc', score h = Num sc /\ score g' = Num sc'
                       /\ sc <= sc' /\ sc' <= sc + 120)
    /\ (isGameOver h = true -> isGameOver g' = true)
    /\ (isGameOver g' = true -> speed g' = Num 0).
Proof.
  intros Hscene Hdt Hs Hhs E.
  destruct (scene_ok_parts g Hscene) as (Ht & Hp & Hover & Hnd & _).
  pose proof (update_road dt cmd g g' E) as Hroad.
  apply Forall2_length in Hroad.
  pose proof (proj1 (track_wf_iff g) Ht) as (HN & Hrefs & _).
  destruct (move_player_total dt cmd g HN Hp Hdt)
    as (g1 & sg & _ & E1 & Hs1 & Ho1 & Hov1 & Hp1 & Hv1 & _).
  destruct (move_player_fields dt cmd g g1 E1)
    as (_ & _ & Hsc1 & _ & Hh1 & Hst1 & _).
  rewrite update_parts, Hover, E1 in E. cbn [mbind option_bind] in E.
  destruct (updateTraffic dt g1) as [g2|] eqn:E2; cbn [mbind option_bind] in E;
    [|discriminate].
  apply updateTraffic_phases in E2 as (h & ms & g3 & Efold & _ & Eg3 & Eg2).
  assert (Hvis : visits g1 = visits g) by (unfold visits; rewrite Hs1; reflexivity).
  destruct (visits_effect dt (position g1 + CAMERA_HEIGHT)%num (trackLength g1)
              g1 s0 hs0 (visits g1)) as (h' & ms' & Efold' & HT).
  { rewrite Hvis. exact Hnd. }
  { intros [i r] Hv. rewrite Hvis in Hv.
    apply visits_spec in Hv as (sg' & Hi & Hr). simpl. rewrite Ho1. eauto. }
  { congruence. }
  { congruence. }
  { congruence. }
  rewrite Efold in Efold'. injection Efold' as <- <-.
  rewrite Hvis in HT.
  exists g1, h. split; [exact E1|]. split; [exact HT|].
  destruct HT as (Hx & Hpos & _ & _ & _ & Hk & _ & _ & _ & Hsp0 & Hsp).
  (* the moves and the score of the distance *)
  assert (F3 : playerX g3 = playerX h /\ position g3 = position h
               /\ carObjs g3 = carObjs h /\ score g3 = score h
               /\ highScore g3 = highScore h
               /\ storedHighScore g3 = storedHighScore h
               /\ isGameOver g3 = isGameOver h /\ speed g3 = speed h).
  { rewrite Eg3. simpl. tauto. }
  destruct F3 as (A1 & A2 & A3 & A4 & A5 & A6 & A7 & A8).
  pose proof Hk as (sc & Hsc & _).
  assert (Hv3 : exists v, speed g3 = Num v /\ v <= 12000).
  { rewrite A8. destruct (isGameOver h) eqn:Hoh.
    - rewrite (Hsp0 eq_refl). exists 0. split; [reflexivity | lra].
    - rewrite (Hsp eq_refl), Hv1.
      apply (player_wf_iff g HN) in Hp as (p & v & _ & Ev & _ & _).
      apply tick_ok_iff in Hdt as (d & Ed & Hd0 & Hd1).
      destruct (speed_penalised_range dt cmd g sg v d Ev Ed Hd0 Hd1)
        as (v2 & E2 & _ & Hle & _).
      eauto. }
  assert (F2 : playerX g2 = playerX h /\ position g2 = position h
               /\ carObjs g2 = carObjs h
               /\ highScore g2 = highScore h
               /\ storedHighScore g2 = storedHighScore h
               /\ isGameOver g2 = isGameOver h /\ speed g2 = speed h
               /\ exists sc', score g2 = Num sc' /\ sc <= sc' /\ sc' <= sc + 120).
  { apply tick_ok_iff in Hdt as (d & Ed & Hd0 & Hd1).
    destruct Hv3 as (v & Ev & Hv).
    rewrite Eg2. destruct (speed g3 >? Num 0)%num eqn:Epos; simpl.
    - split_and!; try assumption.
      rewrite A4, Hsc, Ev, Ed. rewrite Ev in Epos. qbool.
      unfold ndiv. change (Qeq_bool 1000 0) with false. cbn iota.
      unfold nmul, nadd. eexists. split; [reflexivity|]. unred.
      unfold Qdiv. change (/ 1000) with (1 # 1000).
      assert (0 <= v * d) by nra. assert (v * d <= 12000) by nra.
      split; lra.
    - split_and!; try assumption. exists sc. split; [congruence|]. split; lra. }
  destruct F2 as (B1 & B2 & B3 & B5 & B6 & B7 & B8 & sc' & Hsc' & Hle1 & Hle2).
  assert (Hk2 : score_kept s0 hs0 g g2).
  { apply (score_kept_base s0 hs0 g g1); [exact Hh1 | exact Hst1 |].
    apply (score_kept_more s0 hs0 g1 h); auto.
    exists sc, sc'. auto. }
  destruct (crash_fields g2) as (C1 & C2 & C3 & C4 & C5 & _ & C7 & _).
  assert (Hlen : trackLength g' = trackLength g1).
  { unfold trackLength. rewrite <- Hroad, Hs1. reflexivity. }
  destruct (checkSpriteCollisions_cases g2 g' E) as [-> | ->].
  - split; [congruence|]. split; [congruence|]. split; [exact Hlen|].
    split; [exact B3|]. split; [exact Ho1|]. split; [exact Hk2|].
    split; [exists sc, sc'; auto|]. split; [congruence|].
    intros Ho. rewrite B8. apply Hsp0. congruence.
  - split; [congruence|]. split; [congruence|]. split; [exact Hlen|].
    split; [congruence|]. split; [exact Ho1|].
    split; [apply score_kept_crash; assumption|].
    split; [exists sc, sc'; split_and!; auto; congruence|].
    split; [intros _; exact C2 | intros _; exact C1].
Qed.

(** The depth and the separation of a car, read on the state the step
    returns, are those of the loop. *)
Lemma relative_depth_after dt (g1 g' : Game) (c : Car) :
  position g' = position g1 -> trackLength g' = trackLength g1 ->
  relative_depth g'
    (car_after dt (position g1 + CAMERA_HEIGHT)%num (trackLength g1) g1 c)
  = car_dist dt (position g1 + CAMERA_HEIGHT)%num (trackLength g1) c.
Proof.
  intros Hp Hl. unfold relative_depth, car_dist.
  destruct (car_after_fields dt (position g1 + CAMERA_HEIGHT)%num
              (trackLength g1) g1 c) as (-> & _ & _).
  rewrite Hp, Hl. reflexivity.
Qed.

Lemma lateral_separation_after dt pz tl (g1 g' : Game) (c : Car) :
  playerX g' = playerX g1 ->
  lateral_separation g' (car_after dt pz tl g1 c)
  = nabs (playerX g1 - car_offset c)%num.
Proof.
  intros Hx. unfold lateral_separation.
  destruct (car_after_fields dt pz tl g1 c) as (_ & _ & ->).
  rewrite Hx. reflexivity.
Qed.

(** The bonus test, from the depth and the separation. *)
Lemma closeCall_fires_inside dt pz tl g c :
  justPassed c = false ->
  (Num (-299.999) <=? car_dist dt pz tl c)%num = true ->
  (car_dist dt pz tl c <=? Num (-100.001))%num = true ->
  (Num 0.351 <=? nabs (playerX g - car_offset c))%num = true ->
  (nabs (playerX g - car_offset c) <=? Num 0.799)%num = true ->
  closeCall_fires dt pz tl g c = true.
Proof.
  intros Hj H1 H2 H3 H4. unfold closeCall_fires. rewrite Hj.
  destruct (car_dist dt pz tl c) as [d|]; [|discriminate].
  destruct (nabs (playerX g - car_offset c)%num) as [x|]; [|discriminate].
  qbool.
  assert (A : (Num d <? Num (-100))%num = true) by (apply nlt_Num; lra).
  assert (B : (Num d >? Num (-300))%num = true) by (apply ngt_Num; lra).
  assert (C : (Num x <? Num 0.8)%num = true) by (apply nlt_Num; lra).
  assert (D : (Num x >? Num 0.35)%num = true) by (apply ngt_Num; lra).
  rewrite A, B, C, D. reflexivity.
Qed.

Lemma closeCall_fires_outside dt pz tl g c :
  justPassed c = true
  \/ (Num (-99.999) <=? car_dist dt pz tl c)%num
     || (car_dist dt pz tl c <=? Num (-300.001))%num
     || (nabs (playerX g - car_offset c) <=? Num 0.349)%num
     || (Num 0.801 <=? nabs (playerX g - car_offset c))%num = true ->
  closeCall_fires dt pz tl g c = false.
Proof.
  unfold closeCall_fires. intros [-> | H].
  { rewrite andb_false_r. reflexivity. }
  destruct (car_dist dt pz tl c) as [d|]; [|reflexivity].
  destruct (nabs (playerX g - car_offset c)%num) as [x|];
    [|rewrite andb_false_r; reflexivity].
  apply orb_true_iff in H as [H | H]; [apply orb_true_iff in H as [H | H];
    [apply orb_true_iff in H as [H | H]|]|]; qbool.
  - assert (A : (Num d <? Num (-100))%num = false)
      by (apply nlt_Num_false; lra).
    rewrite A. reflexivity.
  - assert (A : (Num d >? Num (-300))%num = false)
      by (apply ngt_Num_false; lra).
    rewrite A, andb_false_r. reflexivity.
  - assert (A : (Num x >? Num 0.35)%num = false)
      by (apply ngt_Num_false; lra).
    rewrite A, !andb_false_r. reflexivity.
  - assert (A : (Num x <? Num 0.8)%num = false)
      by (apply nlt_Num_false; lra).
    rewrite A, !andb_false_r. reflexivity.
Qed.

Lemma far_iff (d : num) (q : Q) :
  (nabs d <=? Num q)%num = true -> q <= 1000 ->
  (nabs d >? Num 1000)%num = false.
Proof.
  destruct d as [d|]; [|discriminate]. unfold nabs.
  intros H Hq. destruct (Qle_bool 0 d) eqn:E; qbool; lra.
Qed.

Lemma far_from (d : num) (q : Q) :
  (Num q <=? nabs d)%num = true -> 1000 < q ->
  (nabs d >? Num 1000)%num = true.
Proof.
  destruct d as [d|]; [|discriminate]. unfold nabs.
  intros H Hq. destruct (Qle_bool 0 d) eqn:E; qbool; lra.
Qed.

Lemma inside_not_far (d : num) :
  (Num (-299.999) <=? d)%num = true -> (d <=? Num (-100.001))%num = true ->
  (nabs d >? Num 1000)%num = false.
Proof.
  destruct d as [d|]; [|discriminate]. unfold nabs. intros H1 H2.
  destruct (Qle_bool 0 d) eqn:E; qbool; lra.
Qed.

Lemma near_collides dt pz tl g c :
  same (car_offset c) (playerX g) = true ->
  (nabs (car_dist dt pz tl c) <=? Num 199.999)%num = true ->
  collides dt pz tl g c = true.
Proof.
  intros Hsame Hnear. unfold collides.
  rewrite (overlap_same_offset _ _ Hsame), andb_true_r.
  destruct (nabs (car_dist dt pz tl c)) as [a|]; [|discriminate].
  qbool. lra.
Qed.

(** ** The states of a game in play are scenes *)

Lemma NoDup_nodupb (l : list nat) : NoDup l -> nodupb l = true.
Proof.
  induction 1 as [|x l Hx _ IH]; simpl; [reflexivity|].
  rewrite IH, andb_true_r. apply negb_true_iff.
  destruct (existsb (Nat.eqb x) l) eqn:E; [|reflexivity].
  apply existsb_exists in E as (y & Hy & Exy).
  apply Nat.eqb_eq in Exy as <-. apply list_elem_of_In in Hy. contradiction.
Qed.

Lemma curve_of_bounded (i : nat) : (nabs (curve_of i) <=? Num 1000)%num = true.
Proof.
  unfold curve_of.
  repeat match goal with |- context [if ?b then _ else _] => destruct b end;
    reflexivity.
Qed.

Lemma crash_scores_num (g : Game) :
  is_num (score g) = true -> is_num (highScore g) = true ->
  is_num (score (crash g)) = true /\ is_num (highScore (crash g)) = true.
Proof.
  intros Hs Hh.
  destruct (crash_fields g) as (_ & _ & _ & _ & -> & _).
  destruct (crash_highScore g) as (-> & _).
  split; [exact Hs|].
  destruct (score g >? highScore g)%num; [|exact Hh].
  destruct (score g); [reflexivity | discriminate].
Qed.

(** The score and the high score stay numbers. *)
Lemma update_scores_num dt cmd (g g' : Game) :
  tick_ok dt = true -> update dt cmd g = Some g' ->
  is_num (score g) = true /\ is_num (highScore g) = true ->
  is_num (score g') = true /\ is_num (highScore g') = true.
Proof.
  intros Hdt E [Hs Hh]. rewrite update_parts in E.
  destruct (isGameOver g); [injection E as <-; auto|].
  destruct (move_player dt cmd g) as [g1|] eqn:E1; cbn [mbind option_bind] in E;
    [|discriminate].
  destruct (move_player_fields dt cmd g g1 E1)
    as (_ & _ & Hsc1 & _ & Hh1 & _).
  destruct (updateTraffic dt g1) as [g2|] eqn:E2; cbn [mbind option_bind] in E;
    [|discriminate].
  apply updateTraffic_phases in E2 as (h & ms & g3 & Efold & _ & Eg3 & Eg2).
  assert (H1 : is_num (score h) = true /\ is_num (highScore h) = true).
  { revert Efold.
    apply (visits_preserve _ _ _
             (fun h => is_num (score h) = true /\ is_num (highScore h) = true));
      [|simpl; rewrite Hsc1, Hh1; auto].
    intros h0 r c [A B] _.
    cbn [score highScore set_carObjs]. unfold game_after.
    assert (H : is_num (score (if closeCall_fires dt (position g1 + CAMERA_HEIGHT)%num
                                     (trackLength g1) h0 c
                               then triggerCloseCall h0 else h0)) = true
                /\ is_num (highScore (if closeCall_fires dt
                                           (position g1 + CAMERA_HEIGHT)%num
                                           (trackLength g1) h0 c
                                      then triggerCloseCall h0 else h0)) = true).
    { destruct (closeCall_fires _ _ _ h0 c); [|auto]. simpl.
      split; [|exact B]. destruct (score h0); [reflexivity | discriminate]. }
    destruct (collides _ _ _ h0 c); [|exact H].
    destruct H. now apply crash_scores_num. }
  assert (H2 : is_num (score g2) = true /\ is_num (highScore g2) = true).
  { destruct H1 as [A B].
    assert (score g3 = score h /\ highScore g3 = highScore h) as [A3 B3]
      by (rewrite Eg3; split; reflexivity).
    rewrite Eg2. destruct (speed g3 >? Num 0)%num eqn:Epos; simpl;
      rewrite ?A3, ?B3; [|auto].
    split; [|exact B].
    unfold ngt in Epos. apply nlt_true in Epos as (? & v & _ & -> & _).
    apply tick_ok_iff in Hdt as (d & -> & _).
    destruct (score h); [reflexivity | discriminate]. }
  destruct (checkSpriteCollisions_cases g2 g' E) as [-> | ->]; [exact H2|].
  destruct H2. now apply crash_scores_num.
Qed.

(** Every state a game reaches from its constructor is a scene until it is
    over. *)
Lemma reach_scene
    (w h stored : num) (rnd : nat -> Q) (inputs : list (num * Command))
    (g0 g : Game) :
  (forall j, 0 <= rnd j /\ rnd j < 1) ->
  Forall (fun x => tick_ok (fst x) = true) inputs ->
  newGame w h stored rnd = Some g0 -> run inputs g0 = Some g ->
  isGameOver g = false -> scene_ok g = true.
Proof.
  intros Hrnd Hin E0 Er Hover.
  destruct (newGame_Layout w h stored rnd Hrnd) as (g0' & E0' & HI0 & HL & HK).
  rewrite E0 in E0'. injection E0' as <-.
  destruct (run_world inputs g0 Hin HI0 (Layout_ranged g0 HL))
    as (g1 & Er1 & HI & Hroad & _ & Hranged).
  rewrite Er in Er1. injection Er1 as <-.
  destruct (run_invariant
              (fun g => is_num (score g) = true /\ is_num (highScore g) = true)
              (fun x => tick_ok (fst x) = true))
    with (inputs := inputs) (g := g0) as (g2 & Er2 & _ & _ & Hhs); auto.
  { intros [dt cmd] ga gb Hdt _ Hn Eu. cbn [fst snd] in *.
    eapply update_scores_num; eauto. }
  { rewrite HK. simpl. split; [reflexivity|].
    destruct (orZero_num stored) as [q ->]. reflexivity. }
  rewrite Er in Er2. injection Er2 as <-.
  pose proof HI as (Ht & Hp & loc & HLoc & _).
  destruct (Located_visits g loc HLoc) as [Hnd _].
  unfold scene_ok. rewrite Ht, Hp, Hover, (NoDup_nodupb _ Hnd), Hhs.
  cbn [negb andb].
  apply andb_true_iff. split.
  - apply forallb_forall. intros c Hc. apply list_elem_of_In in Hc.
    rewrite Forall_forall in Hranged.
    destruct (Hranged c Hc) as (z & v & Ez & Ev & _ & Hz & _ & Hv).
    unfold car_bounded. rewrite Ez, Ev.
    apply andb_true_iff. split; qbool; lra.
  - apply forallb_forall. intros sg Hsg.
    apply list_elem_of_In, list_elem_of_lookup in Hsg as [i Hi].
    destruct (Forall2_lookup_r _ _ _ _ _ Hroad Hi) as (sg0 & Hsg0 & Hr).
    apply same_road_fields in Hr as (_ & _ & _ & _ & Hcurve & _).
    destruct HL as (_ & Hsegs & _).
    destruct (laid_geometry g0 i sg0 (Hsegs i sg0 Hsg0)) as (_ & _ & _ & Hk & _).
    unfold curve_bounded. rewrite Hcurve, Hk. apply curve_of_bounded.
Qed.

(** * The claims *)

(** ** C10 *)



(** ** C9 *)

(** C9: when the camera-space depth of a point (world z minus camera z) is
    at most 0, [project] sets the screen scale to 0 and returns before the
    perspective divide, leaving the other screen fields as they were.  And
    the road pass of [render] draws no segment whose near edge is at or
    behind the camera plane: every segment it hands to [renderSegment] is
    made of a segment [sg0] of the window of 300 that starts at the
    player's position, and the camera-space depth of its near edge, which
    is the world depth of [sg0] less the player's position (one lap back
    for a segment the window reaches past the end of the track), is above
    [CAMERA_DEPTH], hence not at or below 0; its scale is the quotient
    [CAMERA_DEPTH / depth]. *)
Theorem behind_camera_not_rendered
    (p : Point) (cx cy cz d w h rw : num) (g : Game) (rp : RoadPass)
    (sg : Segment) :
  (orZero (world_z (world p)) - cz <=? Num 0)%num = true ->
  render g = Some rp -> sg ∈ rp_drawn rp ->
  screen_scale (screen (project p cx cy cz d w h rw)) = Num 0
  /\ screen_x (screen (project p cx cy cz d w h rw)) = screen_x (screen p)
  /\ screen_y (screen (project p cx cy cz d w h rw)) = screen_y (screen p)
  /\ screen_w (screen (project p cx cy cz d w h rw)) = screen_w (screen p)
  /\ exists base n sg0,
       findSegment g (position g) = Some base
       /\ (n < DRAW_DISTANCE)%nat
       /\ segments g !! ((index base + n) mod length (segments g))%nat
          = Some sg0
       /\ index sg = index sg0 /\ world (p1 sg) = world (p1 sg0)
       /\ camera_z (camera (p1 sg))
          = (orZero (world_z (world (p1 sg0)))
             - (position g
                - (if (index sg0 <? index base)%nat
                   then ofNat (length (segments g)) * SEGMENT_LENGTH
                   else Num 0)))%num
       /\ (CAMERA_DEPTH <? camera_z (camera (p1 sg)))%num = true
       /\ (camera_z (camera (p1 sg)) <=? Num 0)%num = false
       /\ screen_scale (screen (p1 sg))
          = (CAMERA_DEPTH / camera_z (camera (p1 sg)))%num.
Proof.
  intros Hz Hr Hsg. rewrite (project_behind _ _ _ _ _ _ _ _ Hz). simpl.
  split; [reflexivity|]. split; [reflexivity|]. split; [reflexivity|].
  split; [reflexivity|].
  destruct (findSegment g (position g)) as [base|] eqn:Hb.
  2:{ unfold render in Hr. rewrite Hb in Hr. discriminate. }
  pose proof (render_in_front g rp base Hb Hr) as Hd.
  rewrite Forall_forall in Hd.
  destruct (Hd sg Hsg) as (n & sg0 & Hn & Hsg0 & Hi & Hw & Hc & Hfront & Hs).
  exists base, n, sg0. split; [reflexivity|].
  split; [exact Hn|]. split; [exact Hsg0|]. split; [exact Hi|].
  split; [exact Hw|]. split; [exact Hc|]. split; [exact Hfront|].
  split; [|exact Hs].
  apply nlt_true in Hfront as (a & z & Ea & -> & Hlt).
  unfold CAMERA_DEPTH in Ea. injection Ea as <-. apply nle_Num_false. lra.
Qed.

Lemma behind_camera_not_rendered_witness :
  screen_scale
    (screen (project (p1 (new_segment 0)) (Num 0) (Num 1000) (Num 0)
                     CAMERA_DEPTH (Num 800) (Num 600) ROAD_WIDTH)) = Num 0
  /\ screen_x
       (screen (project (p1 (new_segment 0)) (Num 0) (Num 1000) (Num 0)
                        CAMERA_DEPTH (Num 800) (Num 600) ROAD_WIDTH))
     = screen_x (screen (p1 (new_segment 0)))
  /\ screen_y
       (screen (project (p1 (new_segment 0)) (Num 0) (Num 1000) (Num 0)
                        CAMERA_DEPTH (Num 800) (Num 600) ROAD_WIDTH))
     = screen_y (screen (p1 (new_segment 0)))
  /\ screen_w
       (screen (project (p1 (new_segment 0)) (Num 0) (Num 1000) (Num 0)
                        CAMERA_DEPTH (Num 800) (Num 600) ROAD_WIDTH))
     = screen_w (screen (p1 (new_segment 0)))
  /\ exists base n sg0,
       findSegment fresh (position fresh) = Some base
       /\ (n < DRAW_DISTANCE)%nat
       /\ segments fresh !! ((index base + n) mod length (segments fresh))%nat
          = Some sg0
       /\ index first_drawn = index sg0
       /\ world (p1 first_drawn) = world (p1 sg0)
       /\ camera_z (camera (p1 first_drawn))
          = (orZero (world_z (world (p1 sg0)))
             - (position fresh
                - (if (index sg0 <? index base)%nat
                   then ofNat (length (segments fresh)) * SEGMENT_LENGTH
                   else Num 0)))%num
       /\ (CAMERA_DEPTH <? camera_z (camera (p1 first_drawn)))%num = true
       /\ (camera_z (camera (p1 first_drawn)) <=? Num 0)%num = false
       /\ screen_scale (screen (p1 first_drawn))
          = (CAMERA_DEPTH / camera_z (camera (p1 first_drawn)))%num.
Proof.
  apply (behind_camera_not_rendered (p1 (new_segment 0)) (Num 0) (Num 1000)
           (Num 0) CAMERA_DEPTH (Num 800) (Num 600) ROAD_WIDTH fresh
           fresh_pass first_drawn).
  - vm_compute. reflexivity.
  - apply returns_default. vm_compute. reflexivity.
  - vm_compute. left.
Defined.

(** ** C7 *)



(** That step, evaluated: the first car of the right lane, 1000 ahead of
    the player on the centre line, ends 200 behind at a lateral separation
    of 0.65; the flag is set and the score goes from 300 to 836 (the bonus
    and 36 for the distance); the next step, the car still in the window
    and the flag set, adds the distance only. *)
Example close_call_in_play :
  scene_ok on_curve = true
  /\ score on_curve = Num 300
  /\ justPassed <$> carObjs on_curve !! 0%nat = Some false
  /\ (fun g' => (fun c' => (Num (-201) <? relative_depth g' c')%num
                           && (relative_depth g' c' <? Num (-199))%num
                           && (Num 0.64 <? lateral_separation g' c')%num
                           && (lateral_separation g' c' <? Num 0.66)%num)
                  <$> carObjs g' !! 0%nat)
       <$> update (Num (3 # 10)) full_throttle on_curve
     = Some (Some true)
  /\ (fun g' => justPassed <$> carObjs g' !! 0%nat)
       <$> update (Num (3 # 10)) full_throttle on_curve
     = Some (Some true)
  /\ (fun g' => (Num 835 <? score g')%num && (score g' <? Num 837)%num)
       <$> update (Num (3 # 10)) full_throttle on_curve
     = Some true
  /\ (fun g' => (fun c' => (Num (-300) <? relative_depth g' c')%num
                           && (relative_depth g' c' <? Num (-100))%num
                           && justPassed c')
                  <$> carObjs g' !! 0%nat)
       <$> run [(Num (3 # 10), full_throttle); (Num (1 # 100), full_throttle)]
               on_curve
     = Some (Some true)
  /\ (fun g' => (Num 837 <? score g')%num && (score g' <? Num 838)%num)
       <$> run [(Num (3 # 10), full_throttle); (Num (1 # 100), full_throttle)]
               on_curve
     = Some true.
Proof. evaluate. Qed.

(** The scenario of the specification, as one step: the car ends about 250
    behind the player at a lateral separation of 0.5 with its flag clear;
    the step awards the bonus and sets the flag, and a second step, the car
    still in the window, awards nothing more. *)
Example overtaking_bonus_once :
  (fun c => justPassed c) <$> carObjs overtaken !! 0%nat = Some false
  /\ score overtaken = Num 1234.5
  /\ (fun g' => (fun c' => (Num (-250) <? relative_depth g' c')%num
                           && (relative_depth g' c' <? Num (-249))%num)
                  <$> carObjs g' !! 0%nat)
       <$> update (Num (1 # 60)) neutral overtaken
     = Some (Some true)
  /\ (fun g' => (fun c' => (Num 0.49 <? lateral_separation g' c')%num
                           && (lateral_separation g' c' <? Num 0.51)%num)
                  <$> carObjs g' !! 0%nat)
       <$> update (Num (1 # 60)) neutral overtaken
     = Some (Some true)
  /\ (fun g' => justPassed <$> carObjs g' !! 0%nat)
       <$> update (Num (1 # 60)) neutral overtaken
     = Some (Some true)
  /\ (fun g' => (Num 1734.5 <=? score g')%num && (score g' <=? Num 1855)%num)
       <$> update (Num (1 # 60)) neutral overtaken
     = Some true
  /\ (fun g' => (score g' <=? Num 1975)%num)
       <$> run [(Num (1 # 60), neutral); (Num (1 # 60), neutral)] overtaken
     = Some true.
Proof. evaluate. Qed.

(** ** C6 *)



(** That step, evaluated: the player, in the lane of the car and 1000
    behind it, ends level with it; the game is over, the speed 0, and the
    high score 0 becomes 300, the score. *)
Example crash_in_play :
  scene_ok closing_in = true
  /\ score closing_in = Num 300 /\ highScore closing_in = Num 0
  /\ (fun g' => (fun c' => same (car_offset c') (playerX g'))
                  <$> carObjs g' !! 0%nat)
       <$> update (Num (1 # 4)) full_throttle closing_in
     = Some (Some true)
  /\ (fun g' => relative_depth g' <$> carObjs g' !! 0%nat)
       <$> update (Num (1 # 4)) full_throttle closing_in
     = Some (Some (Num 0))
  /\ isGameOver <$> update (Num (1 # 4)) full_throttle closing_in = Some true
  /\ speed <$> update (Num (1 # 4)) full_throttle closing_in = Some (Num 0)
  /\ highScore <$> update (Num (1 # 4)) full_throttle closing_in
     = Some (Num 300)
  /\ storedHighScore <$> update (Num (1 # 4)) full_throttle closing_in
     = Some (Num 300).
Proof. evaluate. Qed.

(** The tailgating scenario, evaluated: the step ends the game, and the
    high score 1000 becomes 1234, the floor of the score 1234.5. *)
Example tailgate_crashes :
  isGameOver <$> update (Num (1 # 60)) neutral tailgate = Some true
  /\ speed <$> update (Num (1 # 60)) neutral tailgate = Some (Num 0)
  /\ highScore <$> update (Num (1 # 60)) neutral tailgate = Some (Num 1234)
  /\ storedHighScore <$> update (Num (1 # 60)) neutral tailgate
     = Some (Num 1234).
Proof. evaluate. Qed.


(** ** C5 *)

(** C5, as amended: with the player's lateral offset 0 and every car at
    offset -0.65 or 0.65, whatever their depth (so also within 200 of the
    player), no iteration of the traffic loop detects a collision and
    [updateTraffic] triggers no crash: the game stays not over and the speed
    is kept.  At these offsets two hitboxes of one common width overlap
    exactly when that width is at least 0.65; with the car's width 0.45 on
    both sides they do not. *)
Theorem lane_splitting (dt : num) (g g' : Game) (w : Q) :
  isGameOver g = false ->
  same (playerX g) (Num 0) = true ->
  Forall (fun c => same (car_offset c) (Num (-0.65)) = true
                   \/ same (car_offset c) (Num 0.65) = true) (carObjs g) ->
  updateTraffic dt g = Some g' ->
  isGameOver g' = false /\ speed g' = speed g
  /\ Forall (fun c => collides dt (position g + CAMERA_HEIGHT)%num
                               (trackLength g) g c = false) (carObjs g)
  /\ (overlap (Num 0) (Num w) (Num 0.65) (Num w) = true <-> 0.65 <= w)
  /\ (overlap (Num 0) (Num w) (Num (-0.65)) (Num w) = true <-> 0.65 <= w).
Proof.
  intros Hover Hx Hcars E.
  assert (Hno : Forall (fun c => overlap (playerX g) (Num 0.15) (car_offset c)
                                         (Num 0.45) = false) (carObjs g)).
  { eapply Forall_impl; [exact Hcars|]. intros c Hc.
    now apply overlap_outer_lane. }
  destruct (updateTraffic_no_crash dt g g' Hno E) as [Ho Hs].
  split; [congruence|]. split; [exact Hs|]. split.
  { eapply Forall_impl; [exact Hno|]. intros c Hc. unfold collides.
    simpl in Hc. rewrite Hc. apply andb_false_r. }
  split; rewrite overlap_true_iff; split; intros H; try split; lra.
Qed.

Lemma lane_splitting_witness :
  isGameOver (default blank (updateTraffic (Num (1 # 60)) lane_split)) = false
  /\ speed (default blank (updateTraffic (Num (1 # 60)) lane_split))
     = speed lane_split
  /\ Forall (fun c => collides (Num (1 # 60))
                               (position lane_split + CAMERA_HEIGHT)%num
                               (trackLength lane_split) lane_split c = false)
            (carObjs lane_split)
  /\ (overlap (Num 0) (Num 0.45) (Num 0.65) (Num 0.45) = true <-> 0.65 <= 0.45)
  /\ (overlap (Num 0) (Num 0.45) (Num (-0.65)) (Num 0.45) = true
      <-> 0.65 <= 0.45).
Proof.
  apply (lane_splitting (Num (1 # 60)) lane_split
           (default blank (updateTraffic (Num (1 # 60)) lane_split)) 0.45).
  - reflexivity.
  - reflexivity.
  - constructor; [left; reflexivity|].
    constructor; [right; reflexivity | constructor].
  - apply returns_default. vm_compute. reflexivity.
Defined.

(** Against C5 as stated: at the offsets of the scenario, hitboxes of equal
    width (the car's 0.45 on both sides) do not overlap. *)
Lemma equal_width_hitboxes_do_not_overlap :
  overlap (Num 0) (Num 0.45) (Num 0.65) (Num 0.45) = false
  /\ overlap (Num 0) (Num 0.45) (Num (-0.65)) (Num 0.45) = false.
Proof. split; reflexivity. Qed.

(** The two cars of the scenario are within 200 of the player when the
    loop compares them. *)
Example lane_split_in_window :
  Forall (fun c => (nabs (car_dist (Num (1 # 60))
                                   (position lane_split + CAMERA_HEIGHT)%num
                                   (trackLength lane_split) c) <? Num 200)%num
                   = true) (carObjs lane_split).
Proof. repeat constructor. Qed.

(** ** C4 *)

(** C4 fails on the code: the curve term of [update] is
    [dx * curve * ratio * 0.1], a multiple of the steering displacement
    [dx], so without steering there is no drift.  In the state three
    seconds of full throttle reach from a fresh game the player is on a
    segment of curve 2, at top speed, on the centre line; a step with zero
    steering leaves the lateral offset at 0, and so does every further
    one. *)
Theorem no_drift_without_steering :
  returns (newGame (Num 800) (Num 600) NaN always_high) = true
  /\ returns (run [(Num 1, full_throttle); (Num 1, full_throttle);
                   (Num 1, full_throttle)] fresh) = true
  /\ curve <$> findSegment on_curve
                 (position on_curve + CAMERA_DEPTH * SEGMENT_LENGTH)%num
     = Some (Num 2)
  /\ speed on_curve = Num 12000 /\ playerX on_curve = Num 0
  /\ steer full_throttle = Num 0
  /\ playerX <$> update (Num (1 # 60)) full_throttle on_curve = Some (Num 0)
  /\ playerX <$> run [(Num (1 # 60), full_throttle);
                      (Num (1 # 60), full_throttle);
                      (Num (1 # 60), full_throttle)] on_curve
     = Some (Num 0).
Proof. evaluate. Qed.

(** ** C3 *)

(** C3, as amended: [update] does not clamp the fields of the command where
    they enter; it clamps the state they act on.  In every state a game
    reaches from its constructor (draws in [0, 1)) by ticks in (0, 1] with
    commands whose [steer] is a number of absolute value at most a million
    and whose [accel] and [brake] are numbers of any size or [NaN], a
    further such step returns, and afterwards the position is a number in
    [0, trackLength], the speed a number in [-10000, MAX_SPEED] and the
    lateral offset a number in [-2, 2].  An [accel] or a [brake] that is
    [NaN] or not positive acts as 0. *)
Theorem malformed_command_state_clamped
    (w h stored : num) (rnd : nat -> Q) (inputs : list (num * Command))
    (g0 g : Game) (dt : num) (cmd : Command) :
  (forall j, 0 <= rnd j /\ rnd j < 1) ->
  Forall (fun x => tick_ok (fst x) = true /\ steer_bounded (snd x) = true)
         inputs ->
  newGame w h stored rnd = Some g0 -> run inputs g0 = Some g ->
  tick_ok dt = true -> steer_bounded cmd = true ->
  exists g' p v x,
    update dt cmd g = Some g'
    /\ position g' = Num p /\ 0 <= p /\ p <= 400000
    /\ speed g' = Num v /\ -10000 <= v /\ v <= 12000
    /\ playerX g' = Num x /\ -2 <= x /\ x <= 2
    /\ ((accel cmd >? Num 0)%num = false ->
        update dt cmd g = update dt (mkCommand (steer cmd) (Num 0) (brake cmd)) g)
    /\ ((brake cmd >? Num 0)%num = false ->
        update dt cmd g = update dt (mkCommand (steer cmd) (accel cmd) (Num 0)) g).
Proof.
  intros Hrnd Hin E0 Er Hdt Hs.
  assert (Hin' : Forall (fun x => tick_ok (fst x) = true
                                  /\ is_num (steer (snd x)) = true) inputs).
  { eapply Forall_impl; [exact Hin|]. intros y [? ?].
    split; [assumption | now apply steer_bounded_num]. }
  destruct (reach_player_ranges w h stored rnd inputs Hrnd Hin')
    as (g0' & g1 & E0' & Er' & HI & Hk & Hx & Hv).
  rewrite E0 in E0'. injection E0' as <-.
  rewrite Er in Er'. injection Er' as <-.
  destruct (update_Inv dt cmd g HI Hdt) as (g' & E & HI').
  pose proof (Inv_length g' HI') as HN'.
  destruct HI' as (_ & Hp' & _).
  apply (player_wf_iff g' HN') in Hp' as (p & v0 & Ep & _ & Hp0 & Hp1).
  destruct (update_speed_range dt cmd g g' HI Hdt E Hv) as (v & Ev & Hv0 & Hv1).
  assert (Hx' : exists x, playerX g' = Num x /\ -2 <= x /\ x <= 2).
  { assert (Hn : is_num (playerX g') = true).
    { destruct Hx as (x & Ex & _).
      eapply update_player_ranges; eauto using steer_bounded_num.
      rewrite Ex. reflexivity. }
    destruct (isGameOver g) eqn:Hover.
    { unfold update in E. rewrite Hover in E. injection E as <-. exact Hx. }
    destruct (update_playerX_NaN dt cmd g g' Hover E) as [[Hnan | Hr] _];
      [rewrite Hnan in Hn; discriminate | exact Hr]. }
  destruct Hx' as (x & Ex & Hx0 & Hx1).
  exists g', p, v, x. split; [exact E|].
  split; [exact Ep|]. split; [exact Hp0|]. split; [lra|].
  split; [exact Ev|]. split; [lra|]. split; [exact Hv1|].
  split; [exact Ex|]. split; [exact Hx0|]. split; [exact Hx1|].
  split; intros Hz; unfold update; simpl; rewrite Hz; simpl.
  - replace (Num 0 >? Num 0)%num with false by reflexivity. reflexivity.
  - replace (Num 0 >? Num 0)%num with false by reflexivity. reflexivity.
Qed.

Lemma malformed_command_state_clamped_witness :
  exists g' p v x,
    update (Num (1 # 60)) (mkCommand (Num 7) NaN (Num (-3)))
           (default blank (run off_road_run fresh)) = Some g'
    /\ position g' = Num p /\ 0 <= p /\ p <= 400000
    /\ speed g' = Num v /\ -10000 <= v /\ v <= 12000
    /\ playerX g' = Num x /\ -2 <= x /\ x <= 2
    /\ ((NaN >? Num 0)%num = false ->
        update (Num (1 # 60)) (mkCommand (Num 7) NaN (Num (-3)))
               (default blank (run off_road_run fresh))
        = update (Num (1 # 60)) (mkCommand (Num 7) (Num 0) (Num (-3)))
                 (default blank (run off_road_run fresh)))
    /\ ((Num (-3) >? Num 0)%num = false ->
        update (Num (1 # 60)) (mkCommand (Num 7) NaN (Num (-3)))
               (default blank (run off_road_run fresh))
        = update (Num (1 # 60)) (mkCommand (Num 7) NaN (Num 0))
                 (default blank (run off_road_run fresh))).
Proof.
  apply (malformed_command_state_clamped (Num 800) (Num 600) NaN always_high
           off_road_run fresh (default blank (run off_road_run fresh))
           (Num (1 # 60)) (mkCommand (Num 7) NaN (Num (-3)))).
  - intros j. unfold always_high. split; lra.
  - repeat constructor.
  - apply returns_default. vm_compute. reflexivity.
  - apply returns_default. vm_compute. reflexivity.
  - reflexivity.
  - reflexivity.
Defined.

(** Against C3 as stated: a [NaN] steer is not clamped, it makes the lateral
    offset [NaN], and later well-formed commands do not bring it back; a steer
    of 5 is not clamped to 1 either, it moves the player five times as far
    (about 0.2 to the left in a sixtieth of a second, where a steer of 1
    moves about 0.04). *)
Lemma nan_steer_is_not_clamped :
  playerX <$> update (Num (1 # 60)) (mkCommand NaN (Num 1) (Num 0)) fresh
  = Some NaN
  /\ playerX <$> run [(Num (1 # 60), mkCommand NaN (Num 1) (Num 0));
                      (Num (1 # 60), neutral);
                      (Num (1 # 60), full_throttle)] fresh
     = Some NaN
  /\ (fun x => (Num (-0.041) <? x)%num && (x <? Num (-0.039))%num)
       <$> (playerX
              <$> update (Num (1 # 60)) (mkCommand (Num 1) (Num 1) (Num 0))
                         on_curve)
     = Some true
  /\ (fun x => (Num (-0.201) <? x)%num && (x <? Num (-0.199))%num)
       <$> (playerX
              <$> update (Num (1 # 60)) (mkCommand (Num 5) (Num 1) (Num 0))
                         on_curve)
     = Some true.
Proof. evaluate. Qed.

(** ** C1 *)

(** C1 fails on the code: from a fresh game, one second of full throttle with
    full steering and then one second of coasting with the same steering (each
    tick within (0, 1]) leave the player off the road with a speed of
    -9000: the off-road penalty is applied after the clamp to
    [0, MAX_SPEED]. *)
Theorem off_road_penalty_after_clamp :
  returns (newGame (Num 800) (Num 600) NaN always_high) = true
  /\ forallb (fun x => tick_ok (fst x)) off_road_run = true
  /\ speed <$> run off_road_run fresh = Some (Num (-9000))
  /\ position <$> run off_road_run fresh = Some (Num 397000)
  /\ playerX <$> run off_road_run fresh = Some (Num (-3 # 2)).
Proof. evaluate. Qed.

(** ** C8 *)

(** C8 fails on the code: after one step of one second on a fresh game, the
    car that was spawned in segment 1960 at speed 8000 has a depth equal to
    the track length, which is outside [0, trackLength): the wrap of a car
    tests [z > trackLen] where the wrap of the player tests
    [position >= trackLength]. *)
Theorem car_depth_can_equal_track_length :
  returns (newGame (Num 800) (Num 600) NaN always_high) = true
  /\ tick_ok (Num 1) = true
  /\ (fun g => (car_z <$> carObjs g !! 48%nat, trackLength g))
       <$> update (Num 1) neutral fresh
     = Some (Some (Num 400000), Num 400000)
  /\ (fun c => (car_z c, car_speed c)) <$> carObjs fresh !! 48%nat
     = Some (Num 392000, Num 8000).
Proof. evaluate. Qed.

(** ** C2 *)

(** C2: from the track a fresh game builds, whatever [Math.random] returned
    (numbers that are not negative), and after any number of [update] calls
    with ticks in (0, 1] and any commands, every call returned and every car
    object is held by exactly one segment, once, and the index of that
    segment is floor(car.z / SEGMENT_LENGTH) mod the number of segments. *)
Theorem ownership_invariant
    (w h stored : num) (rnd : nat -> Q) (inputs : list (num * Command)) :
  (forall j, 0 <= rnd j) ->
  Forall (fun x => tick_ok (fst x) = true) inputs ->
  exists g0 g,
    newGame w h stored rnd = Some g0 /\ run inputs g0 = Some g
    /\ single_owner g.
Proof.
  intros Hrnd Hticks.
  destruct (newGame_Inv w h stored rnd Hrnd) as (g0 & E0 & H0).
  destruct (run_Inv inputs Hticks g0 H0) as (g & E & Hg).
  exists g0, g. split; [exact E0|]. split; [exact E|].
  now apply Inv_single_owner.
Qed.

Lemma ownership_invariant_witness :
  exists g0 g,
    newGame (Num 800) (Num 600) NaN always_high = Some g0
    /\ run off_road_run g0 = Some g
    /\ single_owner g.
Proof.
  apply (ownership_invariant (Num 800) (Num 600) NaN always_high off_road_run).
  - intros j. unfold always_high. lra.
  - repeat constructor.
Defined.

(** * Further properties, stated *)

(** X1: [findSegment] is invariant under whole laps: for a depth that is
    a whole number and not negative, adding any number of track lengths (the
    sum at most 10^15, so that it is a whole number of the source too) gives
    the same segment, the one at index floor(depth / 200) mod the number of
    segments. *)
Theorem findSegment_wraps (g : Game) (k : Z) (laps : nat) :
  (0 <= k)%Z -> (0 < length (segments g))%nat ->
  (k + Z.of_nat laps * (Z.of_nat (length (segments g)) * 200)
   <= 1000000000000000)%Z ->
  findSegment g
    (ofZ (k + Z.of_nat laps * (Z.of_nat (length (segments g)) * 200)))
  = findSegment g (ofZ k)
  /\ findSegment g (ofZ k)
     = segments g !! Z.to_nat ((k / 200) mod Z.of_nat (length (segments g))).
Proof.
  intros Hk HN _. unfold ofZ.
  set (N := Z.of_nat (length (segments g))).
  assert (HL : (0 <= Z.of_nat laps * (N * 200))%Z) by lia.
  assert (Hq : forall m, (0 <= m)%Z -> 0 <= inject_Z m).
  { intros m Hm. change 0 with (inject_Z 0). rewrite <- Zle_Qle. exact Hm. }
  rewrite !findSegment_Num by (lia || (apply Hq; lia)).
  rewrite !Qfloor_div_200. fold N. split; [|reflexivity].
  f_equal. f_equal.
  replace (k + Z.of_nat laps * (N * 200))%Z
    with (k + (Z.of_nat laps * N) * 200)%Z by lia.
  rewrite Z.div_add by lia. rewrite Z.mod_add by lia. reflexivity.
Qed.

Lemma findSegment_wraps_witness :
  findSegment lane_split
    (ofZ (1050 + Z.of_nat 3 * (Z.of_nat (length (segments lane_split)) * 200)))
  = findSegment lane_split (ofZ 1050)
  /\ findSegment lane_split (ofZ 1050)
     = segments lane_split
         !! Z.to_nat ((1050 / 200) mod Z.of_nat (length (segments lane_split))).
Proof.
  apply (findSegment_wraps lane_split 1050 3).
  - lia.
  - apply Nat.ltb_lt. vm_compute. reflexivity.
  - apply Z.leb_le. vm_compute. reflexivity.
Defined.

(** X2: the relative depth of an obstacle, taken the short way round the
    track: for a raw difference within one and a half track lengths the
    two corrections give a value within half a track length of the player,
    equal to the raw difference up to one track length. *)
Theorem shortest_within_half_track (d L : Q) :
  0 <= L -> - ((3 # 2) * L) <= d -> d <= (3 # 2) * L ->
  exists r, shortest (Num d) (Num L) = Num r
            /\ - (L * (1 # 2)) <= r /\ r <= L * (1 # 2)
            /\ (r == d \/ r == d + L \/ r == d - L).
Proof.
  intros HL Hlo Hhi. unfold shortest, nneg. rewrite !ndiv_2.
  destruct (Num d <? _)%num eqn:E1; [unfold nadd|];
    match goal with
    | |- context [(?a >? ?b)%num] => destruct (a >? b)%num eqn:E2
    end;
    unfold nsub; eexists; (split; [reflexivity|]);
    qbool; unred; unfold Qdiv in *; change (/ 2) with (1 # 2) in *;
    (split; [lra|]); (split; [lra|]).
  - right. right. lra.
  - right. left. lra.
  - right. right. lra.
  - left. reflexivity.
Qed.

Lemma shortest_within_half_track_witness :
  exists r, shortest (Num (-399500)) (Num 400000) = Num r
            /\ - (400000 * (1 # 2)) <= r /\ r <= 400000 * (1 # 2)
            /\ (r == -399500 \/ r == -399500 + 400000
                \/ r == -399500 - 400000).
Proof.
  apply (shortest_within_half_track (-399500) 400000); lra.
Defined.

(** X3: [overlap] by the distance of the centres, for centres and widths
    of size at most 1000: the intervals overlap when the centres are closer
    than half the sum of the widths by a millionth or more, and do not when
    they are farther by a millionth or more; and [overlap] is symmetric in
    the two intervals. *)
Theorem overlap_by_centre_distance (x1 w1 x2 w2 : Q) :
  -1000 <= x1 -> x1 <= 1000 -> -1000 <= x2 -> x2 <= 1000 ->
  0 <= w1 -> w1 <= 1000 -> 0 <= w2 -> w2 <= 1000 ->
  (Qabs (x1 - x2) <= (w1 + w2) * (1 # 2) - 0.000001 ->
   overlap (Num x1) (Num w1) (Num x2) (Num w2) = true)
  /\ ((w1 + w2) * (1 # 2) + 0.000001 <= Qabs (x1 - x2) ->
      overlap (Num x1) (Num w1) (Num x2) (Num w2) = false)
  /\ overlap (Num x1) (Num w1) (Num x2) (Num w2)
     = overlap (Num x2) (Num w2) (Num x1) (Num w1).
Proof.
  intros _ _ _ _ _ _ _ _. split; [|split].
  - intros H. apply Qabs_Qle_condition in H. apply overlap_true_iff. lra.
  - intros H. apply overlap_false_iff.
    destruct (Qlt_le_dec (x1 - x2) 0) as [Hn | Hp].
    + rewrite Qabs_neg in H by lra. left. lra.
    + rewrite Qabs_pos in H by lra. right. lra.
  - destruct (overlap (Num x2) (Num w2) (Num x1) (Num w1)) eqn:E.
    + apply overlap_true_iff in E. apply overlap_true_iff. lra.
    + apply overlap_false_iff in E. apply overlap_false_iff. lra.
Qed.

Lemma overlap_by_centre_distance_witness :
  (Qabs (0 - 0.65) <= (0.15 + 0.45) * (1 # 2) - 0.000001 ->
   overlap (Num 0) (Num 0.15) (Num 0.65) (Num 0.45) = true)
  /\ ((0.15 + 0.45) * (1 # 2) + 0.000001 <= Qabs (0 - 0.65) ->
      overlap (Num 0) (Num 0.15) (Num 0.65) (Num 0.45) = false)
  /\ overlap (Num 0) (Num 0.15) (Num 0.65) (Num 0.45)
     = overlap (Num 0.65) (Num 0.45) (Num 0) (Num 0.15).
Proof.
  apply (overlap_by_centre_distance 0 0.15 0.65 0.45); lra.
Defined.

(** X4: [overlap] answers true as soon as one of its four arguments is
    [NaN]: every comparison with [NaN] is false, so neither interval is
    found to lie beside the other. *)
Theorem overlap_true_on_NaN (x1 w1 x2 w2 : num) :
  x1 = NaN \/ w1 = NaN \/ x2 = NaN \/ w2 = NaN -> overlap x1 w1 x2 w2 = true.
Proof.
  intros H. unfold overlap.
  destruct x1, w1, x2, w2; try reflexivity;
    destruct H as [H|[H|[H|H]]]; discriminate.
Qed.

Lemma overlap_true_on_NaN_witness :
  overlap NaN (Num 0.15) (Num 0.65) (Num 0.45) = true.
Proof. apply overlap_true_on_NaN. left. reflexivity. Defined.

(** X5: [crash] is idempotent: crashing a game that has just crashed
    changes nothing, neither the high score nor what is stored. *)
Theorem crash_idempotent (g : Game) : crash (crash g) = crash g.
Proof.
  unfold crash. destruct g as [w h p x v sc dr sgs objs pl ov hs st]. simpl.
  destruct (sc >? hs)%num eqn:E; simpl.
  - destruct (sc >? nfloor sc)%num; reflexivity.
  - rewrite E. reflexivity.
Qed.

(** X6: [crash] never lowers a whole-number high score: the new high score
    is a whole number again, at least the old one and at least the floor of
    the score; and when the stored value agreed with the high score before,
    it does after. *)
Theorem crash_high_score_monotone (g : Game) (s : Q) (k : Z) :
  score g = Num s -> highScore g = Num (inject_Z k) ->
  exists k', highScore (crash g) = Num (inject_Z k')
             /\ (k <= k')%Z /\ (Qfloor s <= k')%Z
             /\ (storedHighScore g = highScore g ->
                 storedHighScore (crash g) = highScore (crash g)).
Proof.
  intros Hs Hk. destruct (crash_highScore g) as [-> ->]. rewrite Hs, Hk.
  destruct (Num s >? Num (inject_Z k))%num eqn:E; qbool.
  - exists (Qfloor s). split; [reflexivity|].
    assert (inject_Z k <= s) as Hle by lra. apply Qfloor_resp_le in Hle.
    rewrite Qfloor_Z in Hle. split; [exact Hle|]. split; [lia | reflexivity].
  - exists k. split; [reflexivity|]. split; [lia|].
    split; [|intros ->; reflexivity].
    apply Qfloor_resp_le in E. rewrite Qfloor_Z in E. exact E.
Qed.

Lemma crash_high_score_monotone_witness :
  exists k', highScore (crash overtaking) = Num (inject_Z k')
             /\ (1000 <= k')%Z /\ (Qfloor 1234.5 <= k')%Z
             /\ (storedHighScore overtaking = highScore overtaking ->
                 storedHighScore (crash overtaking) = highScore (crash overtaking)).
Proof.
  apply (crash_high_score_monotone overtaking 1234.5 1000); reflexivity.
Defined.

(** X7: game over is a latch: once [isGameOver] is set, any further
    sequence of ticks and commands leaves the whole state as it is. *)
Theorem game_over_is_final (inputs : list (num * Command)) (g : Game) :
  isGameOver g = true -> run inputs g = Some g.
Proof.
  intros H. unfold run. induction inputs as [|x l IH]; simpl; [reflexivity|].
  unfold update. rewrite H. exact IH.
Qed.

Lemma game_over_is_final_witness :
  run [(Num 0.5, full_throttle); (Num 0.5, neutral)] (crash fresh)
  = Some (crash fresh).
Proof. apply game_over_is_final. vm_compute. reflexivity. Defined.

(** X8: after a step of a game that is not over, whatever the tick and the
    command, the lateral offset is a number in [-2, 2] or [NaN]; and a
    [NaN] offset stays [NaN] in every later step. *)
Theorem playerX_in_range_or_NaN (dt : num) (cmd : Command) (g g' : Game) :
  isGameOver g = false -> update dt cmd g = Some g' ->
  (playerX g' = NaN \/ exists x, playerX g' = Num x /\ -2 <= x /\ x <= 2)
  /\ (playerX g = NaN -> playerX g' = NaN).
Proof. apply update_playerX_NaN. Qed.

Lemma playerX_in_range_or_NaN_witness :
  (playerX (default blank (update (Num 1) (mkCommand (Num 50) (Num 1) (Num 0)) on_curve))
   = NaN
   \/ exists x,
       playerX (default blank (update (Num 1) (mkCommand (Num 50) (Num 1) (Num 0)) on_curve))
       = Num x /\ -2 <= x /\ x <= 2)
  /\ (playerX on_curve = NaN ->
      playerX (default blank (update (Num 1) (mkCommand (Num 50) (Num 1) (Num 0)) on_curve))
      = NaN).
Proof.
  apply (playerX_in_range_or_NaN (Num 1) (mkCommand (Num 50) (Num 1) (Num 0))
           on_curve).
  - vm_compute. reflexivity.
  - apply returns_default. vm_compute. reflexivity.
Defined.

(** X9: the score never goes down: for a tick that is not negative, a step
    leaves a numeric score at least as high as it was (the bonus and the
    distance term are not negative, and [crash] keeps the score). *)
Theorem score_never_decreases
    (dt : num) (d : Q) (cmd : Command) (g g' : Game) (s : Q) :
  dt = Num d -> 0 <= d -> score g = Num s ->
  update dt cmd g = Some g' ->
  exists s', score g' = Num s' /\ s <= s'.
Proof.
  intros Hd Hd0 Hs. rewrite update_parts. destruct (isGameOver g).
  - intros [= <-]. exists s. split; [exact Hs | lra].
  - destruct (move_player dt cmd g) as [g1|] eqn:E1; cbn [mbind option_bind];
      [|discriminate].
    destruct (updateTraffic dt g1) as [g2|] eqn:E2; cbn [mbind option_bind];
      [|discriminate].
    intros E3.
    assert (score g1 = Num s) as Hs1.
    { unfold move_player in E1. destruct (findSegment g _); [|discriminate].
      injection E1 as <-. exact Hs. }
    destruct (updateTraffic_score dt d g1 g2 s Hd Hd0 Hs1 E2) as (s' & Hs' & Hle).
    exists s'. split; [|exact Hle].
    destruct (checkSpriteCollisions_cases g2 g' E3) as [-> | ->]; [exact Hs'|].
    rewrite (proj1 (proj2 (proj2 (proj2 (proj2 (crash_fields g2)))))).
    exact Hs'.
Qed.

Lemma score_never_decreases_witness :
  exists s', score (default blank (update (Num (1 # 60)) full_throttle overtaking))
             = Num s' /\ 1234.5 <= s'.
Proof.
  apply (score_never_decreases (Num (1 # 60)) (1 # 60) full_throttle overtaking).
  - reflexivity.
  - lra.
  - reflexivity.
  - apply returns_default. vm_compute. reflexivity.
Defined.

(** X10: a step moves the cars and nothing else about them: the store
    keeps its length, and every car keeps its lateral offset, its speed,
    its type and its [percent] field. *)
Theorem cars_keep_lane_and_speed (dt : num) (cmd : Command) (g g' : Game) :
  update dt cmd g = Some g' ->
  length (carObjs g') = length (carObjs g)
  /\ forall r c c',
       carObjs g !! r = Some c -> carObjs g' !! r = Some c' ->
       car_offset c' = car_offset c /\ car_speed c' = car_speed c
       /\ car_type c' = car_type c /\ car_percent c' = car_percent c.
Proof.
  intros E. apply update_cars in E.
  apply Forall2_same_length_lookup in E as [El Ec].
  split; [symmetry; exact El|]. intros r c c' H H'. exact (Ec r c c' H H').
Qed.

Lemma cars_keep_lane_and_speed_witness :
  length (carObjs (default blank (update (Num 1) full_throttle lane_split)))
  = length (carObjs lane_split)
  /\ forall r c c',
       carObjs lane_split !! r = Some c ->
       carObjs (default blank (update (Num 1) full_throttle lane_split)) !! r
       = Some c' ->
       car_offset c' = car_offset c /\ car_speed c' = car_speed c
       /\ car_type c' = car_type c /\ car_percent c' = car_percent c.
Proof.
  apply (cars_keep_lane_and_speed (Num 1) full_throttle lane_split).
  apply returns_default. vm_compute. reflexivity.
Defined.

(** X11: one car never gives a bonus and a crash in the same iteration:
    when the close-call bonus is awarded for a car, the iteration for that
    car adds 500 to the score and calls no [crash] (game-over flag and speed
    are kept); when the car is hit, the score is kept. *)
Theorem close_call_excludes_crash
    (dt pz tl : num) (i : nat) (g : Game) (moves : list Move) (r : ref)
    (c : Car) :
  carObjs g !! r = Some c ->
  exists g' moves',
    updateTraffic_car dt pz tl i (g, moves) r = Some (g', moves')
    /\ (closeCall_fires dt pz tl g c = true ->
        score g' = (score g + Num 500)%num
        /\ isGameOver g' = isGameOver g /\ speed g' = speed g)
    /\ (collides dt pz tl g c = true ->
        score g' = score g /\ isGameOver g' = true).
Proof.
  intros Hc. rewrite (updateTraffic_car_eq dt pz tl i g moves r c Hc).
  eexists _, _. split; [reflexivity|]. cbn [score isGameOver speed set_carObjs].
  split.
  - intros Hf. pose proof (fires_not_collides _ _ _ _ _ Hf) as Hn.
    destruct (game_after_no_hit _ _ _ _ _ Hn) as (? & ? & _).
    change (score (game_after dt pz tl g c) = (score g + Num 500)%num
            /\ isGameOver (game_after dt pz tl g c) = isGameOver g
            /\ speed (game_after dt pz tl g c) = speed g).
    rewrite game_after_score, Hf. auto.
  - intros Hh.
    change (score (game_after dt pz tl g c) = score g
            /\ isGameOver (game_after dt pz tl g c) = true).
    rewrite game_after_score.
    destruct (closeCall_fires dt pz tl g c) eqn:Hf.
    + apply fires_not_collides in Hf. congruence.
    + split; [reflexivity|]. apply (game_after_hit _ _ _ _ _ Hh).
Qed.

Lemma close_call_excludes_crash_witness :
  exists g' moves',
    updateTraffic_car (Num (1 # 60)) (Num 1300) (trackLength overtaking) 5
                      (overtaking, []) 0%nat = Some (g', moves')
    /\ (closeCall_fires (Num (1 # 60)) (Num 1300) (trackLength overtaking)
                        overtaking passed_car = true ->
        score g' = (score overtaking + Num 500)%num
        /\ isGameOver g' = isGameOver overtaking /\ speed g' = speed overtaking)
    /\ (collides (Num (1 # 60)) (Num 1300) (trackLength overtaking)
                 overtaking passed_car = true ->
        score g' = score overtaking /\ isGameOver g' = true).
Proof.
  apply (close_call_excludes_crash (Num (1 # 60)) (Num 1300)
           (trackLength overtaking) 5 overtaking [] 0%nat passed_car).
  reflexivity.
Defined.

(** X12: with ticks of at most a sixth of a second the speed after a step
    is a number in [0, MAX_SPEED], whatever the command and the speed
    before: the off-road penalty of such a tick (at most 2000) is not more
    than the speed it is gated on. *)
Theorem speed_in_range_for_short_ticks
    (dt : num) (cmd : Command) (g g' : Game) (d v : Q) :
  isGameOver g = false -> speed g = Num v ->
  dt = Num d -> 0 < d -> d <= 1 # 6 ->
  update dt cmd g = Some g' ->
  exists v', speed g' = Num v' /\ 0 <= v' /\ v' <= 12000.
Proof.
  intros Hover Hv Hd Hd0 Hd6 E.
  destruct (update_playerX dt cmd g g' Hover E) as (sg & _ & _ & Es).
  destruct (speed_penalised_range dt cmd g sg v d Hv Hd Hd0)
    as (v2 & E2 & _ & Hhi & Hlo); [lra|].
  specialize (Hlo Hd6).
  destruct Es as [-> | ->]; [rewrite E2|]; eexists; (split; [reflexivity|]); lra.
Qed.

Lemma speed_in_range_for_short_ticks_witness :
  exists v',
    speed (default blank (update (Num (1 # 6)) (mkCommand (Num 50) (Num 0) (Num 0))
                                 on_curve))
    = Num v' /\ 0 <= v' /\ v' <= 12000.
Proof.
  apply (speed_in_range_for_short_ticks (Num (1 # 6))
           (mkCommand (Num 50) (Num 0) (Num 0)) on_curve _ (1 # 6) 12000).
  - vm_compute. reflexivity.
  - vm_compute. reflexivity.
  - reflexivity.
  - lra.
  - lra.
  - apply returns_default. vm_compute. reflexivity.
Defined.

(** X13: [resetRoad] lays 2000 segments; segment [i] carries the index
    [i], spans the depths from 200 i to 200 (i + 1) at height 0 (so
    consecutive segments share an edge and the last one ends at the track
    length), and has the curve of its band; the cars and trees added while
    the loop runs disturb none of it. *)
Theorem track_geometry (rnd : nat -> Q) (g0 : Game) :
  (forall j, 0 <= rnd j /\ rnd j < 1) ->
  exists g,
    resetRoad rnd g0 = Some g
    /\ length (segments g) = 2000%nat
    /\ forall i sg, segments g !! i = Some sg ->
         index sg = i
         /\ world (p1 sg) = mkWorld NaN (Num 0) (ofNat i * SEGMENT_LENGTH)%num
         /\ world (p2 sg) = mkWorld NaN (Num 0) (ofNat (i + 1) * SEGMENT_LENGTH)%num
         /\ curve sg = curve_of i
         /\ color sg = (if ((i / 3) mod 2 =? 0)%nat then ROAD_LIGHT else ROAD_DARK).
Proof.
  intros Hrnd.
  destruct (resetRoad_Layout rnd g0 Hrnd) as (g & E & (Hlen & Hsegs & _) & _).
  exists g. split; [exact E|]. split; [exact Hlen|].
  intros i sg Hi. exact (laid_geometry g i sg (Hsegs i sg Hi)).
Qed.

Lemma track_geometry_witness :
  exists g,
    resetRoad always_high blank = Some g
    /\ length (segments g) = 2000%nat
    /\ forall i sg, segments g !! i = Some sg ->
         index sg = i
         /\ world (p1 sg) = mkWorld NaN (Num 0) (ofNat i * SEGMENT_LENGTH)%num
         /\ world (p2 sg) = mkWorld NaN (Num 0) (ofNat (i + 1) * SEGMENT_LENGTH)%num
         /\ curve sg = curve_of i
         /\ color sg = (if ((i / 3) mod 2 =? 0)%nat then ROAD_LIGHT else ROAD_DARK).
Proof.
  apply (track_geometry always_high blank).
  intros j. unfold always_high. split; lra.
Defined.

(** X14: on the track [resetRoad] builds, [findSegment] returns, for every
    depth from 0 up to the track length, the segment whose span contains
    that depth. *)
Theorem findSegment_contains_depth (rnd : nat -> Q) (g0 : Game) (z : Q) :
  (forall j, 0 <= rnd j /\ rnd j < 1) -> 0 <= z -> z < 400000 ->
  exists g sg z1 z2,
    resetRoad rnd g0 = Some g
    /\ findSegment g (Num z) = Some sg
    /\ world_z (world (p1 sg)) = Num z1 /\ world_z (world (p2 sg)) = Num z2
    /\ z1 <= z /\ z < z2.
Proof.
  intros Hrnd Hz0 Hz1.
  destruct (resetRoad_Layout rnd g0 Hrnd) as (g & E & (Hlen & Hsegs & _) & _).
  assert (Hf0 : (0 <= Qfloor (z / 200))%Z).
  { change 0%Z with (Qfloor 0). apply Qfloor_resp_le.
    unfold Qdiv. change (/ 200) with (1 # 200). lra. }
  assert (Hf1 : (Qfloor (z / 200) < 2000)%Z).
  { rewrite Zlt_Qlt. eapply Qle_lt_trans; [apply Qfloor_le|].
    change (inject_Z 2000) with 2000.
    unfold Qdiv. change (/ 200) with (1 # 200). lra. }
  set (i := Z.to_nat (Qfloor (z / 200))).
  assert (Hi : (i < length (segments g))%nat) by (rewrite Hlen; unfold TOTAL_SEGMENTS; lia).
  destruct (lookup_lt_is_Some_2 _ _ Hi) as [sg Hsg].
  destruct (laid_geometry g i sg (Hsegs i sg Hsg)) as (_ & Hp1 & Hp2 & _).
  exists g, sg. eexists _, _. split; [exact E|]. split.
  { rewrite findSegment_Num by (rewrite ?Hlen; unfold TOTAL_SEGMENTS; lia || lra).
    rewrite Hlen. unfold TOTAL_SEGMENTS.
    rewrite Z.mod_small by lia. exact Hsg. }
  rewrite Hp1, Hp2. split; [reflexivity|]. split; [reflexivity|].
  rewrite !Qred_correct.
  replace (Z.of_nat (i + 1)) with (Qfloor (z / 200) + 1)%Z by lia.
  replace (Z.of_nat i) with (Qfloor (z / 200)) by lia.
  pose proof (Qfloor_le (z / 200)) as Hle.
  pose proof (Qlt_floor (z / 200)) as Hlt.
  unfold Qdiv in Hle, Hlt. change (/ 200) with (1 # 200) in Hle, Hlt.
  unfold Qdiv. change (/ 200) with (1 # 200).
  split; lra.
Qed.

Lemma findSegment_contains_depth_witness :
  exists g sg z1 z2,
    resetRoad always_high blank = Some g
    /\ findSegment g (Num 399999.5) = Some sg
    /\ world_z (world (p1 sg)) = Num z1 /\ world_z (world (p2 sg)) = Num z2
    /\ z1 <= 399999.5 /\ 399999.5 < z2.
Proof.
  apply (findSegment_contains_depth always_high blank 399999.5).
  - intros j. unfold always_high. split; lra.
  - lra.
  - lra.
Defined.

(** X15: the traffic [resetRoad] spawns, for draws in [0, 1): at most 49
    cars; every car is the only car of one segment whose index is a
    multiple of 40, from 40 on (none within 8000 of the start), sits at that
    segment's near edge, in one of the three lanes, with a whole speed from
    3000 to 8000 and its [justPassed] flag clear; no segment holds two. *)
Theorem traffic_at_start (rnd : nat -> Q) (g0 : Game) :
  (forall j, 0 <= rnd j /\ rnd j < 1) ->
  exists g,
    resetRoad rnd g0 = Some g
    /\ (length (carObjs g) <= 49)%nat
    /\ (forall r c, carObjs g !! r = Some c ->
          exists i sg,
            (40 <= i)%nat /\ i mod 40 = 0%nat
            /\ segments g !! i = Some sg /\ cars sg = [r]
            /\ car_z c = (ofNat i * SEGMENT_LENGTH)%num
            /\ car_offset c ∈ lanes
            /\ (exists k : Z, car_speed c = Num (inject_Z k)
                              /\ (3000 <= k <= 8000)%Z)
            /\ justPassed c = false)
    /\ (forall i sg, segments g !! i = Some sg -> (length (cars sg) <= 1)%nat).
Proof.
  intros Hrnd.
  destruct (resetRoad_Layout rnd g0 Hrnd) as (g & E & HL & _).
  exists g. split; [exact E|]. split; [|split].
  - destruct HL as (_ & _ & _ & [-> | Hc]); [lia|].
    unfold TOTAL_SEGMENTS in Hc. lia.
  - intros r c Hc.
    destruct (Layout_cars g r c HL Hc)
      as (i & sg & H40 & _ & Hm & Hi & Hr & Hz & Ho & Hv & _ & Hj).
    exists i, sg. split_and!; auto.
  - intros i sg Hi. destruct HL as (_ & Hsegs & _).
    destruct (Hsegs i sg Hi) as (_ & _ & [-> | (_ & _ & r & c & -> & _)]);
      simpl; lia.
Qed.

Lemma traffic_at_start_witness :
  exists g,
    resetRoad always_high blank = Some g
    /\ (length (carObjs g) <= 49)%nat
    /\ (forall r c, carObjs g !! r = Some c ->
          exists i sg,
            (40 <= i)%nat /\ i mod 40 = 0%nat
            /\ segments g !! i = Some sg /\ cars sg = [r]
            /\ car_z c = (ofNat i * SEGMENT_LENGTH)%num
            /\ car_offset c ∈ lanes
            /\ (exists k : Z, car_speed c = Num (inject_Z k)
                              /\ (3000 <= k <= 8000)%Z)
            /\ justPassed c = false)
    /\ (forall i sg, segments g !! i = Some sg -> (length (cars sg) <= 1)%nat).
Proof.
  apply (traffic_at_start always_high blank).
  intros j. unfold always_high. split; lra.
Defined.

(** X16: the scenery [resetRoad] plants, for draws in [0, 1): a segment
    has a sprite only if its index is a multiple of 20, and then exactly
    one, a tree whose lateral offset lies between 1.5 and 2.5 on either
    side, clear of the road. *)
Theorem trees_beside_the_road (rnd : nat -> Q) (g0 : Game) :
  (forall j, 0 <= rnd j /\ rnd j < 1) ->
  exists g,
    resetRoad rnd g0 = Some g
    /\ forall i sg s, segments g !! i = Some sg -> s ∈ sprites sg ->
         i mod 20 = 0%nat /\ sprites sg = [s] /\ sprite_type s = tree
         /\ exists o, sprite_offset s = Num o
                      /\ ((1.5 <= o /\ o <= 2.5) \/ (-2.5 <= o /\ o <= -1.5)).
Proof.
  intros Hrnd.
  destruct (resetRoad_Layout rnd g0 Hrnd) as (g & E & (_ & Hsegs & _) & _).
  exists g. split; [exact E|]. intros i sg s Hi Hs.
  destruct (Hsegs i sg Hi) as (_ & [Hnil | (H20 & s' & Hs' & Hok)] & _).
  - rewrite Hnil in Hs. inversion Hs.
  - rewrite Hs' in Hs. apply list_elem_of_singleton in Hs. subst s'.
    destruct Hok as (Ht & o & Eo & Ho). split_and!; auto.
    exists o. split; [exact Eo|]. destruct Ho as [[? ?] | [? ?]]; [left | right]; lra.
Qed.

Lemma trees_beside_the_road_witness :
  exists g,
    resetRoad always_high blank = Some g
    /\ forall i sg s, segments g !! i = Some sg -> s ∈ sprites sg ->
         i mod 20 = 0%nat /\ sprites sg = [s] /\ sprite_type s = tree
         /\ exists o, sprite_offset s = Num o
                      /\ ((1.5 <= o /\ o <= 2.5) \/ (-2.5 <= o /\ o <= -1.5)).
Proof.
  apply (trees_beside_the_road always_high blank).
  intros j. unfold always_high. split; lra.
Defined.

(** X17: a step never changes the road: the number of segments stays, and
    every segment keeps its index, both edges (world, camera and screen
    points), colour, curve, sprites, [looped] and clip fields; only the
    [cars] arrays change. *)
Theorem road_is_static (dt : num) (cmd : Command) (g g' : Game) :
  update dt cmd g = Some g' ->
  length (segments g') = length (segments g)
  /\ forall i sg sg',
       segments g !! i = Some sg -> segments g' !! i = Some sg' ->
       index sg' = index sg /\ p1 sg' = p1 sg /\ p2 sg' = p2 sg
       /\ color sg' = color sg /\ curve sg' = curve sg
       /\ sprites sg' = sprites sg
       /\ looped sg' = looped sg /\ clipY sg' = clipY sg.
Proof.
  intros E. apply update_road in E.
  apply Forall2_same_length_lookup in E as [El Es].
  split; [symmetry; exact El|]. intros i sg sg' H H'.
  apply same_road_fields. exact (Es i sg sg' H H').
Qed.

Lemma road_is_static_witness :
  length (segments (default blank (update (Num 1) full_throttle fresh)))
  = length (segments fresh)
  /\ forall i sg sg',
       segments fresh !! i = Some sg ->
       segments (default blank (update (Num 1) full_throttle fresh)) !! i
       = Some sg' ->
       index sg' = index sg /\ p1 sg' = p1 sg /\ p2 sg' = p2 sg
       /\ color sg' = color sg /\ curve sg' = curve sg
       /\ sprites sg' = sprites sg
       /\ looped sg' = looped sg /\ clipY sg' = clipY sg.
Proof.
  apply (road_is_static (Num 1) full_throttle fresh).
  apply returns_default. vm_compute. reflexivity.
Defined.



(** X19: in every state a game reaches from its constructor (draws in
    [0, 1), ticks in (0, 1], any commands) there are the cars that were
    spawned, at most 49, each with the lane and the whole speed from 3000 to
    8000 it was given, and each at a depth within the closed interval from 0
    to the track length. *)
Theorem cars_stay_on_track
    (w h stored : num) (rnd : nat -> Q) (inputs : list (num * Command)) :
  (forall j, 0 <= rnd j /\ rnd j < 1) ->
  Forall (fun x => tick_ok (fst x) = true) inputs ->
  exists g0 g,
    newGame w h stored rnd = Some g0 /\ run inputs g0 = Some g
    /\ length (carObjs g) = length (carObjs g0)
    /\ (length (carObjs g) <= 49)%nat
    /\ forall r c, carObjs g !! r = Some c ->
         (exists z, car_z c = Num z /\ 0 <= z /\ z <= 400000)
         /\ car_offset c ∈ lanes
         /\ (exists k : Z, car_speed c = Num (inject_Z k)
                           /\ (3000 <= k <= 8000)%Z).
Proof.
  intros Hrnd Hticks.
  destruct (newGame_Layout w h stored rnd Hrnd) as (g0 & E0 & HI0 & HL & _).
  destruct (run_world inputs g0 Hticks HI0 (Layout_ranged g0 HL))
    as (g & E & HI & _ & Hcars & Hr).
  exists g0, g. split; [exact E0|]. split; [exact E|].
  pose proof (Forall2_length _ _ _ Hcars) as Hlen.
  split; [symmetry; exact Hlen|]. split.
  { rewrite <- Hlen. destruct HL as (_ & _ & _ & [-> | Hc]); [lia|].
    unfold TOTAL_SEGMENTS in Hc. lia. }
  intros r c Hc.
  destruct (Forall2_lookup_r _ _ _ _ _ Hcars Hc) as (c0 & Hc0 & Ho & Hv & _).
  destruct (Layout_cars g0 r c0 HL Hc0)
    as (i & sg & _ & _ & _ & _ & _ & _ & Hlane & Hk & _).
  pose proof (proj1 (Forall_lookup _ _) Hr r c Hc)
    as (z & v & Ez & _ & Hz0 & Hz1 & _).
  split; [eauto|]. rewrite Ho, Hv. auto.
Qed.

Lemma cars_stay_on_track_witness :
  exists g0 g,
    newGame (Num 800) (Num 600) NaN always_high = Some g0
    /\ run off_road_run g0 = Some g
    /\ length (carObjs g) = length (carObjs g0)
    /\ (length (carObjs g) <= 49)%nat
    /\ forall r c, carObjs g !! r = Some c ->
         (exists z, car_z c = Num z /\ 0 <= z /\ z <= 400000)
         /\ car_offset c ∈ lanes
         /\ (exists k : Z, car_speed c = Num (inject_Z k)
                           /\ (3000 <= k <= 8000)%Z).
Proof.
  apply (cars_stay_on_track (Num 800) (Num 600) NaN always_high off_road_run).
  - intros j. unfold always_high. split; lra.
  - repeat constructor.
Defined.

(** X20: the player's fields stay numbers in range along a whole game:
    from the constructor (draws in [0, 1)), after any run of ticks in (0, 1]
    with commands whose [steer] is a number of absolute value at most a
    million, the run returns, the position lies in [0, trackLength], the
    lateral offset in [-2, 2], and the speed in [-10000, MAX_SPEED]. *)
Theorem player_stays_in_range
    (w h stored : num) (rnd : nat -> Q) (inputs : list (num * Command)) :
  (forall j, 0 <= rnd j /\ rnd j < 1) ->
  Forall (fun x => tick_ok (fst x) = true /\ steer_bounded (snd x) = true)
         inputs ->
  exists g0 g p x v,
    newGame w h stored rnd = Some g0 /\ run inputs g0 = Some g
    /\ position g = Num p /\ 0 <= p /\ p <= 400000
    /\ playerX g = Num x /\ -2 <= x /\ x <= 2
    /\ speed g = Num v /\ -10000 <= v /\ v <= 12000.
Proof.
  intros Hrnd Hin.
  assert (Hin' : Forall (fun x => tick_ok (fst x) = true
                                  /\ is_num (steer (snd x)) = true) inputs).
  { eapply Forall_impl; [exact Hin|]. intros y [? ?].
    split; [assumption | now apply steer_bounded_num]. }
  destruct (reach_player_ranges w h stored rnd inputs Hrnd Hin')
    as (g0 & g & E0 & E & HI & _ & Hx & Hv).
  pose proof (Inv_length g HI) as HN. destruct HI as (_ & Hp & _).
  apply (player_wf_iff g HN) in Hp as (p & v' & Ep & _ & Hp0 & Hp1).
  destruct Hx as (x & Ex & Hx0 & Hx1). destruct Hv as (v & Ev & Hv0 & Hv1).
  exists g0, g, p, x, v. split_and!; auto; lra.
Qed.

Lemma player_stays_in_range_witness :
  exists g0 g p x v,
    newGame (Num 800) (Num 600) NaN always_high = Some g0
    /\ run off_road_run g0 = Some g
    /\ position g = Num p /\ 0 <= p /\ p <= 400000
    /\ playerX g = Num x /\ -2 <= x /\ x <= 2
    /\ speed g = Num v /\ -10000 <= v /\ v <= 12000.
Proof.
  apply (player_stays_in_range (Num 800) (Num 600) NaN always_high off_road_run).
  - intros j. unfold always_high. split; lra.
  - repeat constructor.
Defined.

(** X21: in keyboard mode the commands stay in the documented ranges:
    from a new input system, whatever keys go down and up and however often
    the tracker reports no hand between polls, every command [getCommand]
    returns has [steer] in [-1, 1] and [accel] and [brake] equal to 0 or
    1. *)
Theorem keyboard_commands_in_range (batches : list (list InputEvent)) :
  Forall (fun c =>
            (exists k, steer c = Num k /\ -1 <= k /\ k <= 1)
            /\ (accel c = Num 0 \/ accel c = Num 1)
            /\ (brake c = Num 0 \/ brake c = Num 1))
         (poll_run batches newInput).
Proof.
  assert (H : forall s, keyboard_mode s ->
                        Forall command_in_range (poll_run batches s)).
  {
    induction batches as [|evs batches IH]; intros s Hs; simpl; [constructor|].
    assert (Hs' : keyboard_mode (foldl apply_event s evs)).
    { revert s Hs. induction evs as [|e evs IHe]; intros s Hs; simpl; [exact Hs|].
      apply IHe. now apply keyboard_mode_event. }
    destruct (getCommand_keyboard _ Hs') as (Hc & Hk & _).
    destruct (getCommand (foldl apply_event s evs)) as [cmd s1].
    constructor; [exact Hc | apply IH; exact Hk].
  }
  exact (H newInput newInput_keyboard).
Qed.

(** X22: released steering returns to exactly 0: in keyboard mode with no
    steering key held and a steering value in [-1, 1], the value shrinks by
    a fifth at every poll and is snapped to 0 once it is below 0.01, so from
    the 21st poll on it is 0. *)
Theorem released_steering_returns_to_zero (s : InputSystem) (k : Q) (n : nat) :
  active (gesture s) = false ->
  pressed s "ArrowLeft" || pressed s "KeyA" = false ->
  pressed s "ArrowRight" || pressed s "KeyD" = false ->
  keyboardSteer s = Num k -> -1 <= k -> k <= 1 -> (21 <= n)%nat ->
  keyboardSteer (polls n s) = Num 0
  /\ steer (fst (getCommand (polls n s))) = Num 0.
Proof.
  intros Ha Hl Hr Ek Hlo Hhi Hn.
  destruct (polls_released s k Ha Hl Hr Ek Hlo Hhi n) as (_ & _ & Hcase).
  destruct (polls_released s k Ha Hl Hr Ek Hlo Hhi (S n)) as (_ & _ & Hnext).
  assert (Hz : forall m, (21 <= m)%nat ->
            ((0 < m)%nat /\ keyboardSteer (polls m s) = Num 0
             \/ exists k', keyboardSteer (polls m s) = Num k'
                           /\ Qabs k' <= decay m
                           /\ ((0 < m)%nat -> 1 # 100 <= Qabs k')) ->
            keyboardSteer (polls m s) = Num 0).
  { intros m Hm [[_ E] | (k' & _ & Hle & Hge)]; [exact E|]. exfalso.
    specialize (Hge ltac:(lia)).
    pose proof (decay_mono 21 m Hm) as Hd.
    assert (H21 : decay 21 < 1 # 100) by (vm_compute; reflexivity).
    lra. }
  split; [apply Hz; assumption|].
  rewrite polls_S in Hnext.
  destruct (getCommand_keyboard (polls n s)) as (_ & _ & ->).
  { destruct (polls_released s k Ha Hl Hr Ek Hlo Hhi n) as (_ & Hg & _).
    split; [rewrite Hg; exact Ha|].
    rewrite (Hz n Hn Hcase). exists 0. split; [reflexivity | lra]. }
  apply (Hz (S n)); [lia|]. rewrite polls_S. exact Hnext.
Qed.

Lemma released_steering_returns_to_zero_witness :
  keyboardSteer (polls 21 (set_keyboardSteer (Num 1) newInput)) = Num 0
  /\ steer (fst (getCommand (polls 21 (set_keyboardSteer (Num 1) newInput))))
     = Num 0.
Proof.
  apply (released_steering_returns_to_zero
           (set_keyboardSteer (Num 1) newInput) 1 21);
    try reflexivity; lra || lia.
Defined.

(** X23: the frame loop keeps the game well formed: from the constructor
    (draws in [0, 1)) and [start], for frames whose timestamps strictly
    increase and any keyboard events between them, every [step] (elapsed
    time capped at one second, [getCommand], [update], [render]) returns;
    afterwards every car is held by exactly the segment of its depth, the
    position lies in [0, trackLength], the lateral offset in [-2, 2], the
    speed in [-10000, MAX_SPEED], the game is still playing
    and [lastTime] is the last timestamp. *)
Theorem frame_loop_keeps_invariant
    (w h stored : num) (rnd : nat -> Q) (tc t0 : Q)
    (frames : list (list InputEvent * Q)) :
  (forall j, 0 <= rnd j /\ rnd j < 1) -> increasing t0 frames ->
  exists L0 L p x v,
    newLoop w h stored rnd (Num tc) = Some L0
    /\ run_frames frames (start (Num t0) L0) = Some L
    /\ single_owner (game L)
    /\ position (game L) = Num p /\ 0 <= p /\ p <= 400000
    /\ playerX (game L) = Num x /\ -2 <= x /\ x <= 2
    /\ speed (game L) = Num v /\ -10000 <= v /\ v <= 12000
    /\ isPlaying (game L) = true
    /\ lastTime L = Num (last_time t0 frames).
Proof.
  intros Hrnd Hinc.
  destruct (newGame_game_ok w h stored rnd Hrnd) as (g0 & E0 & Hg0 & _).
  destruct (run_frames_ok frames (start (Num t0) (mkLoop g0 newInput (Num tc))) t0)
    as (L & E & [Hg Hkb] & Et); [|reflexivity|exact Hinc|].
  { split; [exact Hg0 | exact newInput_keyboard]. }
  destruct Hg as (HI & _ & (x & Ex & Hx0 & Hx1) & (v & Ev & Hv0 & Hv1) & Hplay).
  pose proof (Inv_length _ HI) as HN. pose proof HI as (_ & Hp & _).
  apply (player_wf_iff _ HN) in Hp as (p & v' & Ep & _ & Hp0 & Hp1).
  exists (mkLoop g0 newInput (Num tc)), L, p, x, v.
  split; [unfold newLoop; rewrite E0; reflexivity|].
  split; [exact E|]. split; [now apply Inv_single_owner|].
  split_and!; auto; lra.
Qed.

Lemma frame_loop_keeps_invariant_witness :
  exists L0 L p x v,
    newLoop (Num 800) (Num 600) NaN always_high (Num 990) = Some L0
    /\ run_frames [([KeyDown "ArrowUp"], 1016); ([], 1033);
                   ([KeyDown "ArrowLeft"; KeyUp "ArrowUp"], 2500)]
                  (start (Num 1000) L0) = Some L
    /\ single_owner (game L)
    /\ position (game L) = Num p /\ 0 <= p /\ p <= 400000
    /\ playerX (game L) = Num x /\ -2 <= x /\ x <= 2
    /\ speed (game L) = Num v /\ -10000 <= v /\ v <= 12000
    /\ isPlaying (game L) = true
    /\ lastTime L
       = Num (last_time 1000 [([KeyDown "ArrowUp"], 1016); ([], 1033);
                              ([KeyDown "ArrowLeft"; KeyUp "ArrowUp"], 2500)]).
Proof.
  apply (frame_loop_keeps_invariant (Num 800) (Num 600) NaN always_high 990 1000).
  - intros j. unfold always_high. split; lra.
  - simpl. repeat split; lra.
Defined.

(** X24: [restart] gives a fresh game whatever state it is called on:
    for draws in [0, 1) it returns; the track and the cars are rebuilt (the
    old ones are dropped), position, lateral offset, speed, score and
    distance are 0, the game is playing and not over, the high score, its
    stored copy and the canvas size are kept, and every car is held by
    exactly the segment of its depth. *)
Theorem restart_gives_fresh_game (rnd : nat -> Q) (g : Game) :
  (forall j, 0 <= rnd j /\ rnd j < 1) ->
  exists g1 g',
    resetRoad rnd g = Some g1 /\ restart rnd g = Some g'
    /\ segments g' = segments g1 /\ carObjs g' = carObjs g1
    /\ position g' = Num 0 /\ playerX g' = Num 0 /\ speed g' = Num 0
    /\ score g' = Num 0 /\ distanceRun g' = Num 0
    /\ isGameOver g' = false /\ isPlaying g' = true
    /\ highScore g' = highScore g /\ storedHighScore g' = storedHighScore g
    /\ width g' = width g /\ height g' = height g
    /\ single_owner g'.
Proof.
  intros Hrnd.
  destruct (restart_game_ok rnd g Hrnd) as (g1 & g' & E1 & E & Eg & _ & HI & _).
  exists g1, g'. split; [exact E1|]. split; [exact E|].
  split_and!; try (rewrite Eg; reflexivity).
  now apply Inv_single_owner.
Qed.

Lemma restart_gives_fresh_game_witness :
  exists g1 g',
    resetRoad always_high (crash tailgate) = Some g1
    /\ restart always_high (crash tailgate) = Some g'
    /\ segments g' = segments g1 /\ carObjs g' = carObjs g1
    /\ position g' = Num 0 /\ playerX g' = Num 0 /\ speed g' = Num 0
    /\ score g' = Num 0 /\ distanceRun g' = Num 0
    /\ isGameOver g' = false /\ isPlaying g' = true
    /\ highScore g' = highScore (crash tailgate)
    /\ storedHighScore g' = storedHighScore (crash tailgate)
    /\ width g' = width (crash tailgate) /\ height g' = height (crash tailgate)
    /\ single_owner g'.
Proof.
  apply (restart_gives_fresh_game always_high (crash tailgate)).
  intros j. unfold always_high. split; lra.
Defined.

(** X25: a wave needs five samples: when [detectWaveGesture] reports a
    wave, at least five samples (the new one included) lie within the time
    window, more than the cooldown has passed since the last detection, and
    the call clears the history and records the time; the guard on four
    samples alone never lets a wave through. *)
Theorem wave_needs_five_samples (x now : num) (s : InputSystem) :
  snd (detectWaveGesture x now s) = true ->
  (5 <= length (List.filter (fun p => (now - wave_time p <? waveTimeWindow)%num)
                            (waveHistory s ++ [mkWavePoint x now])))%nat
  /\ (now - lastWaveTime s >? waveCooldown)%num = true
  /\ waveHistory (fst (detectWaveGesture x now s)) = []
  /\ lastWaveTime (fst (detectWaveGesture x now s)) = now.
Proof.
  intros H. destruct (detectWaveGesture_fired x now s H) as (Hh & Ht & Hgap & Hc).
  split; [|auto].
  destruct (directionChanges_bound
              (List.filter (fun p => (now - wave_time p <? waveTimeWindow)%num)
                           (waveHistory s ++ [mkWavePoint x now]))); lia.
Qed.

Lemma wave_needs_five_samples_witness :
  (5 <= length (List.filter
                  (fun p => (Num 5400 - wave_time p <? waveTimeWindow)%num)
                  (waveHistory
                     (set_waveHistory
                        [mkWavePoint (Num 0.1) (Num 5000);
                         mkWavePoint (Num 0.3) (Num 5100);
                         mkWavePoint (Num 0.1) (Num 5200);
                         mkWavePoint (Num 0.3) (Num 5300)] newInput)
                   ++ [mkWavePoint (Num 0.1) (Num 5400)])))%nat
  /\ (Num 5400
      - lastWaveTime
          (set_waveHistory
             [mkWavePoint (Num 0.1) (Num 5000);
              mkWavePoint (Num 0.3) (Num 5100);
              mkWavePoint (Num 0.1) (Num 5200);
              mkWavePoint (Num 0.3) (Num 5300)] newInput)
      >? waveCooldown)%num = true
  /\ waveHistory
       (fst (detectWaveGesture (Num 0.1) (Num 5400)
               (set_waveHistory
                  [mkWavePoint (Num 0.1) (Num 5000);
                   mkWavePoint (Num 0.3) (Num 5100);
                   mkWavePoint (Num 0.1) (Num 5200);
                   mkWavePoint (Num 0.3) (Num 5300)] newInput))) = []
  /\ lastWaveTime
       (fst (detectWaveGesture (Num 0.1) (Num 5400)
               (set_waveHistory
                  [mkWavePoint (Num 0.1) (Num 5000);
                   mkWavePoint (Num 0.3) (Num 5100);
                   mkWavePoint (Num 0.1) (Num 5200);
                   mkWavePoint (Num 0.3) (Num 5300)] newInput)))
     = Num 5400.
Proof.
  apply (wave_needs_five_samples (Num 0.1) (Num 5400)
           (set_waveHistory
              [mkWavePoint (Num 0.1) (Num 5000);
               mkWavePoint (Num 0.3) (Num 5100);
               mkWavePoint (Num 0.1) (Num 5200);
               mkWavePoint (Num 0.3) (Num 5300)] newInput)).
  vm_compute. reflexivity.
Defined.

(** X26: wave detections are spaced by the cooldown: over any sequence of
    samples, whatever the wrist positions and the clock values, each
    detection comes more than 1000 ms after the detection before it (the
    first one more than 1000 ms after the recorded [lastWaveTime]). *)
Theorem wave_detections_are_spaced (samples : list (num * num)) (s : InputSystem) :
  spaced (lastWaveTime s) (wave_run samples s).
Proof.
  revert s.
  induction samples as [|[x now] samples IH]; intros s; simpl; [exact I|].
  pose proof (detectWaveGesture_fired x now s) as Hf.
  pose proof (detectWaveGesture_quiet x now s) as Hq.
  destruct (detectWaveGesture x now s) as [s1 fired]. cbn [fst snd] in *.
  destruct fired.
  - destruct (Hf eq_refl) as (_ & Et & Hgap & _). simpl.
    split; [exact Hgap|]. rewrite <- Et. apply IH.
  - rewrite <- (Hq eq_refl). apply IH.
Qed.

(** X27: the audio targets stay in range for every speed ratio, also one
    outside [0, 1] (the speed can be negative): the engine frequency lies
    in [80, 300], the filter frequency in [400, 1400], the engine volume
    between 0.1 and 0.301 and the wind volume in [0, 0.3]; at or below
    ratio 0 the targets are those of ratio 0 (the engine idles at 80 and
    400, no wind), up to ratio 0.5 there is no wind, and from ratio 1 on the
    targets are those of ratio 1 (300 and 1400). *)
Theorem audio_targets_in_range (q : Q) :
  exists f c e w,
    audio_update true (Num q) = Some (mkAudioTargets (Num f) (Num c) (Num e) (Num w))
    /\ 80 <= f /\ f <= 300 /\ 400 <= c /\ c <= 1400
    /\ 0.1 <= e /\ e <= 0.301 /\ 0 <= w /\ w <= 0.3
    /\ (q <= 0 -> f == 80 /\ c == 400 /\ w == 0
                  /\ audio_update true (Num q) = audio_update true (Num 0))
    /\ (q <= 0.5 -> w == 0)
    /\ (1 <= q -> f == 300 /\ c == 1400
                  /\ audio_update true (Num q) = audio_update true (Num 1)).
Proof.
  assert (Hr : exists r, nmax (Num 0) (nmin (Num 1) (Num q)) = Num r
                         /\ 0 <= r /\ r <= 1
                         /\ (q <= 0 -> r == 0) /\ (q <= 0.5 -> r <= 0.5)
                         /\ (1 <= q -> r == 1)).
  { unfold nmax, nmin.
    destruct (Qle_bool 1 q) eqn:E1; qbool.
    - destruct (Qle_bool 0 1) eqn:E2; qbool; eexists; (split; [reflexivity|]);
        split_and!; intros; lra.
    - destruct (Qle_bool 0 q) eqn:E2; qbool; eexists; (split; [reflexivity|]);
        split_and!; intros; lra. }
  destruct Hr as (r & Er & Hr0 & Hr1 & Hlow & Hmid & Hhigh).
  assert (Hsame : forall q', r == q' ->
            nmax (Num 0) (nmin (Num 1) (Num q')) = Num q' ->
            audio_update true (Num q) = audio_update true (Num q')).
  { intros q' Eq Eq'. unfold audio_update. cbn [negb]. rewrite Er, Eq'.
    unfold nadd, nmul, nsub, ngt, nlt, Qlt_bool.
    assert (Eb : Qle_bool r 0.5 = Qle_bool q' 0.5).
    { destruct (Qle_bool r 0.5) eqn:E1, (Qle_bool q' 0.5) eqn:E2; qbool;
        try reflexivity; lra. }
    rewrite Eb. destruct (negb (Qle_bool q' 0.5));
      f_equal; f_equal; f_equal; apply Qred_complete;
      rewrite ?Qred_correct, Eq; reflexivity. }
  assert (H0 : q <= 0 -> audio_update true (Num q) = audio_update true (Num 0)).
  { intros H. apply Hsame; [apply Hlow; exact H | reflexivity]. }
  assert (H1 : 1 <= q -> audio_update true (Num q) = audio_update true (Num 1)).
  { intros H. apply Hsame; [apply Hhigh; exact H | reflexivity]. }
  clear Hsame.
  remember (audio_update true (Num 0)) as A0 eqn:EA0.
  remember (audio_update true (Num 1)) as A1 eqn:EA1. clear EA0 EA1.
  remember (audio_update true (Num q)) as A eqn:EA.
  unfold audio_update in EA. cbn [negb] in EA. rewrite Er in EA.
  unfold nadd, nmul, nsub in EA.
  destruct (Num r >? Num 0.5)%num eqn:E; qbool;
    eexists _, _, _, _; (split; [exact EA|]); clear EA; unred;
    split_and!; try lra; intros;
    try (specialize (Hlow ltac:(assumption)));
    try (specialize (Hhigh ltac:(assumption)));
    try (specialize (Hmid ltac:(assumption))); split_and?; try lra; auto.
Qed.

(** X28: [render] only writes scratch fields, and it returns: on a track
    with at least one segment, with a position that is a number and not negative,
    [render] returns; it hands at most 300 segments to [renderSegment]; of
    the game it changes nothing but the segments, and of a segment neither
    the index, the world points, the colour, the curve, the cars nor the
    sprites. *)
Theorem render_writes_only_scratch (g : Game) (p : Q) :
  (0 < length (segments g))%nat -> position g = Num p -> 0 <= p ->
  exists rp,
    render g = Some rp
    /\ (length (rp_drawn rp) <= 300)%nat
    /\ rp_game rp = set_segments (segments (rp_game rp)) g
    /\ length (segments (rp_game rp)) = length (segments g)
    /\ forall i sg sg',
         segments g !! i = Some sg -> segments (rp_game rp) !! i = Some sg' ->
         index sg' = index sg /\ world (p1 sg') = world (p1 sg)
         /\ world (p2 sg') = world (p2 sg) /\ color sg' = color sg
         /\ curve sg' = curve sg /\ cars sg' = cars sg
         /\ sprites sg' = sprites sg.
Proof.
  intros Hlen Hp Hp0.
  assert (Hne : segments g <> []).
  { intros Hnil. rewrite Hnil in Hlen. simpl in Hlen. lia. }
  destruct (render_total g p Hne Hp Hp0) as [rp E].
  exists rp. split; [exact E|]. split; [exact (render_drawn_count g rp E)|].
  destruct (render_frame g rp E) as [Hg Hs]. split; [exact Hg|].
  apply Forall2_same_length_lookup in Hs as [Hl Hs].
  split; [symmetry; exact Hl|]. intros i sg sg' H H'. exact (Hs i sg sg' H H').
Qed.

Lemma render_writes_only_scratch_witness :
  exists rp,
    render lane_split = Some rp
    /\ (length (rp_drawn rp) <= 300)%nat
    /\ rp_game rp = set_segments (segments (rp_game rp)) lane_split
    /\ length (segments (rp_game rp)) = length (segments lane_split)
    /\ forall i sg sg',
         segments lane_split !! i = Some sg ->
         segments (rp_game rp) !! i = Some sg' ->
         index sg' = index sg /\ world (p1 sg') = world (p1 sg)
         /\ world (p2 sg') = world (p2 sg) /\ color sg' = color sg
         /\ curve sg' = curve sg /\ cars sg' = cars sg
         /\ sprites sg' = sprites sg.
Proof.
  apply (render_writes_only_scratch lane_split 0).
  - apply Nat.ltb_lt. vm_compute. reflexivity.
  - reflexivity.
  - lra.
Defined.

(** X29: [findSegment] has no segment for a depth that is [NaN], nor for a
    depth from a thousandth below 0 down to one segment short of a whole lap
    below it (the remainder keeps the sign of the floor, and a negative
    index reads [undefined]);
    [render] then throws, and so does [update] on a game that is not over,
    when the position is such a depth. *)
Theorem no_segment_below_zero (g : Game) (dt : num) (cmd : Command) (z : Q) :
  z <= -0.001 ->
  - ((inject_Z (Z.of_nat (length (segments g))) - 1) * 200) <= z ->
  findSegment g NaN = None
  /\ findSegment g (Num z) = None
  /\ (position g = NaN \/ position g = Num z -> render g = None)
  /\ (position g = NaN -> isGameOver g = false -> update dt cmd g = None).
Proof.
  intros Hneg Hlo.
  assert (Hz : findSegment g (Num z) = None)
    by (apply findSegment_negative; [lra | exact Hlo]).
  split; [reflexivity|]. split; [exact Hz|]. split.
  - intros [Hp | Hp]; apply render_no_base; rewrite Hp; [reflexivity | exact Hz].
  - intros Hp Hover. unfold update. rewrite Hover, Hp. reflexivity.
Qed.

Lemma no_segment_below_zero_witness :
  findSegment lane_split NaN = None
  /\ findSegment lane_split (Num (-0.5)) = None
  /\ (position lane_split = NaN \/ position lane_split = Num (-0.5) ->
      render lane_split = None)
  /\ (position lane_split = NaN -> isGameOver lane_split = false ->
      update (Num (1 # 60)) neutral lane_split = None).
Proof.
  apply (no_segment_below_zero lane_split (Num (1 # 60)) neutral (-0.5)).
  - lra.
  - replace (length (segments lane_split)) with 2000%nat
      by (vm_compute; reflexivity).
    vm_compute. discriminate.
Defined.

(** X30: no car is drawn twice in a frame: in every state a game reaches
    from its constructor (draws in [0, 1), ticks in (0, 1], any commands),
    both loops of [render] return, and the calls of [renderCar] that the
    sprite pass makes, over the 299 segments of its window, are for
    pairwise different car objects. *)
Theorem car_drawn_at_most_once
    (w h stored : num) (rnd : nat -> Q) (inputs : list (num * Command)) :
  (forall j, 0 <= rnd j /\ rnd j < 1) ->
  Forall (fun x => tick_ok (fst x) = true) inputs ->
  exists g0 g draws,
    newGame w h stored rnd = Some g0 /\ run inputs g0 = Some g
    /\ render_sprites g = Some draws
    /\ NoDup (drawn_cars draws).
Proof.
  intros Hrnd Hticks.
  destruct (newGame_Inv w h stored rnd (rnd_nonneg rnd Hrnd)) as (g0 & E0 & H0).
  destruct (run_Inv inputs Hticks g0 H0) as (g & E & Hg).
  destruct (render_sprites_NoDup g Hg) as (draws & Ed & Hnd).
  exists g0, g, draws. auto.
Qed.

Lemma car_drawn_at_most_once_witness :
  exists g0 g draws,
    newGame (Num 800) (Num 600) NaN always_high = Some g0
    /\ run off_road_run g0 = Some g
    /\ render_sprites g = Some draws
    /\ NoDup (drawn_cars draws).
Proof.
  apply (car_drawn_at_most_once (Num 800) (Num 600) NaN always_high off_road_run).
  - intros j. unfold always_high. split; lra.
  - repeat constructor.
Defined.
